(** * repo2text: path tree, tri-state selection, structure index, content
      fetching and bundle assembly

    A shallow embedding of [src/App.tsx], [src/services/githubService.ts] and
    of the [FileTree] component, with the properties the specification states
    about them and further properties of the code.

    Conventions of the embedding.
    - A JavaScript string is a [string] (a sequence of bytes; a non-ASCII
      character is its UTF-8 encoding).
    - A plain object used as a dictionary whose enumeration order the code
      observes ([TreeNode.children], read through [Object.values] and
      [Object.entries]) is an association list kept in the order of
      [OrdinaryOwnPropertyKeys]: array-index keys first, in ascending numeric
      order, then the other keys in creation order.
    - A plain object only read by key ([SelectionState], [SelectionStatusMap])
      is a [gmap string _]; an absent key reads as [undefined], which is falsy.
      These objects are read at the paths of nodes, and no node of a tree
      that [buildTree] makes bears the name of a property that
      [Object.prototype] has when the page loads, so no read falls through
      to the prototype.  A write at a key taken from a listing goes through
      [assign], which makes no property at '__proto__'.
    - [fetch] and the order in which pending operations settle belong to the
      environment and are parameters, and so are [localeCompare] and the
      line splitting of the PDF library.  The JSON body of an answer of the
      GitHub API is the record of the fields that the handlers read.
    - A regular expression is a term of the fragment of the language that
      the code uses, run by a backtracking matcher.
    - Mutation of the tree under construction is explicit state passing: the
      function returns the updated node and the caller stores it back under
      the key it came from. *)

From Stdlib Require Import String Ascii List Bool Arith Lia NArith ZArith.
From Stdlib Require Import OrderedTypeEx Sorting.Sorted.
From stdpp Require Import base option list gmap strings pretty.
Import ListNotations.
Open Scope string_scope.
Open Scope list_scope.

(** ** Strings *)

Module Str.

(** [s.split(sep)] for a one-character separator: the pieces between the
    occurrences of [sep]; never empty ([''.split('/')] is [['']]). *)
Fixpoint split (sep : ascii) (s : string) : list string :=
  match s with
  | EmptyString => [EmptyString]
  | String c rest =>
      if Ascii.eqb c sep then EmptyString :: split sep rest
      else match split sep rest with
           | [] => [String c EmptyString]
           | piece :: pieces => String c piece :: pieces
           end
  end.

(** [parts.join(sep)]. *)
Fixpoint join (sep : string) (parts : list string) : string :=
  match parts with
  | [] => EmptyString
  | [p] => p
  | p :: rest => p +:+ sep +:+ join sep rest
  end.

(** [parts.pop()] on a fresh array: its last element, [undefined] when the
    array is empty. *)
Definition pop (parts : list string) : option string := last parts.

(** [s.toLowerCase()] on the letters A to Z. No character outside ASCII
    lowercases to an ASCII letter other than k (U+212A), which none of the
    extension tables below contains, so membership in those tables is that
    of the real function. *)
Definition lowerAscii (c : ascii) : ascii :=
  let n := nat_of_ascii c in
  if (65 <=? n)%nat && (n <=? 90)%nat then ascii_of_nat (n + 32) else c.

Fixpoint toLowerCase (s : string) : string :=
  match s with
  | EmptyString => EmptyString
  | String c rest => String (lowerAscii c) (toLowerCase rest)
  end.

(** [c.repeat(n)]. *)
Fixpoint repeat (c : string) (n : nat) : string :=
  match n with
  | O => EmptyString
  | S k => c +:+ repeat c k
  end.

Fixpoint contains (c : ascii) (s : string) : bool :=
  match s with
  | EmptyString => false
  | String d rest => Ascii.eqb d c || contains c rest
  end.

Definition isEmpty (s : string) : bool :=
  match s with EmptyString => true | _ => false end.

End Str.

(** ** Data model *)

(** Modelled from the spec: [types.ts] is not among the sources; section 3 of
    the specification gives a node's kind as [tree] or [blob]. *)
Inductive Kind : Type := blob | tree.

Definition Kind_eqb (a b : Kind) : bool :=
  match a, b with
  | blob, blob | tree, tree => true
  | _, _ => false
  end.

(** [GitHubItem]: the fields of a listing record that the code reads. *)
Record GitHubItem : Type := mkItem {
  item_path : string;
  item_type : Kind;
  item_sha : string;
  item_url : string
}.

(** [TreeNode]; [children] is the object [{ [name]: TreeNode }]. *)
#[local] Unset Elimination Schemes.
Inductive TreeNode : Type := mkNode {
  name : string;
  path : string;
  type : Kind;
  sha : string;
  url : string;
  children : list (string * TreeNode)
}.
#[local] Set Elimination Schemes.

(** Induction over a node with the property known of every child. *)
Section TreeNode_induction.
Variable P : TreeNode -> Prop.
Hypothesis step :
  forall n, Forall (fun kc => P (snd kc)) (children n) -> P n.

Fixpoint TreeNode_children_ind (n : TreeNode) : P n :=
  match n as n0 return (Forall (fun kc => P (snd kc)) (children n0) -> P n0) -> P n0 with
  | mkNode nm pa ty sh ur cs => fun k =>
      k ((fix all (l : list (string * TreeNode)) : Forall (fun kc => P (snd kc)) l :=
            match l with
            | [] => @List.Forall_nil _ _
            | kc :: l' => @List.Forall_cons _ _ kc l' (TreeNode_children_ind (snd kc)) (all l')
            end) cs)
  end (step n).
End TreeNode_induction.

(** ** Own keys of a plain object *)

Module Obj.

Definition digit (c : ascii) : option N :=
  let n := N_of_ascii c in
  if (48 <=? n)%N && (n <=? 57)%N then Some (n - 48)%N else None.

Fixpoint digits (acc : N) (s : string) : option N :=
  match s with
  | EmptyString => Some acc
  | String c rest =>
      match digit c with
      | Some d => digits (acc * 10 + d)%N rest
      | None => None
      end
  end.

(** An array index: the canonical decimal form of an integer between 0 and
    2^32 - 2. Strings longer than ten characters are never one. *)
Definition arrayIndex (k : string) : option N :=
  match k with
  | EmptyString => None
  | String c rest =>
      if Ascii.eqb c "0" && negb (Str.isEmpty rest) then None
      else if (10 <? String.length k)%nat then None
      else match digits 0 k with
           | Some n => if (n <=? 4294967294)%N then Some n else None
           | None => None
           end
  end.

Section Dict.
Context {V : Type}.

(** [o[k]] restricted to own properties. *)
Fixpoint own (k : string) (o : list (string * V)) : option V :=
  match o with
  | [] => None
  | (k', v) :: rest => if String.eqb k k' then Some v else own k rest
  end.

(** Position of a new array-index key: before the first key that is not
    an array index or is a larger one. *)
Fixpoint addIndex (i : N) (k : string) (v : V) (o : list (string * V))
  : list (string * V) :=
  match o with
  | [] => [(k, v)]
  | (k', v') :: rest =>
      match arrayIndex k' with
      | Some j => if (j <? i)%N then (k', v') :: addIndex i k v rest
                  else (k, v) :: o
      | None => (k, v) :: o
      end
  end.

(** [o[k] = v] when [k] is not yet an own key. *)
Definition add (k : string) (v : V) (o : list (string * V))
  : list (string * V) :=
  match arrayIndex k with
  | Some i => addIndex i k v o
  | None => o ++ [(k, v)]
  end.

(** [o[k] = v] when [k] is an own key: the value changes in place. *)
Fixpoint replace (k : string) (v : V) (o : list (string * V))
  : list (string * V) :=
  match o with
  | [] => []
  | (k', v') :: rest =>
      if String.eqb k k' then (k', v) :: rest
      else (k', v') :: replace k v rest
  end.

End Dict.

(** The properties every plain object inherits from [Object.prototype];
    each of them reads as a truthy value (a function, or the prototype
    itself for [__proto__]). *)
Definition prototypeNames : list string :=
  [ "constructor"; "__defineGetter__"; "__defineSetter__"; "hasOwnProperty";
    "__lookupGetter__"; "__lookupSetter__"; "isPrototypeOf";
    "propertyIsEnumerable"; "toString"; "valueOf"; "__proto__";
    "toLocaleString" ].

(** Whether [o[k]] is truthy for a plain object [o] that has no own key [k].
    [polluted] says that [Object.prototype.children] has been assigned, which
    [buildTree] itself does when a path runs through [__proto__]. *)
Definition inherited (polluted : bool) (k : string) : bool :=
  existsb (String.eqb k) prototypeNames
  || (polluted && String.eqb k "children").

End Obj.

(** ** PathTreeBuilder: [buildTree] *)

Definition rootNode : TreeNode :=
  {| name := "root"; path := ""; type := tree; sha := ""; url := "";
     children := [] |}.

Definition withChildren (n : TreeNode) (cs : list (string * TreeNode)) : TreeNode :=
  {| name := name n; path := path n; type := type n; sha := sha n;
     url := url n; children := cs |}.

(** The object literal assigned to [current.children[part]]. *)
Definition newNode (item : GitHubItem) (parts : list string) (index : nat)
    (part : string) : TreeNode :=
  let terminal := Nat.eqb index (length parts - 1) in
  {| name := part;
     path := Str.join "/" (firstn (index + 1) parts);
     type := if terminal then item_type item else tree;
     sha := if terminal then item_sha item else "";
     url := if terminal then item_url item else "";
     children := [] |}.

(** The body of [parts.forEach((part, index) => ...)] from position [index]
    on, with [current] the node the walk has reached; returns [current] as the
    walk leaves it. [todo] holds the parts from [index] on.

    When [current.children[part]] is not an own key but is inherited, the
    test [!current.children[part]] is false and [current] becomes a built-in
    object: the nodes of the remaining parts are created under that object
    and no node reachable from the root changes. *)
Fixpoint descend (polluted : bool) (item : GitHubItem) (parts : list string)
    (index : nat) (todo : list string) (current : TreeNode) : TreeNode :=
  match todo with
  | [] => current
  | part :: rest =>
      match Obj.own part (children current) with
      | Some child =>
          withChildren current
            (Obj.replace part (descend polluted item parts (S index) rest child)
               (children current))
      | None =>
          if Obj.inherited polluted part then current
          else
            withChildren current
              (Obj.add part
                 (descend polluted item parts (S index) rest
                    (newNode item parts index part))
                 (children current))
      end
  end.

(** The body of [items.forEach(item => ...)] on the pair of the root and the
    state of [Object.prototype]. A part that follows [__proto__] finds
    [current] equal to [Object.prototype] and assigns its [children]. *)
Definition addItem (st : TreeNode * bool) (item : GitHubItem) : TreeNode * bool :=
  let parts := Str.split "/" (item_path item) in
  (descend (snd st) item parts 0 parts (fst st),
   snd st || existsb (String.eqb "__proto__") (removelast parts)).

(** [buildTree(items)], called with [Object.prototype] as the engine
    provides it. *)
Definition buildTree (items : list GitHubItem) : TreeNode :=
  fst (fold_left addItem items (rootNode, false)).

Definition file (p : string) : GitHubItem :=
  {| item_path := p; item_type := blob; item_sha := "sha:" +:+ p;
     item_url := "https://api.github.com/blobs/" +:+ p |}.

Definition dir (p : string) : GitHubItem :=
  {| item_path := p; item_type := tree; item_sha := "sha:" +:+ p;
     item_url := "https://api.github.com/trees/" +:+ p |}.

(** ** StructureRenderer: [buildAsciiIndex], and [sortedChildren] of [FileTree] *)

Definition newline : string := String (ascii_of_nat 10) EmptyString.

(** [i === children.length - 1] when [rest] is what follows position [i]. *)
Definition isLastOf {A : Type} (rest : list A) : bool :=
  match rest with [] => true | _ => false end.

(** [buildAsciiIndex(node, prefix, isLast)]. Both branches concatenate the
    renderings of [Object.values(node.children)] in that order. *)
Fixpoint buildAsciiIndex (node : TreeNode) (prefix : string) (isLast : bool)
  : string :=
  match node with
  | mkNode nm _ _ _ _ cs =>
      let renderAll :=
        fix renderAll (l : list (string * TreeNode)) (pre : string) : string :=
          match l with
          | [] => EmptyString
          | kc :: rest =>
              buildAsciiIndex (snd kc) pre (isLastOf rest) +:+ renderAll rest pre
          end in
      if String.eqb nm "root" then renderAll cs EmptyString
      else
        let connector := if isLast then "└── " else "├── " in
        let childPrefix := prefix +:+ (if isLast then "    " else "│   ") in
        (prefix +:+ connector +:+ nm +:+ newline) +:+ renderAll cs childPrefix
  end.

(** The call [buildAsciiIndex(treeData)] with the default arguments. *)
Definition render (treeData : TreeNode) : string :=
  buildAsciiIndex treeData EmptyString true.

Section SortedChildren.
(** [aName.localeCompare(bName)] depends on the locale of the engine and is
    taken as given. *)
Variable localeCompare : string -> string -> comparison.

(** The comparator of [sortedChildren]: negative, zero or positive. *)
Definition compareEntries (a b : string * TreeNode) : comparison :=
  let aIsDir := Kind_eqb (type (snd a)) tree in
  let bIsDir := Kind_eqb (type (snd b)) tree in
  if aIsDir && negb bIsDir then Lt
  else if negb aIsDir && bIsDir then Gt
  else localeCompare (fst a) (fst b).

(** [Array.prototype.sort] is stable. [e] stood before every entry of the
    sorted [l], so it goes before the first of them that does not compare
    smaller than it. *)
Fixpoint insertSorted (e : string * TreeNode) (l : list (string * TreeNode))
  : list (string * TreeNode) :=
  match l with
  | [] => [e]
  | x :: rest =>
      match compareEntries e x with
      | Gt => x :: insertSorted e rest
      | _ => e :: l
      end
  end.

(** [Object.entries(node.children).sort(...)]. *)
Definition sortedChildren (node : TreeNode) : list (string * TreeNode) :=
  fold_right insertSorted [] (children node).
End SortedChildren.

(** ** SelectionEngine: [selectionStatusMap] and [handleToggle] *)

Inductive SelectionStatus : Type := checked | unchecked | indeterminate.

Definition SelectionStatus_eqb (a b : SelectionStatus) : bool :=
  match a, b with
  | checked, checked | unchecked, unchecked | indeterminate, indeterminate => true
  | _, _ => false
  end.

(** [SelectionState] is [gmap string bool] and [SelectionStatusMap] is
    [gmap string SelectionStatus]. *)

(** The truthiness of [selection[p]]. *)
Definition selected (selection : gmap string bool) (p : string) : bool :=
  default false (selection !! p).

(** [allChecked ? 'checked' : (allUnchecked ? 'unchecked' : 'indeterminate')]. *)
Definition aggregate (statuses : list SelectionStatus) : SelectionStatus :=
  if forallb (SelectionStatus_eqb checked) statuses then checked
  else if forallb (SelectionStatus_eqb unchecked) statuses then unchecked
  else indeterminate.

(** [compute(node)] inside [selectionStatusMap]: the status of [node] and the
    map after the writes of the call. *)
Fixpoint compute (selection : gmap string bool) (node : TreeNode)
    (map : gmap string SelectionStatus)
  : SelectionStatus * gmap string SelectionStatus :=
  match node with
  | mkNode _ p ty _ _ cs =>
      match ty with
      | blob =>
          let s := if selected selection p then checked else unchecked in
          (s, <[p := s]> map)
      | tree =>
          match cs with
          | [] => (unchecked, <[p := unchecked]> map)
          | _ =>
              let '(statuses, map') :=
                (fix each (l : list (string * TreeNode))
                     (m : gmap string SelectionStatus)
                   : list SelectionStatus * gmap string SelectionStatus :=
                   match l with
                   | [] => ([], m)
                   | kc :: rest =>
                       let '(s, m1) := compute selection (snd kc) m in
                       let '(ss, m2) := each rest m1 in
                       (s :: ss, m2)
                   end) cs map in
              let status := aggregate statuses in
              (status, <[p := status]> map')
          end
      end
  end.

(** The [useMemo] value [selectionStatusMap]. *)
Definition selectionStatusMap (treeData : option TreeNode)
    (selection : gmap string bool) : gmap string SelectionStatus :=
  match treeData with
  | None => ∅
  | Some root => snd (compute selection root ∅)
  end.

(** [setRecursive(node)] on the copy [next]. *)
Fixpoint setRecursive (targetVal : bool) (node : TreeNode)
    (next : gmap string bool) : gmap string bool :=
  match node with
  | mkNode _ p ty _ _ cs =>
      let next1 := match ty with blob => <[p := targetVal]> next | tree => next end in
      (fix each (l : list (string * TreeNode)) (m : gmap string bool)
         : gmap string bool :=
         match l with
         | [] => m
         | kc :: rest => each rest (setRecursive targetVal (snd kc) m)
         end) cs next1
  end.

(** [findAndSet(node)]: [some] stops at the first child that returns true. *)
Fixpoint findAndSet (target : string) (targetVal : bool) (node : TreeNode)
    (next : gmap string bool) : bool * gmap string bool :=
  match node with
  | mkNode _ p _ _ _ cs =>
      if String.eqb p target then (true, setRecursive targetVal node next)
      else
        (fix some (l : list (string * TreeNode)) (m : gmap string bool)
           : bool * gmap string bool :=
           match l with
           | [] => (false, m)
           | kc :: rest =>
               let '(found, m1) := findAndSet target targetVal (snd kc) m in
               if found then (true, m1) else some rest m1
           end) cs next
  end.

(** The updater that [handleToggle(path, isFile)] passes to [setSelection],
    with [statusMap] the [selectionStatusMap] of the closure. *)
Definition handleToggle (treeData : option TreeNode)
    (statusMap : gmap string SelectionStatus) (p : string) (isFile : bool)
    (prev : gmap string bool) : gmap string bool :=
  if isFile then <[p := negb (selected prev p)]> prev
  else
    let targetVal :=
      match statusMap !! p with
      | Some checked => false
      | _ => true
      end in
    match treeData with
    | Some root => snd (findAndSet p targetVal root prev)
    | None => prev
    end.

(** [handleToggle] as the earlier copy of [App.tsx] has it
    ([src/unnamed/part_001]): the target value comes from the keys of [prev]
    at or below [path], not from a status map. [findNode] and
    [traverseAndSet] of that copy are [findAndSet] and [setRecursive]. *)
Definition allSelected (prev : gmap string bool) (p : string) : bool :=
  let currentlySelected :=
    List.filter (fun q => String.prefix (p +:+ "/") q || String.eqb q p)
      (map fst (map_to_list prev)) in
  (0 <? length currentlySelected)%nat
  && forallb (fun q => selected prev q) currentlySelected.

Definition handleToggleLegacy (treeData : option TreeNode) (p : string)
    (isFile : bool) (prev : gmap string bool) : gmap string bool :=
  if isFile then <[p := negb (selected prev p)]> prev
  else
    match treeData with
    | Some root => snd (findAndSet p (negb (allSelected prev p)) root prev)
    | None => prev
    end.

(** ** ContentFetcher: [fetchFileContents] *)

(** The argument type [{ url: string; path: string }]. *)
Record FileRef : Type := mkFileRef { file_path : string; file_url : string }.

(** [FileContent] as the two object literals of [fetchFileContents] build it:
    [{ ...file, type: 'text', text }] and
    [{ ...file, type: 'image', dataUrl, mimeType }]. *)
Inductive FileContent : Type :=
  | TextContent (file : FileRef) (text : string)
  | ImageContent (file : FileRef) (dataUrl mimeType : string).

Definition content_file (c : FileContent) : FileRef :=
  match c with
  | TextContent f _ => f
  | ImageContent f _ _ => f
  end.

(** What the network answers to [fetch(file.url, { headers })]: the promise
    rejects (a network error), or it resolves to a response with its [ok]
    flag, the text of its body, and for its blob the type and the data URL
    that [FileReader] produces. *)
Inductive FetchOutcome : Type :=
  | NetworkError (message : string)
  | Response (ok : bool) (text : string) (blobType : string) (dataUrl : string).

(** A settled promise. *)
Inductive Settled (A : Type) : Type :=
  | Fulfilled (value : A)
  | Rejected (reason : string).
Arguments Fulfilled {A} value.
Arguments Rejected {A} reason.

(** What an observer of the network sees: a request leaves, an operation
    settles. *)
Inductive Event : Type :=
  | Issued (f : FileRef)
  | Done (f : FileRef).

Definition IMAGE_EXTENSIONS : list string :=
  ["png"; "jpg"; "jpeg"; "gif"; "webp"; "ico"].

Definition CONCURRENCY_LIMIT : nat := 10.

(** [IMAGE_EXTENSIONS.has(ext)]. *)
Definition has (table : list string) (ext : string) : bool :=
  existsb (String.eqb ext) table.

(** [file.path.split('.').pop()?.toLowerCase() || '']. *)
Definition extensionOf (p : string) : string :=
  match Str.pop (Str.split "." p) with
  | Some e => Str.toLowerCase e
  | None => EmptyString
  end.

Definition isImage (p : string) : bool := has IMAGE_EXTENSIONS (extensionOf p).

(** [files.slice(i, j)]. *)
Definition slice {A : Type} (i j : nat) (l : list A) : list A :=
  firstn (j - i) (skipn i l).

(** [chunkResults.filter(Boolean)]: a record is an object, hence truthy, and
    [null] is dropped. *)
Definition filterBoolean {A : Type} (l : list (option A)) : list A :=
  omap id l.

Section Fetch.
(** The network. *)
Variable fetch : FileRef -> FetchOutcome.
(** The order in which the operations of a window settle. *)
Variable settleOrder : list FileRef -> list FileRef.

(** The [async (file) => ...] of [chunk.map]: the promise it returns. *)
Definition fetchOne (f : FileRef) : Settled (option FileContent) :=
  let image := isImage (file_path f) in
  match fetch f with
  | NetworkError message => Rejected message
  | Response ok text blobType dataUrl =>
      if negb ok then Fulfilled None
      else if image then Fulfilled (Some (ImageContent f dataUrl blobType))
      else Fulfilled (Some (TextContent f text))
  end.

(** The values of the promises of a window, in the order of the window,
    when all of them fulfil. *)
Fixpoint allFulfilled {A : Type} (ps : list (Settled A)) : option (list A) :=
  match ps with
  | [] => Some []
  | Fulfilled v :: rest => option_map (cons v) (allFulfilled rest)
  | Rejected _ :: _ => None
  end.

(** The reason of the first promise to reject, in the order of settlement. *)
Fixpoint firstRejection {A : Type} (ps : list (Settled A)) : option string :=
  match ps with
  | [] => None
  | Rejected reason :: _ => Some reason
  | Fulfilled _ :: rest => firstRejection rest
  end.

(** [await Promise.all(chunk.map(async ...))]: the array of values in the
    order of [chunk], or the exception the [await] throws. *)
Definition promiseAll (chunk : list FileRef) : Settled (list (option FileContent)) :=
  match allFulfilled (map fetchOne chunk) with
  | Some values => Fulfilled values
  | None =>
      match firstRejection (map fetchOne (settleOrder chunk)) with
      | Some reason => Rejected reason
      | None => Rejected EmptyString
      end
  end.

(** A window on the wire: [chunk.map] starts every operation, each up to its
    [await fetch(...)], and the operations then settle in some order. An
    operation that is still in flight when [Promise.all] rejects is not
    cancelled and settles all the same. *)
Definition windowEvents (chunk : list FileRef) : list Event :=
  map Issued chunk ++ map Done (settleOrder chunk).

(** The [for] loop of [fetchFileContents] from index [i] on, with [results]
    and the events so far; [fuel] bounds the number of iterations and [None]
    says that it ran out. A rejected window ends the function: nothing
    catches the exception of the [await]. *)
Fixpoint fetchLoop (fuel : nat) (limit : nat) (files : list FileRef)
    (i : nat) (results : list FileContent) (events : list Event)
  : option (Settled (list FileContent) * list Event) :=
  if (length files <=? i)%nat then Some (Fulfilled results, events)
  else
    match fuel with
    | O => None
    | S fuel' =>
        let chunk := slice i (i + limit) files in
        let events' := events ++ windowEvents chunk in
        match promiseAll chunk with
        | Rejected reason => Some (Rejected reason, events')
        | Fulfilled chunkResults =>
            fetchLoop fuel' limit files (i + limit)
              (results ++ filterBoolean chunkResults) events'
        end
    end.

(** [fetchFileContents(files, token)] with the window size as a parameter;
    the loop makes at most [length files] iterations when [limit] is
    positive. *)
Definition fetchAll (limit : nat) (files : list FileRef)
  : option (Settled (list FileContent) * list Event) :=
  fetchLoop (length files) limit files 0 [] [].

Definition fetchFileContents (files : list FileRef)
  : option (Settled (list FileContent) * list Event) :=
  fetchAll CONCURRENCY_LIMIT files.
End Fetch.

(** ** BundleAssembler and [generateOutput] *)

Record RepoDetails : Type := mkRepo { owner : string; repo : string }.

(** [`${activeRepoDetails?.owner}`]. *)
Definition interpolate (field : option string) : string :=
  match field with
  | Some s => s
  | None => "undefined"
  end.

Definition boundary : string := Str.repeat "=" 80.

(** [file.text || `[Binary/Image Data: ${file.mimeType}]`]: an image record
    has no [text], a text record has no [mimeType], and the empty string is
    falsy. *)
Definition sectionBody (c : FileContent) : string :=
  match c with
  | TextContent _ text =>
      if Str.isEmpty text then "[Binary/Image Data: undefined]" else text
  | ImageContent _ _ mimeType => "[Binary/Image Data: " +:+ mimeType +:+ "]"
  end.

(** What one turn of [contents.forEach] appends to [formatted]. *)
Definition fileSection (c : FileContent) : string :=
  newline +:+ boundary +:+ newline +:+ "FILE: " +:+ file_path (content_file c)
  +:+ newline +:+ boundary +:+ newline +:+ newline +:+ sectionBody c +:+ newline.

Definition header (details : option RepoDetails) (structure : string) : string :=
  "REPOSITORY: " +:+ interpolate (owner <$> details) +:+ "/"
  +:+ interpolate (repo <$> details) +:+ newline +:+ "STRUCTURE:" +:+ newline
  +:+ structure +:+ newline +:+ newline.

(** The value of [formatted] that [setOutput] receives. *)
Definition assemble (details : option RepoDetails) (structure : string)
    (contents : list FileContent) : string :=
  fold_left (fun formatted c => formatted +:+ fileSection c) contents
    (header details structure).

(** [traverse(node)] of [generateOutput]: pushes the selected blobs. *)
Fixpoint traverse (selection : gmap string bool) (node : TreeNode)
    (selectedFiles : list FileRef) : list FileRef :=
  match node with
  | mkNode _ p ty _ u cs =>
      let pushed :=
        match ty with
        | blob => if selected selection p
                  then selectedFiles ++ [{| file_path := p; file_url := u |}]
                  else selectedFiles
        | tree => selectedFiles
        end in
      (fix each (l : list (string * TreeNode)) (acc : list FileRef) : list FileRef :=
         match l with
         | [] => acc
         | kc :: rest => each rest (traverse selection (snd kc) acc)
         end) cs pushed
  end.

(** The React state that [generateOutput] reads and writes. *)
Record AppState : Type := mkState {
  treeData : option TreeNode;
  selection : gmap string bool;
  activeRepoDetails : option RepoDetails;
  output : string;
  error : option string;
  isGenerating : bool
}.

Definition setOutput (v : string) (s : AppState) : AppState :=
  {| treeData := treeData s; selection := selection s;
     activeRepoDetails := activeRepoDetails s; output := v;
     error := error s; isGenerating := isGenerating s |}.

Definition setError (v : option string) (s : AppState) : AppState :=
  {| treeData := treeData s; selection := selection s;
     activeRepoDetails := activeRepoDetails s; output := output s;
     error := v; isGenerating := isGenerating s |}.

Definition setIsGenerating (v : bool) (s : AppState) : AppState :=
  {| treeData := treeData s; selection := selection s;
     activeRepoDetails := activeRepoDetails s; output := output s;
     error := error s; isGenerating := v |}.

Section Generate.
Variable fetch : FileRef -> FetchOutcome.
Variable settleOrder : list FileRef -> list FileRef.

(** [generateOutput()]: the state once the promise has settled and the
    events on the network meanwhile; [None] when the fetch loop does not
    end. The [catch] turns an exception into [setError(err.message)]. *)
Definition generateOutput (s : AppState) : option (AppState * list Event) :=
  match treeData s with
  | None => Some (s, [])
  | Some root =>
      let s1 := setIsGenerating true s in
      let selectedFiles := traverse (selection s) root [] in
      if (length selectedFiles =? 0)%nat
      then Some (setIsGenerating false (setError (Some "No files selected") s1), [])
      else
        match fetchFileContents fetch settleOrder selectedFiles with
        | None => None
        | Some (Rejected reason, events) =>
            Some (setIsGenerating false (setError (Some reason) s1), events)
        | Some (Fulfilled contents, events) =>
            Some (setIsGenerating false
                    (setOutput (assemble (activeRepoDetails s) (render root) contents) s1),
                  events)
        end
  end.
End Generate.

(** ** Vocabulary of the statements *)

(** The substring after the last occurrence of [c], and the whole string when
    [c] does not occur: the wording of the classification rule. *)
Fixpoint afterLast (c : ascii) (s : string) : string :=
  match s with
  | EmptyString => EmptyString
  | String d rest =>
      if Str.contains c rest then afterLast c rest
      else if Ascii.eqb d c then rest
      else s
  end.

(** The node and its descendants, parents before children. *)
Fixpoint nodes (n : TreeNode) : list TreeNode :=
  match n with
  | mkNode _ _ _ _ _ cs => n :: flat_map (fun kc => nodes (snd kc)) cs
  end.

Definition isBlob (n : TreeNode) : bool := Kind_eqb (type n) blob.

(** The selected blobs of a tree. *)
Definition selectedLeaves (sel : gmap string bool) (root : TreeNode)
  : list TreeNode :=
  List.filter (fun n => isBlob n && selected sel (path n)) (nodes root).

Definition refOf (n : TreeNode) : FileRef :=
  {| file_path := path n; file_url := url n |}.

(** The record of a file when its operation fulfils with one. *)
Definition recordOf (fetch : FileRef -> FetchOutcome) (f : FileRef)
  : option FileContent :=
  match fetchOne fetch f with
  | Fulfilled r => r
  | Rejected _ => None
  end.

Definition responds (fetch : FileRef -> FetchOutcome) (f : FileRef) : bool :=
  match fetch f with
  | NetworkError _ => false
  | Response _ _ _ _ => true
  end.

Definition traverseEach (sel : gmap string bool) :=
  fix each (l : list (string * TreeNode)) (acc : list FileRef) : list FileRef :=
    match l with
    | [] => acc
    | kc :: rest => each rest (traverse sel (snd kc) acc)
    end.

(** The windows that the loop of [fetchFileContents] takes from index [i]
    on when no window rejects. *)
Fixpoint windowsFrom (fuel limit : nat) (files : list FileRef) (i : nat)
  : list (list FileRef) :=
  if (length files <=? i)%nat then []
  else
    match fuel with
    | O => []
    | S fuel' => slice i (i + limit) files :: windowsFrom fuel' limit files (i + limit)
    end.

Definition windows (limit : nat) (files : list FileRef) : list (list FileRef) :=
  windowsFrom (length files) limit files 0.


(** The nodes that [compute] reaches: it does not look below a blob. *)
Fixpoint visited (n : TreeNode) : list TreeNode :=
  match n with
  | mkNode _ _ ty _ _ cs =>
      n :: match ty with
           | blob => []
           | tree => flat_map (fun kc => visited (snd kc)) cs
           end
  end.

(** The descendant leaves of a node: the blobs among the nodes reached. *)
Definition leaves (n : TreeNode) : list TreeNode := List.filter isBlob (visited n).

(** The status of a node as a function of the tree and the selection. *)
Fixpoint status (sel : gmap string bool) (n : TreeNode) : SelectionStatus :=
  match n with
  | mkNode _ p ty _ _ cs =>
      match ty with
      | blob => if selected sel p then checked else unchecked
      | tree =>
          match cs with
          | [] => unchecked
          | _ => aggregate (map (fun kc => status sel (snd kc)) cs)
          end
      end
  end.

Definition computeEach (sel : gmap string bool) :=
  fix each (l : list (string * TreeNode)) (m : gmap string SelectionStatus)
    : list SelectionStatus * gmap string SelectionStatus :=
    match l with
    | [] => ([], m)
    | kc :: rest =>
        let '(s, m1) := compute sel (snd kc) m in
        let '(ss, m2) := each rest m1 in
        (s :: ss, m2)
    end.

Definition setEach (v : bool) :=
  fix each (l : list (string * TreeNode)) (m : gmap string bool) : gmap string bool :=
    match l with
    | [] => m
    | kc :: rest => each rest (setRecursive v (snd kc) m)
    end.

Definition findSome (target : string) (v : bool) :=
  fix some (l : list (string * TreeNode)) (m : gmap string bool)
    : bool * gmap string bool :=
    match l with
    | [] => (false, m)
    | kc :: rest =>
        let '(found, m1) := findAndSet target v (snd kc) m in
        if found then (true, m1) else some rest m1
    end.

(** The parts of a record's path. *)
Definition partsOf (item : GitHubItem) : list string :=
  Str.split "/" (item_path item).

(** [segs] is an initial run of [l]. *)
Fixpoint isPrefix (segs l : list string) : bool :=
  match segs, l with
  | [], _ => true
  | s :: segs', x :: l' => String.eqb s x && isPrefix segs' l'
  | _ :: _, [] => false
  end.

Definition isProperPrefix (segs l : list string) : bool :=
  isPrefix segs l && (length segs <? length l)%nat.

(** The record to which a node owes its existence: the first one whose path
    runs through the sequence of names [segs]. *)
Definition creator (segs : list string) (items : list GitHubItem)
  : option GitHubItem :=
  List.find (fun item => isPrefix segs (partsOf item)) items.

(** The node reached from [n] by following the names [segs]. *)
Fixpoint nodeAt (segs : list string) (n : TreeNode) : option TreeNode :=
  match segs with
  | [] => Some n
  | s :: rest =>
      match Obj.own s (children n) with
      | Some child => nodeAt rest child
      | None => None
      end
  end.

(** The fields of a node other than its children. *)
Definition fields (n : TreeNode) : string * string * Kind * string * string :=
  (name n, path n, type n, sha n, url n).

(** The fields that [item] gives the node it creates at [segs]. *)
Definition createdFields (item : GitHubItem) (segs : list string) :=
  fields (newNode item (partsOf item) (length segs - 1) (default EmptyString (last segs))).

(** The full-tree walk: every node below the root. *)
Definition descendants (root : TreeNode) : list TreeNode :=
  flat_map (fun kc => nodes (snd kc)) (children root).

(** Every node with the names that lead to it from [n]. *)
Fixpoint located (n : TreeNode) : list (list string * TreeNode) :=
  match n with
  | mkNode _ _ _ _ _ cs =>
      ([], n)
      :: flat_map (fun kc => map (fun sm => (fst kc :: fst sm, snd sm)) (located (snd kc))) cs
  end.

Definition locatedBelow (root : TreeNode) : list (list string * TreeNode) :=
  flat_map (fun kc => map (fun sm => (fst kc :: fst sm, snd sm)) (located (snd kc)))
    (children root).

(** No two children of a node, at any depth, under the same key. *)
Fixpoint keysUnique (n : TreeNode) : Prop :=
  match n with
  | mkNode _ _ _ _ _ cs =>
      NoDup (map fst cs)
      /\ (fix all (l : list (string * TreeNode)) : Prop :=
            match l with
            | [] => True
            | kc :: rest => keysUnique (snd kc) /\ all rest
            end) cs
  end.

Definition ordinary (seg : string) : bool := negb (Obj.inherited false seg).

(** No part of any path is the name of a property of [Object.prototype]. *)
Definition ordinarySegments (items : list GitHubItem) : bool :=
  forallb (fun item => forallb ordinary (partsOf item)) items.

(** No record comes after a record whose path runs through its own: a
    directory is listed before what it contains. *)
Fixpoint parentsFirst (items : list GitHubItem) : bool :=
  match items with
  | [] => true
  | item :: rest =>
      forallb (fun later => negb (isProperPrefix (partsOf later) (partsOf item))) rest
      && parentsFirst rest
  end.

(** The inner loop of [buildAsciiIndex] over the children. *)
Definition renderAll :=
  fix renderAll (l : list (string * TreeNode)) (pre : string) : string :=
    match l with
    | [] => EmptyString
    | kc :: rest => buildAsciiIndex (snd kc) pre (isLastOf rest) +:+ renderAll rest pre
    end.

(** The order of the explorer: a directory before a file, and among entries
    of one kind the name that does not compare greater first. *)
Definition listedBefore (localeCompare : string -> string -> comparison)
    (a b : string * TreeNode) : Prop :=
  (type (snd a) = tree /\ type (snd b) = blob)
  \/ (type (snd a) = type (snd b) /\ localeCompare (fst a) (fst b) <> Gt).

(** ** Further code of [App.tsx]: the initial selection and [bulkAction] *)

Definition CODE_EXTS : list string :=
  [ "js"; "ts"; "jsx"; "tsx"; "py"; "java"; "cpp"; "h"; "html"; "css"; "md";
    "json"; "go"; "rs"; "php"; "rb"; "sql"; "yaml"; "yml"; "toml" ].

(** [CODE_EXTS.has(x.split('.').pop()?.toLowerCase() || '')]. *)
Definition isCode (x : string) : bool := has CODE_EXTS (extensionOf x).

(** [o[k] = v] with a boolean [v] on an object literal.  The key
    '__proto__' is the accessor that the object inherits from
    [Object.prototype]; its setter ignores a value that is not an object, so
    the assignment makes no property. *)
Definition assign (k : string) (v : bool) (o : gmap string bool) : gmap string bool :=
  if String.eqb k "__proto__" then o else <[k := v]> o.

(** [initialSelection] of [handleFetch]: the loop over [items] on the empty
    object. *)
Definition initialSelection (items : list GitHubItem) : gmap string bool :=
  fold_left
    (fun sel item =>
       match item_type item with
       | blob => assign (item_path item) (isCode (item_path item)) sel
       | tree => sel
       end)
    items ∅.

(** The argument of [setExpandedPaths] in [handleFetch]:
    [new Set(['', ...items.filter(i => i.type === 'tree' &&
    i.path.split('/').length < 2).map(i => i.path)])]. *)
Definition initialExpanded (items : list GitHubItem) : gset string :=
  {[ EmptyString ]}
  ∪ list_to_set
      (map item_path
         (List.filter
            (fun i => Kind_eqb (item_type i) tree
                      && (length (Str.split "/" (item_path i)) <? 2)%nat)
            items)).

(** The argument of [bulkAction]. *)
Inductive BulkType : Type := bulk_all | bulk_none | bulk_code.

(** [traverse(node)] of [bulkAction] on the object [next]. *)
Fixpoint bulkTraverse (ty : BulkType) (node : TreeNode)
    (next : gmap string bool) : gmap string bool :=
  match node with
  | mkNode nm p k _ _ cs =>
      let next1 :=
        match k with
        | blob =>
            match ty with
            | bulk_all => <[p := true]> next
            | bulk_none => <[p := false]> next
            | bulk_code => <[p := isCode nm]> next
            end
        | tree => next
        end in
      (fix each (l : list (string * TreeNode)) (m : gmap string bool)
         : gmap string bool :=
         match l with
         | [] => m
         | kc :: rest => each rest (bulkTraverse ty (snd kc) m)
         end) cs next1
  end.

(** The argument of [setSelection] in [bulkAction(type)]. *)
Definition bulkAction (ty : BulkType) (treeData : option TreeNode)
  : gmap string bool :=
  match treeData with
  | Some root => bulkTraverse ty root ∅
  | None => ∅
  end.

(** The value [bulkAction] gives a blob. *)
Definition bulkValue (ty : BulkType) (n : TreeNode) : bool :=
  match ty with
  | bulk_all => true
  | bulk_none => false
  | bulk_code => isCode (name n)
  end.

Definition bulkEach (ty : BulkType) :=
  fix each (l : list (string * TreeNode)) (m : gmap string bool) : gmap string bool :=
    match l with
    | [] => m
    | kc :: rest => each rest (bulkTraverse ty (snd kc) m)
    end.

(** The blobs of a tree, as [setRecursive], [traverse] and [bulkAction] meet
    them. *)
Definition blobs (n : TreeNode) : list TreeNode := List.filter isBlob (nodes n).

(** [setSelection(v)] on the state. *)
Definition setSelection (v : gmap string bool) (s : AppState) : AppState :=
  {| treeData := treeData s; selection := v;
     activeRepoDetails := activeRepoDetails s; output := output s;
     error := error s; isGenerating := isGenerating s |}.

(** ** Further code of [FileTree]: the icon of a file *)

Module FileTree.

(** The table of the component, which has 'svg' and differs from the table
    of [fetchFileContents]. *)
Definition IMAGE_EXTENSIONS : list string :=
  ["png"; "jpg"; "jpeg"; "gif"; "webp"; "ico"; "svg"].

Inductive Icon : Type := ImageIcon | File | Folder.

(** [getFileIcon()]: by the extension of [node.name]. *)
Definition getFileIcon (node : TreeNode) : Icon :=
  let ext := extensionOf (name node) in
  if has IMAGE_EXTENSIONS ext then ImageIcon else File.

(** The icon in the row of [node]: [isDirectory ? <Folder/> : getFileIcon()]. *)
Definition icon (node : TreeNode) : Icon :=
  match type node with
  | tree => Folder
  | blob => getFileIcon node
  end.

End FileTree.

(** ** [handleDownload] of [App.tsx] *)

Inductive DownloadFormat : Type := txt | md | pdf.

Definition formatName (f : DownloadFormat) : string :=
  match f with txt => "txt" | md => "md" | pdf => "pdf" end.

(** The calls on the [jsPDF] document. *)
Inductive PdfOp : Type :=
  | SetFont (family style : string)
  | SetFontSize (size : Z)
  | AddPage
  | Text (line : string) (x y : Z).

(** [lines.forEach(line => ...)] with the variable [y] of the closure. *)
Fixpoint drawLines (lines : list string) (y : Z) : list PdfOp :=
  match lines with
  | [] => []
  | line :: rest =>
      let '(ops, y1) := if (280 <? y)%Z then ([AddPage], 20%Z) else ([], y) in
      ops ++ Text line 15 y1 :: drawLines rest (y1 + 5)%Z
  end.

(** What the browser is asked to save: the document under a name, or a
    [Blob] of a type and a content under the name in [a.download]. *)
Inductive Download : Type :=
  | SavePdf (fileName : string) (ops : list PdfOp)
  | SaveBlob (fileName : string) (mimeType : string) (content : string).

(** [handleDownload()]; [splitTextToSize] is [doc.splitTextToSize(_, 180)]
    of the library. *)
Definition handleDownload (splitTextToSize : string -> list string)
    (downloadFormat : DownloadFormat) (output : string)
    (activeRepoDetails : option RepoDetails) : Download :=
  match downloadFormat with
  | pdf =>
      SavePdf (interpolate (repo <$> activeRepoDetails) +:+ "-context.pdf")
        (SetFont "courier" "normal" :: SetFontSize 10
         :: drawLines (splitTextToSize output) 20)
  | _ =>
      SaveBlob (interpolate (repo <$> activeRepoDetails) +:+ "-context."
                +:+ formatName downloadFormat)
        "text/plain" output
  end.

(** The lines of text of a document with the page, counted from 0, and the
    position at which each is drawn. *)
Fixpoint placed (page : nat) (ops : list PdfOp) : list (nat * string * Z * Z) :=
  match ops with
  | [] => []
  | AddPage :: rest => placed (S page) rest
  | Text line x y :: rest => (page, line, x, y) :: placed page rest
  | _ :: rest => placed page rest
  end.

(** ** [parseRepoUrl] of [githubService.ts] *)

(** The part of the regular expressions of JavaScript that [urlPattern]
    uses, with the backtracking order of the language: a quantifier takes as
    much as it can first, and a group that takes no part in the match has no
    capture.  A string is read as the UTF-8 form of the text, so a line
    terminator is one of the bytes 10 and 13 or one of the three-byte forms
    of U+2028 and U+2029. *)
Module Re.

Inductive Class : Type :=
  | NotSlash   (* [^/] *)
  | Dot.       (* . *)

Definition lineTerminatorAt (s : string) : bool :=
  match s with
  | EmptyString => false
  | String c rest =>
      Ascii.eqb c "010" || Ascii.eqb c "013"
      || (Ascii.eqb c "226"
          && (String.prefix (String "128" (String "168" EmptyString)) rest
              || String.prefix (String "128" (String "169" EmptyString)) rest))
  end.

(** Whether the class accepts the character at the head of [s]. *)
Definition accepts (cls : Class) (s : string) : bool :=
  match s with
  | EmptyString => false
  | String c _ =>
      match cls with
      | NotSlash => negb (Ascii.eqb c "/")
      | Dot => negb (lineTerminatorAt s)
      end
  end.

Inductive Re : Type :=
  | Lit (text : string)          (* literal characters *)
  | Many1 (cls : Class)          (* cls+ *)
  | Seq (a b : Re)
  | Opt (a : Re)                 (* (...)? *)
  | Group (n : nat) (a : Re)     (* capturing group number n *)
  | AtEnd.                       (* $ *)

Definition Captures : Type := gmap nat string.

Fixpoint stripPrefix (p s : string) : option string :=
  match p, s with
  | EmptyString, _ => Some s
  | String a p', String b s' => if Ascii.eqb a b then stripPrefix p' s' else None
  | String _ _, EmptyString => None
  end.

(** [cls+] before the continuation [k]: the longest run first, then shorter
    ones. *)
Fixpoint many1 {A : Type} (cls : Class) (s : string) (k : string -> option A)
  : option A :=
  match s with
  | EmptyString => None
  | String c rest =>
      if accepts cls s
      then match many1 cls rest k with
           | Some r => Some r
           | None => k rest
           end
      else None
  end.

(** What a match has taken of [s] when [s'] is left. *)
Definition consumed (s s' : string) : string :=
  String.substring 0 (String.length s - String.length s') s.

(** The matcher in continuation-passing style: [k] is what follows in the
    pattern, tried on the rest of the input with the captures so far. *)
Fixpoint run (r : Re) (s : string) (caps : Captures)
    (k : string -> Captures -> option Captures) : option Captures :=
  match r with
  | Lit text =>
      match stripPrefix text s with
      | Some s' => k s' caps
      | None => None
      end
  | Many1 cls => many1 cls s (fun s' => k s' caps)
  | Seq a b => run a s caps (fun s' caps' => run b s' caps' k)
  | Opt a =>
      match run a s caps k with
      | Some c => Some c
      | None => k s caps
      end
  | Group n a => run a s caps (fun s' caps' => k s' (<[n := consumed s s']> caps'))
  | AtEnd => if Str.isEmpty s then k s caps else None
  end.

(** [s.match(/^r/)]: the captures of a match that starts at the beginning
    of [s]. *)
Definition exec (r : Re) (s : string) : option Captures :=
  run r s ∅ (fun _ caps => Some caps).

End Re.

(** [/^https:\/\/github\.com\/([^/]+)\/([^/]+)(\/tree\/([^/]+)(\/(.+))?)?$/]. *)
Definition urlPattern : Re.Re :=
  Re.Seq (Re.Lit "https://github.com/")
    (Re.Seq (Re.Group 1 (Re.Many1 Re.NotSlash))
       (Re.Seq (Re.Lit "/")
          (Re.Seq (Re.Group 2 (Re.Many1 Re.NotSlash))
             (Re.Seq
                (Re.Opt
                   (Re.Group 3
                      (Re.Seq (Re.Lit "/tree/")
                         (Re.Seq (Re.Group 4 (Re.Many1 Re.NotSlash))
                            (Re.Opt
                               (Re.Group 5
                                  (Re.Seq (Re.Lit "/")
                                     (Re.Group 6 (Re.Many1 Re.Dot)))))))))
                Re.AtEnd)))).

(** [url.replace(/\/$/, '')]: without one slash at the very end. *)
Fixpoint cleanUrl (url : string) : string :=
  match url with
  | EmptyString => EmptyString
  | String c rest =>
      if Ascii.eqb c "/" && Str.isEmpty rest then EmptyString
      else String c (cleanUrl rest)
  end.

(** The object that [parseRepoUrl] returns: [ref] and [path] are
    [undefined] when their groups take no part in the match.  [RepoDetails]
    above keeps the two fields that [generateOutput] reads. *)
Record RepoLocation : Type := mkLocation {
  loc_owner : string;
  loc_repo : string;
  loc_ref : option string;
  loc_path : option string
}.

Definition detailsOf (l : RepoLocation) : RepoDetails :=
  {| owner := loc_owner l; repo := loc_repo l |}.

(** [parseRepoUrl(url)]; [inl] is the message of the [Error] thrown. *)
Definition parseRepoUrl (url : string) : string + RepoLocation :=
  match Re.exec urlPattern (cleanUrl url) with
  | None => inl "Invalid GitHub repository URL."
  | Some m =>
      inr {| loc_owner := default EmptyString (m !! 1%nat);
             loc_repo := default EmptyString (m !! 2%nat);
             loc_ref := m !! 4%nat;
             loc_path := m !! 6%nat |}
  end.

(** The URL of a location, as the pattern reads it. *)
Definition printUrl (l : RepoLocation) : string :=
  "https://github.com/" +:+ loc_owner l +:+ "/" +:+ loc_repo l
  +:+ match loc_ref l with
      | None => EmptyString
      | Some r =>
          "/tree/" +:+ r
          +:+ match loc_path l with
              | None => EmptyString
              | Some p => "/" +:+ p
              end
      end.

(** A non-empty string without '/'. *)
Definition isSegment (s : string) : bool :=
  negb (Str.isEmpty s) && negb (Str.contains "/" s).

(** A non-empty string that '.' accepts at every position. *)
Fixpoint dotAll (s : string) : bool :=
  match s with
  | EmptyString => true
  | String _ rest => Re.accepts Re.Dot s && dotAll rest
  end.

Definition endsWithSlash (s : string) : bool :=
  negb (String.eqb (cleanUrl s) s).

Definition wellFormed (l : RepoLocation) : bool :=
  isSegment (loc_owner l) && isSegment (loc_repo l)
  && match loc_ref l with
     | None => match loc_path l with None => true | Some _ => false end
     | Some r =>
         isSegment r
         && match loc_path l with
            | None => true
            | Some p => negb (Str.isEmpty p) && dotAll p
            end
     end.

(** Every character of [pre], followed by [post], is accepted. *)
Fixpoint accepted (cls : Re.Class) (pre post : string) : bool :=
  match pre with
  | EmptyString => true
  | String c pre' => Re.accepts cls (pre +:+ post) && accepted cls pre' post
  end.


(** ** [handleFetch] of [App.tsx] and the requests of [githubService.ts] *)

Record Request : Type := mkRequest {
  req_url : string;
  req_headers : list (string * string)
}.

(** What [handleFetch] reads of the JSON body of a response:
    [repoInfo.default_branch], [data.sha] and [data.tree]; a field that the
    body does not have reads as [undefined]. *)
Record Body : Type := mkBody {
  default_branch : option string;
  body_sha : option string;
  body_tree : list GitHubItem
}.

(** What the network answers to a request: the promise of [fetch] rejects,
    or it resolves to a response with its [ok] flag, its status and its
    body. *)
Inductive HttpOutcome : Type :=
  | HttpFailure (message : string)
  | HttpResponse (ok : bool) (status : nat) (body : Body).

(** A string that is neither [undefined] nor empty, as [||] and [? :] see
    it. *)
Definition truthy (s : option string) : option string :=
  match s with
  | Some t => if Str.isEmpty t then None else Some t
  | None => None
  end.

(** [getHeaders(token)]. *)
Definition getHeaders (token : string) : list (string * string) :=
  let headers := [("Accept", "application/vnd.github+json")] in
  if Str.isEmpty token then headers
  else Obj.add "Authorization" ("token " +:+ token) headers.

(** [`https://api.github.com/repos/${owner}/${repo}`]. *)
Definition apiRepo (owner repo : string) : string :=
  "https://api.github.com/repos/" +:+ owner +:+ "/" +:+ repo.

Definition infoRequest (owner repo token : string) : Request :=
  {| req_url := apiRepo owner repo; req_headers := getHeaders token |}.

Definition shaRequest (owner repo : string) (ref : option string)
    (path token : string) : Request :=
  let query := match truthy ref with
               | Some r => "?ref=" +:+ r
               | None => EmptyString
               end in
  {| req_url := apiRepo owner repo +:+ "/contents/" +:+ path +:+ query;
     req_headers :=
       Obj.replace "Accept" "application/vnd.github.object+json" (getHeaders token) |}.

Definition treeRequest (owner repo : string) (sha : option string)
    (token : string) : Request :=
  {| req_url := apiRepo owner repo +:+ "/git/trees/" +:+ interpolate sha
                +:+ "?recursive=1";
     req_headers := getHeaders token |}.

(** The state of the page that [handleFetch] writes: the React state, around
    the part that [generateOutput] uses, and whether
    [Object.prototype.children] has been assigned since the page loaded,
    which [buildTree] does and which lasts until the page is left. *)
Record PageState : Type := mkPage {
  core : AppState;
  isLoading : bool;
  expandedPaths : gset string;
  polluted : bool
}.

Definition onApp (f : AppState -> AppState) (s : PageState) : PageState :=
  {| core := f (core s); isLoading := isLoading s;
     expandedPaths := expandedPaths s; polluted := polluted s |}.

Definition setIsLoading (v : bool) (s : PageState) : PageState :=
  {| core := core s; isLoading := v;
     expandedPaths := expandedPaths s; polluted := polluted s |}.

Definition setExpandedPaths (v : gset string) (s : PageState) : PageState :=
  {| core := core s; isLoading := isLoading s;
     expandedPaths := v; polluted := polluted s |}.

Definition setPolluted (v : bool) (s : PageState) : PageState :=
  {| core := core s; isLoading := isLoading s;
     expandedPaths := expandedPaths s; polluted := v |}.

Definition setTreeData (v : option TreeNode) (s : AppState) : AppState :=
  {| treeData := v; selection := selection s;
     activeRepoDetails := activeRepoDetails s; output := output s;
     error := error s; isGenerating := isGenerating s |}.

Definition setActiveRepoDetails (v : option RepoDetails) (s : AppState) : AppState :=
  {| treeData := treeData s; selection := selection s;
     activeRepoDetails := v; output := output s;
     error := error s; isGenerating := isGenerating s |}.

(** [catch (err) { setError(err.message || 'Fetch failed') }] and
    [finally { setIsLoading(false) }]. *)
Definition caught (message : string) (s : PageState) : PageState :=
  setIsLoading false
    (onApp (setError (Some (if Str.isEmpty message then "Fetch failed" else message))) s).

(** [buildTree(items)] in a page in which [Object.prototype.children] may
    have been assigned already: the tree, and whether it is assigned
    afterwards.  [buildTree items] is the tree of [buildTreeFrom false items]. *)
Definition buildTreeFrom (polluted : bool) (items : list GitHubItem) : TreeNode * bool :=
  fold_left addItem items (rootNode, polluted).

(** [details.ref || repoInfo.default_branch]. *)
Definition branchOf (details : RepoLocation) (repoInfo : Body) : option string :=
  match truthy (loc_ref details) with
  | Some b => Some b
  | None => default_branch repoInfo
  end.

(** [details.path || '']. *)
Definition pathOf (details : RepoLocation) : string :=
  default EmptyString (truthy (loc_path details)).

Section HandleFetch.
(** The network. *)
Variable http : Request -> HttpOutcome.

(** The answer to a request is a response that is ok, with this body. *)
Definition answersOk (rq : Request) (body : Body) : Prop :=
  exists status, http rq = HttpResponse true status body.

(** The three calls return the value of the promise, or the message of the
    exception when it rejects. *)
Definition fetchRepoInfo (owner repo token : string) : string + Body :=
  match http (infoRequest owner repo token) with
  | HttpFailure message => inl message
  | HttpResponse ok status body =>
      if ok then inr body
      else inl ("Failed to fetch repo info: " +:+ pretty status)
  end.

Definition fetchRepoSha (owner repo : string) (ref : option string)
    (path token : string) : string + option string :=
  match http (shaRequest owner repo ref path token) with
  | HttpFailure message => inl message
  | HttpResponse ok status body =>
      if ok then inr (body_sha body)
      else inl ("Path not found or API error: " +:+ pretty status)
  end.

Definition fetchRepoTree (owner repo : string) (sha : option string)
    (token : string) : string + list GitHubItem :=
  match http (treeRequest owner repo sha token) with
  | HttpFailure message => inl message
  | HttpResponse ok status body =>
      if ok then inr (body_tree body)
      else inl "Repository tree fetch failed."
  end.

(** [handleFetch(e)] with the [repoUrl] and the [token] of the state: the
    state once the promise has settled, and the requests sent meanwhile. *)
Definition handleFetch (repoUrl token : string) (s : PageState)
  : PageState * list Request :=
  if Str.isEmpty repoUrl then (s, [])
  else
    let s0 := onApp (setOutput EmptyString)
                (onApp (setTreeData None)
                   (onApp (setError None) (setIsLoading true s))) in
    match parseRepoUrl repoUrl with
    | inl message => (caught message s0, [])
    | inr details =>
        let s1 := onApp (setActiveRepoDetails (Some (detailsOf details))) s0 in
        let o := loc_owner details in
        let r := loc_repo details in
        match fetchRepoInfo o r token with
        | inl message => (caught message s1, [infoRequest o r token])
        | inr repoInfo =>
            let branch := branchOf details repoInfo in
            let path := pathOf details in
            match fetchRepoSha o r branch path token with
            | inl message =>
                (caught message s1,
                 [infoRequest o r token; shaRequest o r branch path token])
            | inr targetSha =>
                let requests := [infoRequest o r token;
                                 shaRequest o r branch path token;
                                 treeRequest o r targetSha token] in
                match fetchRepoTree o r targetSha token with
                | inl message => (caught message s1, requests)
                | inr items =>
                    let built := buildTreeFrom (polluted s1) items in
                    (setIsLoading false
                       (setExpandedPaths (initialExpanded items)
                          (onApp (setSelection (initialSelection items))
                             (onApp (setTreeData (Some (fst built)))
                                (setPolluted (snd built) s1)))),
                     requests)
                end
            end
        end
    end.
End HandleFetch.

(** ** [sortTreeItems] of [githubService.ts] *)

Section SortTreeItems.
(** [a.path.localeCompare(b.path)], taken as given. *)
Variable localeCompare : string -> string -> comparison.

(** The stable sort of [Array.prototype.sort], as in [sortedChildren]. *)
Fixpoint insertItem (e : GitHubItem) (l : list GitHubItem) : list GitHubItem :=
  match l with
  | [] => [e]
  | x :: rest =>
      match localeCompare (item_path e) (item_path x) with
      | Gt => x :: insertItem e rest
      | _ => e :: l
      end
  end.

(** [[...items].sort((a, b) => a.path.localeCompare(b.path))]. *)
Definition sortTreeItems (items : list GitHubItem) : list GitHubItem :=
  fold_right insertItem [] items.
End SortTreeItems.

Definition pathBefore (localeCompare : string -> string -> comparison)
    (a b : GitHubItem) : Prop :=
  localeCompare (item_path a) (item_path b) <> Gt.

(** ** The requests among the events of a batch *)

(** The files whose request has left, in the order of leaving. *)
Definition issued (events : list Event) : list FileRef :=
  omap (fun e => match e with Issued f => Some f | Done _ => None end) events.

(** The files whose operation has settled, in the order of settling. *)
Definition settled (events : list Event) : list FileRef :=
  omap (fun e => match e with Done f => Some f | Issued _ => None end) events.

(** ** The rows of the explorer: [FileTree] and its use in [App.tsx] *)

(** The updater of [onToggleExpand(p)]. *)
Definition toggleExpand (p : string) (prev : gset string) : gset string :=
  if bool_decide (p ∈ prev) then prev ∖ {[ p ]} else prev ∪ {[ p ]}.

(** The number of levels of a tree. *)
Fixpoint height (n : TreeNode) : nat :=
  match n with
  | mkNode _ _ _ _ _ cs =>
      S ((fix each (l : list (string * TreeNode)) : nat :=
            match l with
            | [] => 0
            | kc :: rest => Nat.max (height (snd kc)) (each rest)
            end) cs)
  end.

Section Explorer.
Variable localeCompare : string -> string -> comparison.
Variable statusMap : gmap string SelectionStatus.
Variable expandedPaths : gset string.

(** The [status] prop that a parent passes:
    [statusMap[childNode.path] || 'unchecked']. *)
Definition statusProp (node : TreeNode) : SelectionStatus :=
  default unchecked (statusMap !! path node).

(** The rows that [<FileTree node status .../>] renders, in document order,
    each with the status it shows: the row of the node and, for an expanded
    directory, the rows of the [FileTree] of each of [sortedChildren];
    [fuel] bounds the levels below the node. *)
Fixpoint fileTree (fuel : nat) (node : TreeNode) (status : SelectionStatus)
  : list (TreeNode * SelectionStatus) :=
  (node, status)
  :: match fuel with
     | O => []
     | S fuel' =>
         if Kind_eqb (type node) tree && bool_decide (path node ∈ expandedPaths)
         then flat_map (fun kc => fileTree fuel' (snd kc) (statusProp (snd kc)))
                (sortedChildren localeCompare node)
         else []
     end.

(** The rows of the explorer panel: a [FileTree] for each of
    [Object.values(treeData.children)]. *)
Definition explorer (treeData : option TreeNode) : list (TreeNode * SelectionStatus) :=
  match treeData with
  | None => []
  | Some root =>
      flat_map (fun kc => fileTree (height root) (snd kc) (statusProp (snd kc)))
        (children root)
  end.
End Explorer.

(** * Properties *)

(** ** Strings *)

Lemma split_nonempty sep s : Str.split sep s <> [].
Proof.
  destruct s as [|c rest]; simpl; [discriminate|].
  destruct (Ascii.eqb c sep); [discriminate|].
  destruct (Str.split sep rest); discriminate.
Qed.

Lemma split_no_sep sep s :
  Str.contains sep s = false -> Str.split sep s = [s].
Proof.
  induction s as [|c rest IH]; simpl; [reflexivity|].
  destruct (Ascii.eqb c sep); simpl; [discriminate|].
  intros H. rewrite (IH H). reflexivity.
Qed.

Lemma split_with_sep sep s :
  Str.contains sep s = true ->
  exists p q l, Str.split sep s = p :: q :: l.
Proof.
  induction s as [|c rest IH]; simpl; [discriminate|].
  destruct (Ascii.eqb c sep); simpl.
  - intros _. destruct (Str.split sep rest) as [|q l] eqn:E.
    + exfalso. exact (split_nonempty _ _ E).
    + exists EmptyString, q, l. reflexivity.
  - intros H. destruct (IH H) as (p & q & l & E). rewrite E.
    exists (String c p), q, l. reflexivity.
Qed.

Lemma afterLast_no_sep c s : Str.contains c s = false -> afterLast c s = s.
Proof.
  destruct s as [|d rest]; simpl; [reflexivity|].
  destruct (Ascii.eqb d c); simpl; [discriminate|].
  intros H. rewrite H. reflexivity.
Qed.

Lemma pop_split sep s : Str.pop (Str.split sep s) = Some (afterLast sep s).
Proof.
  unfold Str.pop. induction s as [|c rest IH]; [reflexivity|].
  simpl. destruct (Str.contains sep rest) eqn:Hc.
  - destruct (split_with_sep _ _ Hc) as (p & q & l & E).
    rewrite E in IH |- *. destruct (Ascii.eqb c sep); exact IH.
  - rewrite (split_no_sep _ _ Hc). destruct (Ascii.eqb c sep); reflexivity.
Qed.

Lemma contains_app_sep c s : Str.contains c (s +:+ String c EmptyString) = true.
Proof.
  induction s as [|d rest IH]; simpl.
  - rewrite Ascii.eqb_refl. reflexivity.
  - rewrite IH. apply orb_true_r.
Qed.

Lemma afterLast_app_sep c s : afterLast c (s +:+ String c EmptyString) = EmptyString.
Proof.
  induction s as [|d rest IH]; simpl.
  - rewrite Ascii.eqb_refl. reflexivity.
  - rewrite contains_app_sep. exact IH.
Qed.

Lemma str_app_nil_r s : s +:+ EmptyString = s.
Proof.
  induction s as [|c s IH]; [reflexivity|].
  change (String c (s +:+ EmptyString) = String c s). rewrite IH. reflexivity.
Qed.

Lemma str_app_assoc a b c : (a +:+ b) +:+ c = a +:+ (b +:+ c).
Proof.
  induction a as [|x a IH]; [reflexivity|].
  change (String x ((a +:+ b) +:+ c) = String x (a +:+ (b +:+ c))).
  rewrite IH. reflexivity.
Qed.

Lemma concat_cons x l :
  String.concat EmptyString (x :: l) = x +:+ String.concat EmptyString l.
Proof. destruct l; simpl; [rewrite str_app_nil_r|]; reflexivity. Qed.

(** ** Strings: [split] and [join] *)

Lemma split_app_sep sep p s :
  Str.contains sep p = false ->
  Str.split sep (p +:+ String sep s) = p :: Str.split sep s.
Proof.
  induction p as [|c p IH]; simpl.
  - intros _. rewrite Ascii.eqb_refl. reflexivity.
  - destruct (Ascii.eqb c sep); simpl; [discriminate|].
    intros H. rewrite (IH H). reflexivity.
Qed.

Lemma split_parts_no_sep sep s :
  Forall (fun p => Str.contains sep p = false) (Str.split sep s).
Proof.
  induction s as [|c rest IH]; simpl.
  - repeat constructor.
  - destruct (Ascii.eqb c sep) eqn:E.
    + constructor; [reflexivity | exact IH].
    + destruct (Str.split sep rest) as [|p ps].
      * constructor; [simpl; rewrite E; reflexivity | constructor].
      * inversion IH; subst.
        constructor; [simpl; rewrite E; assumption | assumption].
Qed.

Lemma join_cons_cons sep p q rest :
  Str.join sep (p :: q :: rest) = p +:+ sep +:+ Str.join sep (q :: rest).
Proof. reflexivity. Qed.

Lemma split_join segs :
  segs <> [] ->
  Forall (fun p => Str.contains "/" p = false) segs ->
  Str.split "/" (Str.join "/" segs) = segs.
Proof.
  induction segs as [|p rest IH]; [congruence|]. intros _ Hall.
  inversion Hall as [|? ? Hp Hrest]; subst.
  destruct rest as [|q rest].
  - simpl. apply split_no_sep. exact Hp.
  - rewrite join_cons_cons.
    change ("/" +:+ Str.join "/" (q :: rest)) with (String "/" (Str.join "/" (q :: rest))).
    rewrite split_app_sep by exact Hp. rewrite IH; [reflexivity | discriminate | exact Hrest].
Qed.

Lemma join_split s : Str.join "/" (Str.split "/" s) = s.
Proof.
  induction s as [|c rest IH]; [reflexivity|]. simpl.
  destruct (Ascii.eqb_spec c "/") as [->|Hne].
  - destruct (Str.split "/" rest) as [|q l] eqn:E.
    + exfalso. exact (split_nonempty _ _ E).
    + rewrite join_cons_cons, IH. reflexivity.
  - destruct (Str.split "/" rest) as [|q l] eqn:E.
    + exfalso. exact (split_nonempty _ _ E).
    + rewrite <- IH. destruct l; reflexivity.
Qed.

Lemma isPrefix_Forall (P : string -> Prop) segs l :
  isPrefix segs l = true -> Forall P l -> Forall P segs.
Proof.
  revert l. induction segs as [|s segs IH]; intros l H Hl; [constructor|].
  destruct l as [|x l]; [discriminate|]. simpl in H.
  apply andb_true_iff in H as [E H]. apply String.eqb_eq in E. subst x.
  inversion Hl; subst. constructor; [assumption | eapply IH; eassumption].
Qed.

Lemma isPrefix_take segs l :
  isPrefix segs l = true -> take (length segs) l = segs.
Proof.
  revert l. induction segs as [|s segs IH]; intros l H; [reflexivity|].
  destruct l as [|x l]; [discriminate|]. simpl in H.
  apply andb_true_iff in H as [E H]. apply String.eqb_eq in E. subst x.
  simpl. rewrite (IH _ H). reflexivity.
Qed.

Lemma isPrefix_refl l : isPrefix l l = true.
Proof. induction l as [|x l IH]; simpl; [reflexivity|]. rewrite String.eqb_refl. exact IH. Qed.

Lemma isPrefix_length segs l :
  isPrefix segs l = true -> (length segs <= length l)%nat.
Proof.
  revert l. induction segs as [|s segs IH]; intros l H; simpl; [lia|].
  destruct l as [|x l]; [discriminate|]. simpl in H.
  apply andb_true_iff in H as [_ H]. specialize (IH _ H). simpl. lia.
Qed.

Lemma isPrefix_same_length segs l :
  isPrefix segs l = true -> length segs = length l -> segs = l.
Proof.
  intros H E. rewrite <- (isPrefix_take _ _ H), E. apply firstn_all.
Qed.

(** ** Lists *)

Lemma NoDup_app_In {A : Type} (l k : list A) :
  NoDup (l ++ k) <-> NoDup l /\ NoDup k /\ forall x, In x l -> ~ In x k.
Proof.
  rewrite NoDup_app. split.
  - intros (Hl & Hd & Hk). repeat split; [exact Hl | exact Hk |].
    intros x Hx Hx'. apply (Hd x); apply list_elem_of_In; assumption.
  - intros (Hl & Hk & Hd). repeat split; [exact Hl | | exact Hk].
    intros x Hx Hx'. apply (Hd x); apply list_elem_of_In; assumption.
Qed.

Lemma map_flat_map {A B C : Type} (f : B -> C) (g : A -> list B) (l : list A) :
  map f (flat_map g l) = flat_map (fun x => map f (g x)) l.
Proof.
  induction l as [|x l IH]; simpl; [reflexivity|].
  rewrite map_app, IH. reflexivity.
Qed.

Lemma NoDup_same {A B : Type} (f : A -> B) (l : list A) a b :
  NoDup (map f l) -> In a l -> In b l -> f a = f b -> a = b.
Proof.
  induction l as [|x l IH]; simpl; [tauto|].
  intros Hnd Ha Hb E. apply NoDup_cons in Hnd as [Hx Hnd].
  rewrite list_elem_of_In in Hx.
  destruct Ha as [->|Ha], Hb as [->|Hb].
  - reflexivity.
  - exfalso. apply Hx. rewrite E. apply in_map. exact Hb.
  - exfalso. apply Hx. rewrite <- E. apply in_map. exact Ha.
  - exact (IH Hnd Ha Hb E).
Qed.

Lemma NoDup_of_map {A B : Type} (f : A -> B) (l : list A) :
  NoDup (map f l) -> NoDup l.
Proof.
  induction l as [|x l IH]; [constructor|]. cbn [map]. intros H.
  apply NoDup_cons in H as [Hx Hl]. apply NoDup_cons. split; [|exact (IH Hl)].
  rewrite list_elem_of_In. rewrite list_elem_of_In in Hx.
  intros Hin. apply Hx. apply in_map. exact Hin.
Qed.

Lemma NoDup_map_inj_on {A B : Type} (f : A -> B) (l : list A) :
  NoDup l -> (forall x y, In x l -> In y l -> f x = f y -> x = y) ->
  NoDup (map f l).
Proof.
  induction 1 as [|x l Hx Hl IH]; intros Hinj; [constructor|].
  cbn [map]. apply NoDup_cons. split.
  - rewrite list_elem_of_In. rewrite list_elem_of_In in Hx.
    intros Hin. apply in_map_iff in Hin as (y & E & Hy).
    apply Hx. rewrite (Hinj x y); [exact Hy | left; reflexivity | right; exact Hy | congruence].
  - apply IH. intros a b Ha Hb. apply Hinj; right; assumption.
Qed.


(** ** Own keys *)

Section OwnKeys.
Context {V : Type}.
Implicit Types (o : list (string * V)) (k : string) (v : V).

Lemma own_In k v o : Obj.own k o = Some v -> In (k, v) o.
Proof.
  induction o as [|[k' v'] o IH]; simpl; [discriminate|].
  destruct (String.eqb_spec k k') as [->|Hne].
  - intros [= ->]. left. reflexivity.
  - intros H. right. exact (IH H).
Qed.

Lemma own_None k o : Obj.own k o = None <-> ~ In k (map fst o).
Proof.
  induction o as [|[k' v'] o IH]; simpl; [tauto|].
  destruct (String.eqb_spec k k') as [->|Hne].
  - split; [discriminate | intros H; exfalso; apply H; left; reflexivity].
  - rewrite IH. split; [intros H [E|H']; [congruence | tauto] | tauto].
Qed.

Lemma own_unique k v o :
  NoDup (map fst o) -> In (k, v) o -> Obj.own k o = Some v.
Proof.
  induction o as [|[k' v'] o IH]; simpl; [tauto|].
  intros Hnd Hin. apply NoDup_cons in Hnd as [Hk' Hnd].
  rewrite list_elem_of_In in Hk'.
  destruct (String.eqb_spec k k') as [->|Hne].
  - destruct Hin as [[= ->]|Hin]; [reflexivity|].
    exfalso. apply Hk'. apply (in_map fst) in Hin. exact Hin.
  - destruct Hin as [[= -> ->]|Hin]; [congruence|]. exact (IH Hnd Hin).
Qed.

Lemma own_replace k v o k' :
  Obj.own k' (Obj.replace k v o)
  = if String.eqb k' k then option_map (fun _ => v) (Obj.own k o) else Obj.own k' o.
Proof.
  induction o as [|[k0 v0] o IH]; simpl.
  - destruct (String.eqb k' k); reflexivity.
  - destruct (String.eqb_spec k k0) as [->|Hne]; simpl.
    + destruct (String.eqb_spec k' k0); reflexivity.
    + rewrite IH. destruct (String.eqb_spec k' k0) as [->|Hne'].
      * destruct (String.eqb_spec k0 k); [congruence | reflexivity].
      * reflexivity.
Qed.

Lemma keys_replace k v o : map fst (Obj.replace k v o) = map fst o.
Proof.
  induction o as [|[k0 v0] o IH]; simpl; [reflexivity|].
  destruct (String.eqb k k0); simpl; [reflexivity | rewrite IH; reflexivity].
Qed.

Lemma add_Permutation k v o : Permutation (Obj.add k v o) ((k, v) :: o).
Proof.
  unfold Obj.add. destruct (Obj.arrayIndex k) as [i|].
  - induction o as [|[k0 v0] o IH]; simpl; [reflexivity|].
    destruct (Obj.arrayIndex k0) as [j|]; [|reflexivity].
    destruct (j <? i)%N; [|reflexivity].
    rewrite IH. apply perm_swap.
  - symmetry. apply Permutation_cons_append.
Qed.

Lemma own_add k v o k' :
  Obj.own k o = None ->
  Obj.own k' (Obj.add k v o) = if String.eqb k' k then Some v else Obj.own k' o.
Proof.
  intros Hfresh. unfold Obj.add. destruct (Obj.arrayIndex k) as [i|].
  - induction o as [|[k0 v0] o IH]; simpl in *.
    + destruct (String.eqb k' k); reflexivity.
    + destruct (String.eqb_spec k k0) as [->|Hne]; [discriminate|].
      destruct (Obj.arrayIndex k0) as [j|]; [destruct (j <? i)%N|]; simpl;
        try rewrite (IH Hfresh);
        destruct (String.eqb_spec k' k0); destruct (String.eqb_spec k' k);
          congruence.
  - induction o as [|[k0 v0] o IH]; simpl in *.
    + destruct (String.eqb k' k); reflexivity.
    + destruct (String.eqb_spec k k0) as [->|Hne]; [discriminate|].
      rewrite (IH Hfresh).
      destruct (String.eqb_spec k' k0); destruct (String.eqb_spec k' k);
        congruence.
Qed.
End OwnKeys.

(** ** PathTreeBuilder: degenerate input *)

(** The example of section 8 of the specification. *)
Example buildTree_spec_example :
  map (fun kc => (fst kc, type (snd kc)))
      (children (buildTree [file "a/b.txt"; file "a/c/d.txt"; file "e.txt"]))
  = [("a", tree); ("e.txt", blob)].
Proof. reflexivity. Qed.

(** C9, as stated, fails: a record whose path is the empty string splits into
    the single part [''], and the root receives a child under that key. *)
Lemma buildTree_empty_path_has_child :
  children (buildTree [file ""]) <> [].
Proof. vm_compute. discriminate. Qed.

(** C9, amended. The empty record list yields a root without children; a
    single record whose path is the empty string yields a root with exactly
    one child, keyed by the empty name, whose path is empty and whose kind,
    sha and url are the record's. *)
Theorem buildTree_degenerate :
  children (buildTree []) = []
  /\ forall ty sh ur,
       children (buildTree [mkItem "" ty sh ur])
       = [("", {| name := ""; path := ""; type := ty; sha := sh; url := ur;
                  children := [] |})].
Proof. split; [reflexivity|]. intros ty sh ur. reflexivity. Qed.

(** ** PathTreeBuilder: the node at a sequence of names *)

Lemma descend_fields pol item parts index todo current :
  fields (descend pol item parts index todo current) = fields current.
Proof.
  destruct todo as [|part rest]; simpl; [reflexivity|].
  destruct (Obj.own part (children current)); [reflexivity|].
  destruct (Obj.inherited pol part); reflexivity.
Qed.

Lemma last_cons_default (s : string) segs :
  segs <> [] -> default EmptyString (last (s :: segs)) = default EmptyString (last segs).
Proof. destruct segs as [|s' segs]; [congruence | reflexivity]. Qed.

Lemma nodeAt_newNode item parts index part segs :
  nodeAt segs (newNode item parts index part)
  = match segs with [] => Some (newNode item parts index part) | _ => None end.
Proof. destruct segs; reflexivity. Qed.

(** What one record does to the node at [segs], seen from [current]: a node
    that exists keeps its fields, and a node on the path of the record that
    does not exist yet is created with the fields of [newNode]. *)
Lemma descend_nodeAt item parts todo :
  Forall (fun s => ordinary s = true) todo ->
  forall index current segs,
    option_map fields (nodeAt segs (descend false item parts index todo current))
    = if isPrefix segs todo
      then Some match nodeAt segs current with
                | Some m => fields m
                | None => fields (newNode item parts (index + length segs - 1)
                                    (default EmptyString (last segs)))
                end
      else option_map fields (nodeAt segs current).
Proof.
  induction 1 as [|part rest Hpart _ IH]; intros index current segs.
  - destruct segs; reflexivity.
  - destruct segs as [|s segs'].
    + cbn [nodeAt isPrefix option_map]. rewrite descend_fields. reflexivity.
    + assert (Hinh : Obj.inherited false part = false).
      { unfold ordinary in Hpart. destruct (Obj.inherited false part); [discriminate | reflexivity]. }
      cbn [descend isPrefix].
      destruct (Obj.own part (children current)) as [child|] eqn:E.
      * cbn [nodeAt]. unfold withChildren at 1. cbn [children].
        rewrite own_replace. destruct (String.eqb_spec s part) as [->|Hne].
        -- rewrite E. cbn [option_map andb]. rewrite IH.
           destruct (isPrefix segs' rest); [|reflexivity].
           destruct (nodeAt segs' child) eqn:En; [reflexivity|].
           assert (segs' <> []) by (intros ->; discriminate).
           rewrite (last_cons_default part segs') by assumption.
           replace (S index + length segs' - 1)%nat
             with (index + length (part :: segs') - 1)%nat by (simpl; lia).
           reflexivity.
        -- cbn [andb]. reflexivity.
      * rewrite Hinh. cbn [nodeAt]. unfold withChildren at 1. cbn [children].
        rewrite own_add by exact E. destruct (String.eqb_spec s part) as [->|Hne].
        -- rewrite E. cbn [andb]. rewrite IH, nodeAt_newNode.
           destruct segs' as [|s2 segs'].
           ++ cbn [isPrefix length]. replace (index + 1 - 1)%nat with index by lia.
              reflexivity.
           ++ destruct (isPrefix (s2 :: segs') rest); [|reflexivity].
              rewrite (last_cons_default part (s2 :: segs')) by discriminate.
              replace (S index + length (s2 :: segs') - 1)%nat
                with (index + length (part :: s2 :: segs') - 1)%nat by (simpl; lia).
              reflexivity.
        -- cbn [andb]. reflexivity.
Qed.

Lemma ordinary_not_proto parts :
  Forall (fun s => ordinary s = true) parts ->
  existsb (String.eqb "__proto__") (removelast parts) = false.
Proof.
  intros H. apply not_true_is_false. intros E.
  apply existsb_exists in E as (x & Hx & Ex). apply String.eqb_eq in Ex. subst x.
  assert (Hin : In "__proto__" parts).
  { clear H. induction parts as [|a [|b l] IH]; simpl in Hx |- *; [tauto | tauto |].
    destruct Hx as [->|Hx]; [left; reflexivity | right; exact (IH Hx)]. }
  rewrite List.Forall_forall in H. specialize (H _ Hin). discriminate.
Qed.

Lemma ordinarySegments_Forall items :
  ordinarySegments items = true ->
  Forall (fun item => Forall (fun s => ordinary s = true) (partsOf item)) items.
Proof.
  unfold ordinarySegments. rewrite forallb_forall, List.Forall_forall.
  intros H item Hin. specialize (H item Hin).
  rewrite forallb_forall in H. rewrite List.Forall_forall. exact H.
Qed.

Lemma addItem_ordinary t item :
  Forall (fun s => ordinary s = true) (partsOf item) ->
  addItem (t, false) item
  = (descend false item (partsOf item) 0 (partsOf item) t, false).
Proof.
  intros H. unfold addItem. cbn [fst snd]. fold (partsOf item).
  rewrite (ordinary_not_proto _ H). reflexivity.
Qed.

(** The fields of the node at [segs] after the records [items], from a tree
    [t]: those it had in [t], and otherwise those given by the first record
    whose path runs through [segs]. *)
Lemma fold_addItem_nodeAt items :
  Forall (fun item => Forall (fun s => ordinary s = true) (partsOf item)) items ->
  forall t segs, segs <> [] ->
    snd (fold_left addItem items (t, false)) = false
    /\ option_map fields (nodeAt segs (fst (fold_left addItem items (t, false))))
       = match nodeAt segs t with
         | Some m => Some (fields m)
         | None => option_map (fun item => createdFields item segs) (creator segs items)
         end.
Proof.
  induction 1 as [|item items Hitem _ IH]; intros t segs Hne.
  - simpl. split; [reflexivity|]. destruct (nodeAt segs t); reflexivity.
  - cbn [fold_left]. rewrite (addItem_ordinary _ _ Hitem).
    destruct (IH (descend false item (partsOf item) 0 (partsOf item) t) segs Hne) as [Hp Hf].
    split; [exact Hp|]. rewrite Hf. clear Hf Hp.
    pose proof (descend_nodeAt item (partsOf item) (partsOf item) Hitem 0%nat t segs) as D.
    unfold creator. cbn [find]. fold (creator segs items).
    destruct (isPrefix segs (partsOf item)) eqn:Epre.
    + destruct (nodeAt segs (descend false item (partsOf item) 0 (partsOf item) t)) as [m'|];
        [|discriminate].
      cbn [option_map] in D. injection D as D. rewrite D.
      destruct (nodeAt segs t); reflexivity.
    + destruct (nodeAt segs (descend false item (partsOf item) 0 (partsOf item) t)) as [m'|];
        destruct (nodeAt segs t) as [m|]; cbn [option_map] in D; congruence.
Qed.

(** What section 3 calls the reachability invariant, with the fields of every
    node: below the root, the node at [segs] exists exactly when the path of
    some record runs through [segs], and it has the fields given by the first
    such record. *)
Lemma buildTree_nodeAt items segs :
  ordinarySegments items = true -> segs <> [] ->
  option_map fields (nodeAt segs (buildTree items))
  = option_map (fun item => createdFields item segs) (creator segs items).
Proof.
  intros Hord Hne. unfold buildTree.
  destruct (fold_addItem_nodeAt items (ordinarySegments_Forall _ Hord) rootNode segs Hne)
    as [_ H].
  rewrite H. destruct segs; [congruence | reflexivity].
Qed.

(** ** PathTreeBuilder: keys stay unique *)

Lemma keysUnique_unfold nm p ty sh ur cs :
  keysUnique (mkNode nm p ty sh ur cs)
  <-> NoDup (map fst cs) /\ Forall (fun kc => keysUnique (snd kc)) cs.
Proof.
  cbn [keysUnique]. apply and_iff_compat_l.
  induction cs as [|kc cs IH].
  - split; [constructor | trivial].
  - rewrite Forall_cons, IH. reflexivity.
Qed.

Lemma keysUnique_withChildren n cs :
  keysUnique (withChildren n cs)
  <-> NoDup (map fst cs) /\ Forall (fun kc => keysUnique (snd kc)) cs.
Proof. apply keysUnique_unfold. Qed.

Lemma keysUnique_children n :
  keysUnique n
  <-> NoDup (map fst (children n)) /\ Forall (fun kc => keysUnique (snd kc)) (children n).
Proof. destruct n. apply keysUnique_unfold. Qed.

Lemma Forall_replace {V : Type} (P : V -> Prop) k v (o : list (string * V)) :
  Forall (fun kv => P (snd kv)) o -> P v ->
  Forall (fun kv => P (snd kv)) (Obj.replace k v o).
Proof.
  intros Ho Hv. induction Ho as [|[k0 v0] o H0 Ho IH]; simpl; [constructor|].
  destruct (String.eqb k k0); constructor; assumption.
Qed.

Lemma descend_keysUnique pol item parts todo :
  forall index current,
    keysUnique current -> keysUnique (descend pol item parts index todo current).
Proof.
  induction todo as [|part rest IH]; intros index current Hc; [exact Hc|].
  cbn [descend]. pose proof (proj1 (keysUnique_children current) Hc) as [Hnd Hall].
  destruct (Obj.own part (children current)) as [child|] eqn:E.
  - apply keysUnique_withChildren. rewrite keys_replace. split; [exact Hnd|].
    apply Forall_replace; [exact Hall|]. apply IH.
    rewrite List.Forall_forall in Hall. exact (Hall _ (own_In _ _ _ E)).
  - destruct (Obj.inherited pol part); [exact Hc|].
    apply keysUnique_withChildren.
    pose proof (add_Permutation part
                  (descend pol item parts (S index) rest (newNode item parts index part))
                  (children current)) as Hperm.
    split.
    + rewrite (Permutation_map fst Hperm). cbn [map fst]. apply NoDup_cons.
      split; [|exact Hnd]. rewrite list_elem_of_In. apply own_None. exact E.
    + rewrite Hperm. constructor; [|exact Hall]. apply IH.
      apply keysUnique_unfold. split; constructor.
Qed.

Lemma fold_addItem_keysUnique items :
  forall st, keysUnique (fst st) -> keysUnique (fst (fold_left addItem items st)).
Proof.
  induction items as [|item items IH]; intros st H; [exact H|].
  cbn [fold_left]. apply IH. unfold addItem. cbn [fst].
  apply descend_keysUnique. exact H.
Qed.

Lemma buildTree_keysUnique items : keysUnique (buildTree items).
Proof.
  unfold buildTree. apply fold_addItem_keysUnique. cbn [fst].
  apply keysUnique_unfold. split; constructor.
Qed.

(** ** The walk and the names that lead to a node *)

Lemma located_unfold n : located n = ([], n) :: locatedBelow n.
Proof. destruct n. reflexivity. Qed.

Lemma located_nodes n : map snd (located n) = nodes n.
Proof.
  induction n as [n IH] using TreeNode_children_ind.
  destruct n as [nm p ty sh ur cs]. simpl in IH. cbn [located nodes map snd].
  f_equal. induction IH as [|kc rest Hkc _ IHrest]; [reflexivity|].
  cbn [flat_map]. rewrite map_app, IHrest, map_map. cbn [snd].
  rewrite <- Hkc. reflexivity.
Qed.

Lemma locatedBelow_descendants n : map snd (locatedBelow n) = descendants n.
Proof.
  pose proof (located_nodes n) as H. rewrite located_unfold in H.
  destruct n as [nm p ty sh ur cs]. cbn [map nodes] in H. injection H as H. exact H.
Qed.

Lemma In_locatedBelow n segs m :
  In (segs, m) (locatedBelow n)
  <-> exists k c segs', In (k, c) (children n) /\ segs = k :: segs'
                        /\ In (segs', m) (located c).
Proof.
  unfold locatedBelow. rewrite in_flat_map. split.
  - intros ([k c] & Hkc & Hin). apply in_map_iff in Hin as ([segs' m'] & [= <- <-] & Hin).
    exists k, c, segs'. auto.
  - intros (k & c & segs' & Hkc & -> & Hin). exists (k, c). split; [exact Hkc|].
    apply in_map_iff. exists (segs', m). auto.
Qed.

Lemma located_nodeAt n :
  keysUnique n ->
  forall segs m, In (segs, m) (located n) <-> nodeAt segs n = Some m.
Proof.
  induction n as [n IH] using TreeNode_children_ind.
  intros Hk segs m. apply keysUnique_children in Hk as [Hnd Hall].
  rewrite List.Forall_forall in IH, Hall.
  rewrite located_unfold. cbn [In]. rewrite In_locatedBelow.
  destruct segs as [|s segs']; cbn [nodeAt].
  - split.
    + intros [[= <-]|(k & c & segs' & _ & Hs & _)]; [reflexivity | discriminate].
    + intros [= <-]. left. reflexivity.
  - split.
    + intros [[=]|(k & c & segs0 & Hkc & [= -> ->] & Hin)].
      rewrite (own_unique _ _ _ Hnd Hkc).
      apply (IH (k, c) Hkc (Hall _ Hkc)). exact Hin.
    + destruct (Obj.own s (children n)) as [c|] eqn:E; [|discriminate].
      intros Hat. right. pose proof (own_In _ _ _ E) as Hkc.
      exists s, c, segs'. repeat split; [exact Hkc|].
      apply (IH (s, c) Hkc (Hall _ Hkc)). exact Hat.
Qed.

Lemma located_NoDup n : keysUnique n -> NoDup (map fst (located n)).
Proof.
  induction n as [n IH] using TreeNode_children_ind.
  intros Hk. apply keysUnique_children in Hk as [Hnd Hall].
  rewrite located_unfold. cbn [map fst]. apply NoDup_cons. split.
  - rewrite list_elem_of_In. intros Hin. apply in_map_iff in Hin as ([segs m] & E & Hin).
    apply In_locatedBelow in Hin as (k & c & segs' & _ & -> & _). discriminate.
  - unfold locatedBelow. induction (children n) as [|[k c] cs IHcs]; [constructor|].
    cbn [flat_map]. rewrite map_app. cbn [map fst] in Hnd.
    apply NoDup_cons in Hnd as [Hk Hnd]. rewrite list_elem_of_In in Hk.
    inversion IH as [|? ? Hc IH']; subst. inversion Hall as [|? ? Hkc Hall']; subst.
    apply NoDup_app_In. split; [|split].
    + rewrite map_map. cbn [fst].
      rewrite <- (map_map fst (cons k)). apply NoDup_map_inj_on.
      * apply Hc. exact Hkc.
      * intros x y _ _ [= E]. exact E.
    + apply IHcs; assumption.
    + intros segs H1 H2.
      apply in_map_iff in H1 as ([s1 m1] & <- & H1).
      apply in_map_iff in H1 as ([s0 m0] & [= <- <-] & _).
      apply in_map_iff in H2 as ([s2 m2] & E & H2). cbn [fst] in E. subst s2.
      apply in_flat_map in H2 as ([k' c'] & Hin & H2).
      apply in_map_iff in H2 as ([s3 m3] & [= <- _ _] & _).
      apply Hk. apply (in_map fst) in Hin. exact Hin.
Qed.

Lemma below_nodeAt root segs m :
  keysUnique root ->
  (In (segs, m) (locatedBelow root) <-> segs <> [] /\ nodeAt segs root = Some m).
Proof.
  intros Hk. rewrite <- (located_nodeAt root Hk), located_unfold. cbn [In]. split.
  - intros Hin. split; [|right; exact Hin].
    apply In_locatedBelow in Hin as (k & c & segs' & _ & -> & _). discriminate.
  - intros [Hne [[= <- _]|Hin]]; [congruence | exact Hin].
Qed.

(** ** PathTreeBuilder: the walk of the tree built *)

Lemma creator_Some segs items item :
  creator segs items = Some item ->
  In item items /\ isPrefix segs (partsOf item) = true.
Proof. intros H. apply find_some in H. exact H. Qed.

Lemma creator_exists segs items item :
  In item items -> isPrefix segs (partsOf item) = true ->
  exists first, creator segs items = Some first.
Proof.
  intros Hin Hpre. destruct (creator segs items) as [first|] eqn:E; [eauto|].
  pose proof (find_none _ _ E item Hin) as H. cbn beta in H. congruence.
Qed.

Lemma createdFields_eq item segs :
  segs <> [] -> isPrefix segs (partsOf item) = true ->
  createdFields item segs
  = (default EmptyString (last segs), Str.join "/" segs,
     if (length segs =? length (partsOf item))%nat then item_type item else tree,
     if (length segs =? length (partsOf item))%nat then item_sha item else EmptyString,
     if (length segs =? length (partsOf item))%nat then item_url item else EmptyString).
Proof.
  intros Hne Hpre. unfold createdFields, fields, newNode. cbn [name path type sha url].
  assert (Hlen : (1 <= length segs)%nat) by (destruct segs; [congruence | simpl; lia]).
  pose proof (isPrefix_length _ _ Hpre) as Hle.
  replace (length segs - 1 + 1)%nat with (length segs) by lia.
  rewrite (isPrefix_take _ _ Hpre).
  replace (length segs - 1 =? length (partsOf item) - 1)%nat
    with (length segs =? length (partsOf item))%nat; [reflexivity|].
  destruct (Nat.eqb_spec (length segs) (length (partsOf item)));
    destruct (Nat.eqb_spec (length segs - 1) (length (partsOf item) - 1)); lia || reflexivity.
Qed.

Lemma partsOf_no_slash item :
  Forall (fun p => Str.contains "/" p = false) (partsOf item).
Proof. apply split_parts_no_sep. Qed.

Lemma partsOf_nonempty item : partsOf item <> [].
Proof. apply split_nonempty. Qed.

Lemma join_partsOf item : Str.join "/" (partsOf item) = item_path item.
Proof. apply join_split. Qed.

(** The nodes below the root of [buildTree items], each with the names that
    lead to it and the record that created it. *)
Lemma walk_node items :
  ordinarySegments items = true ->
  forall segs n,
    In (segs, n) (locatedBelow (buildTree items))
    <-> segs <> []
        /\ exists item, creator segs items = Some item
                        /\ nodeAt segs (buildTree items) = Some n
                        /\ fields n = createdFields item segs.
Proof.
  intros Hord segs n. rewrite (below_nodeAt _ _ _ (buildTree_keysUnique items)).
  split.
  - intros [Hne Hat]. split; [exact Hne|].
    pose proof (buildTree_nodeAt items segs Hord Hne) as H. rewrite Hat in H.
    destruct (creator segs items) as [item|]; [|discriminate].
    exists item. cbn [option_map] in H.
    split; [reflexivity|]. split; [exact Hat | congruence].
  - intros [Hne (item & _ & Hat & _)]. auto.
Qed.

Lemma walk_exists items :
  ordinarySegments items = true ->
  forall item segs,
    In item items -> segs <> [] -> isPrefix segs (partsOf item) = true ->
    exists first n,
      creator segs items = Some first
      /\ In (segs, n) (locatedBelow (buildTree items))
      /\ fields n = createdFields first segs.
Proof.
  intros Hord item segs Hin Hne Hpre.
  destruct (creator_exists _ _ _ Hin Hpre) as [first Hfirst].
  pose proof (buildTree_nodeAt items segs Hord Hne) as H. rewrite Hfirst in H.
  destruct (nodeAt segs (buildTree items)) as [n|] eqn:Hat; [|discriminate].
  cbn [option_map] in H. assert (Hf : fields n = createdFields first segs) by congruence.
  exists first, n. split; [exact Hfirst|]. split; [|exact Hf].
  apply walk_node; [exact Hord|]. split; [exact Hne|]. exists first. auto.
Qed.

(** Under [parentsFirst], the first record whose path runs through the whole
    path of [item] has a path of the same length. *)
Lemma creator_parentsFirst items :
  parentsFirst items = true ->
  forall item first,
    In item items -> creator (partsOf item) items = Some first ->
    length (partsOf first) = length (partsOf item).
Proof.
  induction items as [|x rest IH]; intros Hpf item first Hin Hc; [destruct Hin|].
  cbn [parentsFirst] in Hpf. apply andb_true_iff in Hpf as [Hx Hrest].
  unfold creator in Hc. cbn [find] in Hc.
  destruct (isPrefix (partsOf item) (partsOf x)) eqn:Hpre.
  - injection Hc as <-. destruct Hin as [->|Hin]; [reflexivity|].
    rewrite forallb_forall in Hx. specialize (Hx item Hin).
    unfold isProperPrefix in Hx. rewrite Hpre in Hx. cbn [andb] in Hx.
    apply negb_true_iff, Nat.ltb_ge in Hx.
    pose proof (isPrefix_length _ _ Hpre). lia.
  - destruct Hin as [->|Hin]; [rewrite isPrefix_refl in Hpre; discriminate|].
    exact (IH Hrest item first Hin Hc).
Qed.

(** C1, as stated, fails on the order of the records: a directory record
    that comes after a record inside the directory finds the node already
    there, created as an interior node, and its sha and url are not stored. *)
Lemma buildTree_order_matters :
  let items := [file "a/b.txt"; dir "a"] in
  NoDup (map item_path items)
  /\ ~ exists n, In n (descendants (buildTree items))
                 /\ path n = item_path (dir "a")
                 /\ sha n = item_sha (dir "a")
                 /\ url n = item_url (dir "a").
Proof.
  split.
  - apply (bool_decide_unpack _). vm_compute. exact I.
  - intros (n & Hin & Hp & Hs & _). vm_compute in Hin.
    destruct Hin as [<-|[<-|[]]]; discriminate.
Qed.

Lemma walk_info items :
  ordinarySegments items = true ->
  forall segs n,
    In (segs, n) (locatedBelow (buildTree items)) ->
    exists item,
      creator segs items = Some item /\ In item items
      /\ isPrefix segs (partsOf item) = true /\ segs <> []
      /\ nodeAt segs (buildTree items) = Some n
      /\ path n = Str.join "/" segs
      /\ type n = (if (length segs =? length (partsOf item))%nat then item_type item else tree)
      /\ sha n = (if (length segs =? length (partsOf item))%nat then item_sha item else EmptyString)
      /\ url n = (if (length segs =? length (partsOf item))%nat then item_url item else EmptyString).
Proof.
  intros Hord segs n Hin.
  apply (walk_node items Hord) in Hin as [Hne (item & Hc & Hat & Hf)].
  destruct (creator_Some _ _ _ Hc) as [Hitem Hpre].
  rewrite (createdFields_eq _ _ Hne Hpre) in Hf. unfold fields in Hf.
  injection Hf as _ Hp Ht Hs Hu.
  exists item. repeat split; assumption.
Qed.

Lemma join_injective segs1 segs2 :
  segs1 <> [] -> segs2 <> [] ->
  Forall (fun p => Str.contains "/" p = false) segs1 ->
  Forall (fun p => Str.contains "/" p = false) segs2 ->
  Str.join "/" segs1 = Str.join "/" segs2 -> segs1 = segs2.
Proof.
  intros H1 H2 F1 F2 E.
  rewrite <- (split_join segs1 H1 F1), <- (split_join segs2 H2 F2), E. reflexivity.
Qed.

Section Walk.
Variable items : list GitHubItem.
Hypothesis Hord : ordinarySegments items = true.

Lemma walk_NoDup : NoDup (map path (descendants (buildTree items))).
Proof.
  rewrite <- locatedBelow_descendants, map_map. apply NoDup_map_inj_on.
  - apply (NoDup_of_map fst).
    pose proof (located_NoDup _ (buildTree_keysUnique items)) as H.
    rewrite located_unfold in H. cbn [map] in H. apply NoDup_cons in H as [_ H]. exact H.
  - intros [s1 n1] [s2 n2] H1 H2 E. cbn [snd] in E.
    destruct (walk_info items Hord _ _ H1) as (i1 & _ & _ & P1 & N1 & A1 & E1 & _).
    destruct (walk_info items Hord _ _ H2) as (i2 & _ & _ & P2 & N2 & A2 & E2 & _).
    assert (s1 = s2) as <-.
    { apply join_injective; try assumption.
      - exact (isPrefix_Forall _ _ _ P1 (partsOf_no_slash i1)).
      - exact (isPrefix_Forall _ _ _ P2 (partsOf_no_slash i2)).
      - congruence. }
    congruence.
Qed.

Lemma walk_paths p :
  In p (map path (descendants (buildTree items)))
  <-> exists item segs,
        In item items /\ segs <> [] /\ isPrefix segs (partsOf item) = true
        /\ p = Str.join "/" segs.
Proof.
  rewrite <- locatedBelow_descendants, map_map, in_map_iff. split.
  - intros ([segs n] & <- & Hin). cbn [snd].
    destruct (walk_info items Hord _ _ Hin) as (item & _ & Hitem & Hpre & Hne & _ & Hp & _).
    exists item, segs. auto.
  - intros (item & segs & Hitem & Hne & Hpre & ->).
    destruct (walk_exists items Hord item segs Hitem Hne Hpre) as (first & n & _ & Hin & _).
    exists (segs, n). split; [|exact Hin]. cbn [snd].
    destruct (walk_info items Hord _ _ Hin) as (_ & _ & _ & _ & _ & _ & Hp & _). exact Hp.
Qed.

Lemma walk_interior n :
  In n (descendants (buildTree items)) ->
  (forall item, In item items -> item_path item <> path n) ->
  type n = tree /\ sha n = EmptyString /\ url n = EmptyString.
Proof.
  rewrite <- locatedBelow_descendants. intros Hn Hnot.
  apply in_map_iff in Hn as ([segs n'] & E & Hin). cbn [snd] in E. subst n'.
  destruct (walk_info items Hord _ _ Hin)
    as (item & _ & Hitem & Hpre & Hne & _ & Hp & Ht & Hs & Hu).
  destruct (Nat.eqb_spec (length segs) (length (partsOf item))) as [Hlen|Hlen].
  - exfalso. apply (Hnot item Hitem).
    rewrite Hp, (isPrefix_same_length _ _ Hpre Hlen). symmetry. apply join_partsOf.
  - auto.
Qed.

Lemma walk_records :
  NoDup (map item_path items) -> parentsFirst items = true ->
  forall item, In item items ->
    exists n,
      In n (descendants (buildTree items))
      /\ path n = item_path item /\ type n = item_type item
      /\ sha n = item_sha item /\ url n = item_url item.
Proof.
  rewrite <- locatedBelow_descendants. intros Hnd Hpf item Hitem.
  destruct (walk_exists items Hord item (partsOf item) Hitem (partsOf_nonempty item)
              (isPrefix_refl _)) as (first & n & Hfirst & Hin & _).
  destruct (walk_info items Hord _ _ Hin)
    as (first' & Hc & Hf & Hpre & _ & _ & Hp & Ht & Hs & Hu).
  assert (first' = first) as -> by congruence.
  pose proof (creator_parentsFirst items Hpf item first Hitem Hfirst) as Hlen.
  assert (first = item) as ->.
  { apply (NoDup_same item_path items _ _ Hnd Hf Hitem).
    rewrite <- (join_partsOf first), <- (join_partsOf item).
    rewrite (isPrefix_same_length _ _ Hpre (eq_sym Hlen)). reflexivity. }
  rewrite Nat.eqb_refl in Ht, Hs, Hu. rewrite join_partsOf in Hp.
  exists n. split; [|auto]. apply in_map_iff. exists (partsOf item, n). auto.
Qed.
End Walk.

(** C1, amended. When no part of a path is the name of a property of
    [Object.prototype], the walk below the root of [buildTree items] has
    pairwise distinct paths, and these are exactly the paths of the records
    and their proper prefixes (the slash-joined non-empty initial runs of
    their parts); a node whose path is not the path of a record is a tree
    node with empty sha and url; and when, in addition, no two records share
    a path and no record comes after a record whose path runs through its
    own, every record has a node with its path, kind, sha and url. *)
Theorem buildTree_walk items :
  ordinarySegments items = true ->
  NoDup (map path (descendants (buildTree items)))
  /\ (forall p,
        In p (map path (descendants (buildTree items)))
        <-> exists item segs,
              In item items /\ segs <> [] /\ isPrefix segs (partsOf item) = true
              /\ p = Str.join "/" segs)
  /\ (forall n,
        In n (descendants (buildTree items)) ->
        (forall item, In item items -> item_path item <> path n) ->
        type n = tree /\ sha n = EmptyString /\ url n = EmptyString)
  /\ (NoDup (map item_path items) -> parentsFirst items = true ->
      forall item, In item items ->
        exists n,
          In n (descendants (buildTree items))
          /\ path n = item_path item /\ type n = item_type item
          /\ sha n = item_sha item /\ url n = item_url item).
Proof.
  intros Hord. split; [|split; [|split]].
  - exact (walk_NoDup items Hord).
  - exact (walk_paths items Hord).
  - exact (walk_interior items Hord).
  - exact (walk_records items Hord).
Qed.

Lemma buildTree_walk_witness :
  let items := [dir "src"; file "src/a.ts"; file "src/lib/b.ts"; file "README.md"] in
  NoDup (map path (descendants (buildTree items)))
  /\ exists n,
       In n (descendants (buildTree items))
       /\ path n = "src/lib/b.ts" /\ type n = blob
       /\ sha n = "sha:src/lib/b.ts"
       /\ url n = "https://api.github.com/blobs/src/lib/b.ts".
Proof.
  intros items.
  destruct (buildTree_walk items eq_refl) as (Hnd & _ & _ & Hrec).
  split; [exact Hnd|].
  apply (Hrec ltac:(apply (bool_decide_unpack _); vm_compute; exact I) eq_refl
           (file "src/lib/b.ts")).
  right. right. left. reflexivity.
Defined.

(** ** PathTreeBuilder: further facts *)

(** A part that names a property of [Object.prototype] creates no node: the
    walk of [buildTree] steps onto the inherited value instead. *)
Example buildTree_inherited_name :
  children (buildTree [file "constructor"]) = []
  /\ map fst (children (buildTree [file "lib/toString/x.js"; file "a.txt"]))
     = ["lib"; "a.txt"]
  /\ nodeAt ["lib"; "toString"] (buildTree [file "lib/toString/x.js"]) = None.
Proof. repeat split. Qed.

Lemma fold_addItem_fields items :
  forall st, fields (fst (fold_left addItem items st)) = fields (fst st).
Proof.
  induction items as [|item items IH]; intros st; [reflexivity|].
  cbn [fold_left]. rewrite IH. unfold addItem. cbn [fst]. apply descend_fields.
Qed.

Lemma buildTree_root items : fields (buildTree items) = fields rootNode.
Proof. unfold buildTree. apply fold_addItem_fields. Qed.

Lemma join_empty segs :
  Str.join "/" segs = EmptyString -> segs = [] \/ segs = [EmptyString].
Proof.
  destruct segs as [|p [|q rest]]; [auto | simpl; intros ->; auto |].
  rewrite join_cons_cons. destruct p; discriminate.
Qed.

(** X3. The reachability invariant of section 3: every non-empty initial run of
    the parts of a record leads from the root to a node, named by the last
    part of the run, whose path is the slash-joined run, and whose other
    fields come from the first record whose path runs through it. *)
Theorem reachability_invariant items :
  ordinarySegments items = true ->
  forall item segs,
    In item items -> segs <> [] -> isPrefix segs (partsOf item) = true ->
    exists n first,
      nodeAt segs (buildTree items) = Some n
      /\ creator segs items = Some first
      /\ name n = default EmptyString (last segs)
      /\ path n = Str.join "/" segs
      /\ (type n, sha n, url n)
         = if (length segs =? length (partsOf first))%nat
           then (item_type first, item_sha first, item_url first)
           else (tree, EmptyString, EmptyString).
Proof.
  intros Hord item segs Hin Hne Hpre.
  destruct (walk_exists items Hord item segs Hin Hne Hpre) as (first & n & Hc & Hloc & Hf).
  apply (walk_node items Hord) in Hloc as [_ (first' & Hc' & Hat & _)].
  destruct (creator_Some _ _ _ Hc) as [_ Hpre'].
  rewrite (createdFields_eq _ _ Hne Hpre') in Hf. unfold fields in Hf.
  injection Hf as Hn Hp Ht Hs Hu.
  exists n, first. repeat split; try assumption.
  rewrite Ht, Hs, Hu. destruct (length segs =? length (partsOf first))%nat; reflexivity.
Qed.

Lemma reachability_invariant_witness :
  exists n first,
    nodeAt ["a"; "c"] (buildTree [file "a/b.txt"; file "a/c/d.txt"; file "e.txt"]) = Some n
    /\ creator ["a"; "c"] [file "a/b.txt"; file "a/c/d.txt"; file "e.txt"] = Some first
    /\ name n = "c" /\ path n = "a/c"
    /\ (type n, sha n, url n) = (tree, EmptyString, EmptyString).
Proof.
  destruct (reachability_invariant [file "a/b.txt"; file "a/c/d.txt"; file "e.txt"]
              eq_refl (file "a/c/d.txt") ["a"; "c"])
    as (n & first & Hat & Hc & Hn & Hp & Hf).
  - right. left. reflexivity.
  - discriminate.
  - reflexivity.
  - exists n, first. repeat split; try assumption.
    vm_compute in Hc. injection Hc as <-. exact Hf.
Defined.

(** X4. The trees that [buildTree] produces have pairwise distinct node paths,
    the root included, unless a path begins with an empty part (the empty
    path, or a path that starts with a slash). *)
Theorem buildTree_paths_distinct items :
  ordinarySegments items = true ->
  (forall item, In item items -> hd_error (partsOf item) <> Some EmptyString) ->
  NoDup (map path (nodes (buildTree items))).
Proof.
  intros Hord Hhd.
  pose proof (walk_NoDup items Hord) as Hnd.
  pose proof (walk_paths items Hord) as Hpaths.
  assert (Hroot : path (buildTree items) = EmptyString).
  { pose proof (buildTree_root items) as H. unfold fields in H. simpl in H. congruence. }
  unfold descendants in Hnd, Hpaths.
  destruct (buildTree items) as [nm p ty sh ur cs]. cbn [children] in Hnd, Hpaths.
  cbn [path] in Hroot. subst p. cbn [nodes map path]. apply NoDup_cons. split; [|exact Hnd].
  rewrite list_elem_of_In. intros Hin.
  apply Hpaths in Hin as (item & segs & Hitem & Hne & Hpre & E).
  symmetry in E. apply join_empty in E as [->| ->]; [congruence|].
  apply (Hhd item Hitem). destruct (partsOf item) as [|x l]; [discriminate|].
  cbn [isPrefix] in Hpre. apply andb_true_iff in Hpre as [Hx _].
  apply String.eqb_eq in Hx. subst x. reflexivity.
Qed.

Lemma buildTree_paths_distinct_witness :
  NoDup (map path (nodes (buildTree [dir "src"; file "src/a.ts"; file "README.md"]))).
Proof.
  apply buildTree_paths_distinct.
  - reflexivity.
  - intros item [<-|[<-|[<-|[]]]]; discriminate.
Defined.

(** ** SelectionEngine: the status map *)

Lemma forallb_checked l :
  forallb (SelectionStatus_eqb checked) l = true <-> Forall (fun s => s = checked) l.
Proof.
  rewrite forallb_forall, List.Forall_forall. split; intros H s Hs.
  - specialize (H s Hs). destruct s; [reflexivity | discriminate | discriminate].
  - rewrite (H s Hs). reflexivity.
Qed.

Lemma aggregate_checked l :
  aggregate l = checked <-> Forall (fun s => s = checked) l.
Proof.
  rewrite <- forallb_checked. unfold aggregate.
  destruct (forallb (SelectionStatus_eqb checked) l); [tauto|].
  destruct (forallb (SelectionStatus_eqb unchecked) l); split; discriminate.
Qed.

Lemma forallb_unchecked l :
  forallb (SelectionStatus_eqb unchecked) l = true <-> Forall (fun s => s = unchecked) l.
Proof.
  rewrite forallb_forall, List.Forall_forall. split; intros H s Hs.
  - specialize (H s Hs). destruct s; [discriminate | reflexivity | discriminate].
  - rewrite (H s Hs). reflexivity.
Qed.

Lemma aggregate_unchecked l :
  l <> [] -> (aggregate l = unchecked <-> Forall (fun s => s = unchecked) l).
Proof.
  intros Hne. unfold aggregate.
  destruct (forallb (SelectionStatus_eqb checked) l) eqn:Hc.
  - split; [discriminate|]. intros Hu. destruct l as [|s l]; [congruence|].
    inversion Hu; subst. simpl in Hc. discriminate.
  - destruct (forallb (SelectionStatus_eqb unchecked) l) eqn:Hu.
    + split; [|reflexivity]. intros _. apply forallb_unchecked. exact Hu.
    + split; [discriminate|]. intros H. apply forallb_unchecked in H. congruence.
Qed.

Lemma compute_tree_children sel nm p sh ur c cs m :
  compute sel (mkNode nm p tree sh ur (c :: cs)) m
  = let '(statuses, m') := computeEach sel (c :: cs) m in
    (aggregate statuses, <[p := aggregate statuses]> m').
Proof. reflexivity. Qed.

Lemma compute_status sel n :
  forall m, fst (compute sel n m) = status sel n.
Proof.
  induction n as [n IH] using TreeNode_children_ind.
  destruct n as [nm p ty sh ur cs]. simpl in IH. intros m.
  destruct ty; [reflexivity|]. destruct cs as [|c cs]; [reflexivity|].
  rewrite compute_tree_children.
  assert (Hall : forall l, Forall (fun kc => forall m, fst (compute sel (snd kc) m) = status sel (snd kc)) l ->
            forall m, fst (computeEach sel l m) = map (fun kc => status sel (snd kc)) l).
  { induction 1 as [|kc rest Hkc _ IHrest]; intros m0; simpl; [reflexivity|].
    specialize (Hkc m0). destruct (compute sel (snd kc) m0) as [s m1].
    specialize (IHrest m1). destruct (computeEach sel rest m1) as [ss m2].
    simpl in *. congruence. }
  specialize (Hall (c :: cs) IH m).
  destruct (computeEach sel (c :: cs) m) as [statuses m'].
  simpl in Hall |- *. rewrite Hall. reflexivity.
Qed.

Lemma visited_self n : In n (visited n).
Proof. destruct n as [nm p ty sh ur cs]. left. reflexivity. Qed.

Lemma nodes_self n : In n (nodes n).
Proof. destruct n as [nm p ty sh ur cs]. left. reflexivity. Qed.

Lemma leaves_blob nm p sh ur cs l :
  In l (leaves (mkNode nm p blob sh ur cs)) <-> l = mkNode nm p blob sh ur cs.
Proof. unfold leaves. simpl. split; [intros [H|[]]; congruence | intros ->; left; reflexivity]. Qed.

Lemma leaves_tree nm p sh ur cs l :
  In l (leaves (mkNode nm p tree sh ur cs))
  <-> exists kc, In kc cs /\ In l (leaves (snd kc)).
Proof.
  unfold leaves. cbn [visited List.filter isBlob type Kind_eqb].
  rewrite filter_In, in_flat_map. split.
  - intros [(kc & Hkc & Hl) Hb]. exists kc. rewrite filter_In. tauto.
  - intros (kc & Hkc & Hl). rewrite filter_In in Hl. split; [exists kc|]; tauto.
Qed.

Lemma visited_tree nm p sh ur cs d :
  In d (visited (mkNode nm p tree sh ur cs))
  <-> d = mkNode nm p tree sh ur cs \/ exists kc, In kc cs /\ In d (visited (snd kc)).
Proof.
  cbn [visited]. simpl. rewrite in_flat_map. split; intros [H|H]; auto.
Qed.

Lemma status_unchecked sel n :
  status sel n = unchecked
  <-> forall l, In l (leaves n) -> selected sel (path l) = false.
Proof.
  induction n as [n IH] using TreeNode_children_ind.
  destruct n as [nm p ty sh ur cs]. simpl in IH. destruct ty.
  - simpl. split.
    + intros H l Hl. apply leaves_blob in Hl. subst l. simpl.
      destruct (selected sel p); [discriminate | reflexivity].
    + intros H. specialize (H _ (proj2 (leaves_blob nm p sh ur cs _) eq_refl)).
      simpl in H. rewrite H. reflexivity.
  - destruct cs as [|c cs].
    + simpl. split; [|reflexivity]. intros _ l [].
    + change (status sel (mkNode nm p tree sh ur (c :: cs)))
        with (aggregate (map (fun kc => status sel (snd kc)) (c :: cs))).
      rewrite aggregate_unchecked by discriminate.
      rewrite List.Forall_map, List.Forall_forall. split.
      * intros H l Hl. apply leaves_tree in Hl. destruct Hl as (kc & Hkc & Hl).
        rewrite List.Forall_forall in IH. apply (IH kc Hkc); [apply H; exact Hkc | exact Hl].
      * intros H kc Hkc. rewrite List.Forall_forall in IH. apply (IH kc Hkc).
        intros l Hl. apply H. apply leaves_tree. exists kc. tauto.
Qed.

Lemma status_checked sel n :
  status sel n = checked
  <-> (forall d, In d (visited n) -> type d = tree -> children d <> [])
      /\ forall l, In l (leaves n) -> selected sel (path l) = true.
Proof.
  induction n as [n IH] using TreeNode_children_ind.
  destruct n as [nm p ty sh ur cs]. simpl in IH. destruct ty.
  - simpl. split.
    + intros H. split.
      * intros d [<-|[]]. discriminate.
      * intros l ->%leaves_blob. simpl.
        destruct (selected sel p); [reflexivity | discriminate].
    + intros [_ H]. specialize (H _ (proj2 (leaves_blob nm p sh ur cs _) eq_refl)).
      simpl in H. rewrite H. reflexivity.
  - destruct cs as [|c cs].
    + simpl. split; [discriminate|]. intros [H _]. exfalso.
      apply (H (mkNode nm p tree sh ur [])); [left | | ]; reflexivity.
    + change (status sel (mkNode nm p tree sh ur (c :: cs)))
        with (aggregate (map (fun kc => status sel (snd kc)) (c :: cs))).
      rewrite aggregate_checked, List.Forall_map, List.Forall_forall.
      rewrite List.Forall_forall in IH. split.
      * intros H. split.
        -- intros d Hd Hty. apply visited_tree in Hd. destruct Hd as [->|(kc & Hkc & Hd)].
           ++ discriminate.
           ++ exact (proj1 (proj1 (IH kc Hkc) (H kc Hkc)) d Hd Hty).
        -- intros l Hl. apply leaves_tree in Hl. destruct Hl as (kc & Hkc & Hl).
           exact (proj2 (proj1 (IH kc Hkc) (H kc Hkc)) l Hl).
      * intros [Hd Hl] kc Hkc. apply (IH kc Hkc). split.
        -- intros d Hd' Hty. apply Hd; [|exact Hty]. apply visited_tree. right. exists kc. tauto.
        -- intros l Hl'. apply Hl. apply leaves_tree. exists kc. tauto.
Qed.

Lemma computeEach_statuses sel l :
  forall m, fst (computeEach sel l m) = map (fun kc => status sel (snd kc)) l.
Proof.
  induction l as [|kc rest IH]; intros m; simpl; [reflexivity|].
  pose proof (compute_status sel (snd kc) m) as Hkc.
  destruct (compute sel (snd kc) m) as [s m1].
  specialize (IH m1). destruct (computeEach sel rest m1) as [ss m2].
  simpl in *. congruence.
Qed.

(** The writes of [compute]: keys that are not the path of a node reached
    keep their value, and when the paths of the nodes reached are pairwise
    distinct every one of them maps to the status of its node. *)
Lemma compute_writes sel n :
  forall m,
    (forall q, ~ In q (map path (visited n)) ->
       snd (compute sel n m) !! q = m !! q)
    /\ (NoDup (map path (visited n)) ->
        forall n', In n' (visited n) ->
          snd (compute sel n m) !! path n' = Some (status sel n')).
Proof.
  induction n as [n IH] using TreeNode_children_ind.
  destruct n as [nm p ty sh ur cs]. simpl in IH.
  assert (Hleaf : forall (s : SelectionStatus) (m : gmap string SelectionStatus) node,
            path node = p -> status sel node = s ->
            (forall q, ~ In q [p] -> <[p := s]> m !! q = m !! q)
            /\ (forall n', In n' [node] -> <[p := s]> m !! path n' = Some (status sel n'))).
  { intros s m node Hp Hs. split.
    - intros q Hq. apply lookup_insert_ne. intros ->. apply Hq. left. reflexivity.
    - intros n' [<-|[]]. rewrite Hp, Hs. apply lookup_insert_eq. }
  intros m. destruct ty.
  - destruct (Hleaf (status sel (mkNode nm p blob sh ur cs)) m
                (mkNode nm p blob sh ur cs) eq_refl eq_refl) as [H1 H2].
    split; [exact H1 | intros _; exact H2].
  - destruct cs as [|c cs].
    + destruct (Hleaf unchecked m (mkNode nm p tree sh ur []) eq_refl eq_refl) as [H1 H2].
      split; [exact H1 | intros _; exact H2].
    + assert (Hall : forall l,
        Forall (fun kc => forall m,
          (forall q, ~ In q (map path (visited (snd kc))) ->
             snd (compute sel (snd kc) m) !! q = m !! q)
          /\ (NoDup (map path (visited (snd kc))) ->
              forall n', In n' (visited (snd kc)) ->
                snd (compute sel (snd kc) m) !! path n' = Some (status sel n'))) l ->
        forall m,
          (forall q, ~ In q (map path (flat_map (fun kc => visited (snd kc)) l)) ->
             snd (computeEach sel l m) !! q = m !! q)
          /\ (NoDup (map path (flat_map (fun kc => visited (snd kc)) l)) ->
              forall n', In n' (flat_map (fun kc => visited (snd kc)) l) ->
                snd (computeEach sel l m) !! path n' = Some (status sel n'))).
      { induction 1 as [|kc rest Hkc _ IHrest]; intros m0.
        - split; [reflexivity | intros _ n' []].
        - simpl. destruct (Hkc m0) as [K1 K2].
          destruct (compute sel (snd kc) m0) as [s m1]. simpl in K1, K2.
          destruct (IHrest m1) as [R1 R2].
          destruct (computeEach sel rest m1) as [ss m2]. simpl in R1, R2 |- *.
          rewrite map_app. split.
          + intros q Hq. rewrite in_app_iff in Hq.
            rewrite R1, K1; tauto.
          + intros Hnd n' Hn'. apply NoDup_app_In in Hnd as (Hk & Hr & Hd).
            apply in_app_iff in Hn' as [Hn'|Hn'].
            * rewrite R1; [apply K2; assumption|].
              apply Hd. apply in_map. exact Hn'.
            * apply R2; assumption. }
      rewrite compute_tree_children.
      pose proof (computeEach_statuses sel (c :: cs) m) as Hst.
      destruct (Hall (c :: cs) IH m) as [A1 A2].
      destruct (computeEach sel (c :: cs) m) as [statuses m'].
      cbn [fst snd] in *. subst statuses.
      change (visited (mkNode nm p tree sh ur (c :: cs)))
        with (mkNode nm p tree sh ur (c :: cs)
              :: flat_map (fun kc => visited (snd kc)) (c :: cs)).
      cbn [map path]. split.
      * intros q Hq. rewrite lookup_insert_ne; [apply A1|]; intros E; apply Hq.
        -- right. exact E.
        -- left. exact E.
      * intros Hnd n' [<-|Hn'].
        -- cbn [path]. rewrite lookup_insert_eq. reflexivity.
        -- apply NoDup_cons in Hnd as [Hp Hnd]. rewrite list_elem_of_In in Hp.
           rewrite lookup_insert_ne; [apply A2; assumption|].
           intros E. apply Hp. rewrite E. apply in_map. exact Hn'.
Qed.

(** C3, as stated, fails: beside an empty directory, a directory whose
    files are all selected is indeterminate, not checked. *)
Lemma status_not_checked_beside_empty_directory :
  let root := buildTree [dir "empty"; file "f.txt"] in
  let sel : gmap string bool := {[ "f.txt" := true ]} in
  ~ (selectionStatusMap (Some root) sel !! path root = Some checked
     <-> forall l, In l (leaves root) -> selected sel (path l) = true).
Proof.
  intros root sel [_ H].
  assert (Hall : forall l, In l (leaves root) -> selected sel (path l) = true).
  { intros l [<-|[]]. reflexivity. }
  specialize (H Hall). vm_compute in H. discriminate.
Qed.

(** C3, amended. The computation walks the tree from the root and does not
    look below a blob: the nodes reached are [visited root], and the
    descendant leaves of a node are the blobs reached from it, [leaves].
    When the paths of the nodes reached are pairwise distinct, the status
    map has an entry exactly at the paths of the nodes reached, so a node
    below a blob has none and counts for nothing, and for every node
    reached: a blob is checked when its selection boolean is true and
    unchecked otherwise; a directory without children is unchecked; a
    directory is unchecked exactly when none of its descendant leaves is
    selected, checked exactly when it has children, no directory reached at
    or below it is without children and all its descendant leaves are
    selected, and indeterminate otherwise. *)
Theorem status_map_characterisation (root : TreeNode) (sel : gmap string bool) :
  NoDup (map path (visited root)) ->
  (forall q, ~ In q (map path (visited root)) ->
     selectionStatusMap (Some root) sel !! q = None)
  /\ forall n, In n (visited root) ->
    exists st,
      selectionStatusMap (Some root) sel !! path n = Some st
      /\ match type n with
         | blob => st = if selected sel (path n) then checked else unchecked
         | tree =>
             (children n = [] -> st = unchecked)
             /\ (st = unchecked <->
                 forall l, In l (leaves n) -> selected sel (path l) = false)
             /\ (st = checked <->
                 children n <> []
                 /\ (forall d, In d (visited n) -> type d = tree -> children d <> [])
                 /\ forall l, In l (leaves n) -> selected sel (path l) = true)
             /\ (st = indeterminate <->
                 (exists l, In l (leaves n) /\ selected sel (path l) = true)
                 /\ ~ ((forall d, In d (visited n) -> type d = tree -> children d <> [])
                       /\ forall l, In l (leaves n) -> selected sel (path l) = true))
         end.
Proof.
  intros Hnd. split.
  { intros q Hq. unfold selectionStatusMap.
    rewrite (proj1 (compute_writes sel root ∅) q Hq). apply lookup_empty. }
  intros n Hn. exists (status sel n). split.
  - unfold selectionStatusMap. apply (proj2 (compute_writes sel root ∅) Hnd n Hn).
  - destruct n as [nm p ty sh ur cs]. destruct ty; [reflexivity|].
    set (n := mkNode nm p tree sh ur cs). cbn [type children].
    pose proof (status_unchecked sel n) as Hu.
    pose proof (status_checked sel n) as Hc.
    split; [intros E; simpl in E; subst cs; reflexivity|].
    split; [exact Hu|]. split.
    + rewrite Hc. split; [|tauto]. intros [Hd Hl]. split; [|tauto].
      apply (Hd n (visited_self n) eq_refl).
    + split.
      * intros Hi. split.
        -- destruct (List.Exists_dec (fun l => selected sel (path l) = true) (leaves n))
             as [He|He].
           { intros l. destruct (selected sel (path l)); [left | right]; congruence. }
           { apply List.Exists_exists in He. exact He. }
           { exfalso. assert (status sel n = unchecked); [|congruence].
             apply Hu. intros l Hl. destruct (selected sel (path l)) eqn:E; [|reflexivity].
             exfalso. apply He. apply List.Exists_exists. exists l. tauto. }
        -- intros Hall. apply Hc in Hall. congruence.
      * intros [(l & Hl & Hs) Hnot].
        destruct (status sel n) eqn:E; [| |reflexivity].
        -- exfalso. apply Hnot. apply Hc. reflexivity.
        -- exfalso. rewrite (proj1 Hu eq_refl l Hl) in Hs. discriminate.
Qed.

Lemma status_map_characterisation_witness :
  exists st,
    selectionStatusMap (Some (buildTree [file "src/a.ts"; file "src/b.ts"; file "README.md"]))
      {[ "src/a.ts" := true; "src/b.ts" := true ]} !! "src" = Some st
    /\ st = checked.
Proof.
  assert (Hnd : NoDup (map path (visited (buildTree [file "src/a.ts"; file "src/b.ts";
                                                     file "README.md"])))).
  { apply (bool_decide_unpack _). vm_compute. exact I. }
  destruct (proj2 (status_map_characterisation
                     (buildTree [file "src/a.ts"; file "src/b.ts"; file "README.md"])
                     {[ "src/a.ts" := true; "src/b.ts" := true ]} Hnd)
              (snd (hd ("", rootNode)
                      (children (buildTree [file "src/a.ts"; file "src/b.ts";
                                            file "README.md"])))))
    as (st & Hst & Hch).
  - vm_compute. right. left. reflexivity.
  - exists st. split; [exact Hst|]. vm_compute in Hst. congruence.
Defined.

(** ** Trees with distinct paths *)

Lemma visited_incl n : forall m, In m (visited n) -> In m (nodes n).
Proof.
  induction n as [n IH] using TreeNode_children_ind.
  destruct n as [nm p ty sh ur cs]. simpl in IH. intros m [<-|Hm]; [left; reflexivity|].
  right. destruct ty; [destruct Hm|]. rewrite List.Forall_forall in IH.
  apply in_flat_map in Hm as (kc & Hkc & Hm). apply in_flat_map. exists kc.
  split; [exact Hkc | exact (IH kc Hkc m Hm)].
Qed.

(** The hypothesis on the nodes that [compute] reaches follows from the one
    on all nodes. *)
Lemma visited_NoDup n :
  NoDup (map path (nodes n)) -> NoDup (map path (visited n)).
Proof.
  induction n as [n IH] using TreeNode_children_ind.
  destruct n as [nm p ty sh ur cs]. simpl in IH.
  change (nodes (mkNode nm p ty sh ur cs))
    with (mkNode nm p ty sh ur cs :: flat_map (fun kc => nodes (snd kc)) cs).
  cbn [map path]. intros H. apply NoDup_cons in H as [Hp Hnd].
  rewrite list_elem_of_In in Hp.
  destruct ty; cbn [visited map path]; [repeat constructor; set_solver|].
  apply NoDup_cons. split.
  - rewrite list_elem_of_In. intros Hin. apply Hp.
    apply in_map_iff in Hin as (m & <- & Hm). apply in_map.
    apply in_flat_map in Hm as (kc & Hkc & Hm). apply in_flat_map. exists kc.
    split; [exact Hkc | exact (visited_incl _ _ Hm)].
  - clear Hp. induction IH as [|kc rest Hkc _ IHrest]; [constructor|].
    cbn [flat_map] in Hnd |- *. rewrite map_app in Hnd |- *.
    apply NoDup_app_In in Hnd as (H1 & H2 & Hd). apply NoDup_app_In.
    split; [exact (Hkc H1)|]. split; [exact (IHrest H2)|].
    intros q Hq1 Hq2.
    apply in_map_iff in Hq1 as (m1 & <- & Hm1).
    apply in_map_iff in Hq2 as (m2 & E & Hm2).
    apply (Hd (path m1)).
    + apply in_map. exact (visited_incl _ _ Hm1).
    + rewrite <- E. apply in_map.
      apply in_flat_map in Hm2 as (kc' & Hkc' & Hm2). apply in_flat_map. exists kc'.
      split; [exact Hkc' | exact (visited_incl _ _ Hm2)].
Qed.

(** ** SelectionEngine: toggling *)

Lemma setRecursive_unfold v nm p ty sh ur cs m :
  setRecursive v (mkNode nm p ty sh ur cs) m
  = setEach v cs match ty with blob => <[p := v]> m | tree => m end.
Proof. reflexivity. Qed.

Lemma findAndSet_unfold target v nm p ty sh ur cs m :
  findAndSet target v (mkNode nm p ty sh ur cs) m
  = if String.eqb p target
    then (true, setRecursive v (mkNode nm p ty sh ur cs) m)
    else findSome target v cs m.
Proof. reflexivity. Qed.

(** [setRecursive] writes nothing but [v]. *)
Lemma setRecursive_keeps v n :
  forall (m : gmap string bool) q, m !! q = Some v -> setRecursive v n m !! q = Some v.
Proof.
  induction n as [n IH] using TreeNode_children_ind.
  destruct n as [nm p ty sh ur cs]. simpl in IH. intros m q Hq.
  rewrite setRecursive_unfold.
  assert (Hall : forall m0 : gmap string bool,
            m0 !! q = Some v -> setEach v cs m0 !! q = Some v).
  { induction IH as [|kc rest Hkc _ IHrest]; intros m0 H0; simpl; [exact H0|].
    apply IHrest, Hkc, H0. }
  apply Hall. destruct ty; [|exact Hq].
  destruct (String.eqb_spec p q) as [->|Hne].
  - apply lookup_insert_eq.
  - rewrite lookup_insert_ne; assumption.
Qed.

Lemma setEach_keeps v l :
  forall (m : gmap string bool) q, m !! q = Some v -> setEach v l m !! q = Some v.
Proof.
  induction l as [|kc rest IH]; intros m q Hq; simpl; [exact Hq|].
  apply IH, setRecursive_keeps, Hq.
Qed.

(** Every blob at or below the node is set to [v]. *)
Lemma setRecursive_sets v n :
  forall (m : gmap string bool) b,
    In b (nodes n) -> type b = blob -> setRecursive v n m !! path b = Some v.
Proof.
  induction n as [n IH] using TreeNode_children_ind.
  destruct n as [nm p ty sh ur cs]. simpl in IH. intros m b Hb Hty.
  rewrite setRecursive_unfold. destruct Hb as [<-|Hb].
  - simpl in Hty. subst ty. apply setEach_keeps. apply lookup_insert_eq.
  - generalize (match ty with blob => <[p := v]> m | tree => m end).
    induction IH as [|kc rest Hkc _ IHrest]; intros m0; simpl in Hb |- *; [destruct Hb|].
    apply in_app_iff in Hb as [Hb|Hb].
    + apply setEach_keeps. apply Hkc; assumption.
    + apply IHrest. exact Hb.
Qed.

Lemma findAndSet_absent target v n :
  forall m, ~ In target (map path (nodes n)) -> findAndSet target v n m = (false, m).
Proof.
  induction n as [n IH] using TreeNode_children_ind.
  destruct n as [nm p ty sh ur cs]. simpl in IH. intros m Hn.
  rewrite findAndSet_unfold.
  destruct (String.eqb_spec p target) as [->|Hne].
  - exfalso. apply Hn. left. reflexivity.
  - assert (Hcs : ~ In target (map path (flat_map (fun kc => nodes (snd kc)) cs))).
    { intros H. apply Hn. right. exact H. }
    clear Hn Hne. revert m.
    induction IH as [|kc rest Hkc _ IHrest]; intros m; simpl; [reflexivity|].
    simpl in Hcs. rewrite map_app, in_app_iff in Hcs.
    rewrite Hkc by tauto. apply IHrest. tauto.
Qed.

(** With pairwise distinct paths, the search reaches the node of that path. *)
Lemma findAndSet_found v root :
  NoDup (map path (nodes root)) ->
  forall d m, In d (nodes root) ->
    findAndSet (path d) v root m = (true, setRecursive v d m).
Proof.
  induction root as [n IH] using TreeNode_children_ind.
  destruct n as [nm p ty sh ur cs]. simpl in IH. intros Hnd d m Hd.
  rewrite findAndSet_unfold.
  destruct (String.eqb_spec p (path d)) as [E|Hne].
  - assert (d = mkNode nm p ty sh ur cs) as ->; [|reflexivity].
    apply (NoDup_same path _ _ _ Hnd Hd (nodes_self _)). symmetry. exact E.
  - destruct Hd as [<-|Hd]; [exfalso; apply Hne; reflexivity|].
    change (nodes (mkNode nm p ty sh ur cs))
      with (mkNode nm p ty sh ur cs :: flat_map (fun kc => nodes (snd kc)) cs) in Hnd.
    cbn [map] in Hnd. apply NoDup_cons in Hnd as [_ Hnd].
    clear Hne. revert m.
    induction IH as [|kc rest Hkc _ IHrest]; intros m; simpl in Hd |- *; [destruct Hd|].
    simpl in Hnd. rewrite map_app in Hnd. apply NoDup_app_In in Hnd as (Hk & Hr & Hdis).
    apply in_app_iff in Hd as [Hd|Hd].
    + rewrite (Hkc Hk d m Hd). reflexivity.
    + rewrite findAndSet_absent.
      * apply IHrest; assumption.
      * intros Hin. apply (Hdis _ Hin). apply in_map. exact Hd.
Qed.




(** ** The earlier copy of [handleToggle] *)

(** X5. Toggling a directory in the earlier copy: with pairwise distinct node
    paths, every blob below it is set to the negation of [allSelected]; a blob
    path is flipped. *)
Theorem handleToggleLegacy_spec (root : TreeNode) (prev : gmap string bool) :
  (forall p, handleToggleLegacy (Some root) p true prev !! p
             = Some (negb (selected prev p)))
  /\ (NoDup (map path (nodes root)) ->
      forall d b, In d (nodes root) -> In b (nodes d) -> type b = blob ->
        handleToggleLegacy (Some root) (path d) false prev !! path b
        = Some (negb (allSelected prev (path d)))).
Proof.
  split.
  - intros p. apply lookup_insert_eq.
  - intros Hnd d b Hd Hb Hty. unfold handleToggleLegacy.
    rewrite (findAndSet_found _ _ Hnd d prev Hd). apply setRecursive_sets; assumption.
Qed.

Lemma handleToggleLegacy_spec_witness :
  let root := buildTree [file "src/a.ts"; file "src/b.ts"] in
  let prev : gmap string bool := {[ "src/a.ts" := true; "src/b.ts" := true ]} in
  handleToggleLegacy (Some root) "src" false prev !! "src/b.ts" = Some false.
Proof.
  intros root prev.
  apply (proj2 (handleToggleLegacy_spec root prev)
           ltac:(apply (bool_decide_unpack _); vm_compute; exact I)
           (snd (hd ("", rootNode) (children root)))
           (mkNode "b.ts" "src/b.ts" blob "sha:src/b.ts"
              "https://api.github.com/blobs/src/b.ts" [])).
  - vm_compute. right. left. reflexivity.
  - vm_compute. right. right. left. reflexivity.
  - reflexivity.
Defined.

(** ** StructureRenderer *)

(** C4 at a failing input: the index lists the entries in the order of
    [Object.values], which for these names is the order of the records; a file
    comes before a directory and b.txt before a.txt, and permuting the records
    changes the text. [sortedChildren] orders the same entries directories
    first and then by name. *)
Theorem render_follows_insertion_order :
  let items := [file "b.txt"; file "a.txt"; file "docs/x.md"] in
  render (buildTree items)
  = "├── b.txt" +:+ newline +:+ "├── a.txt" +:+ newline
    +:+ "└── docs" +:+ newline +:+ "    └── x.md" +:+ newline
  /\ render (buildTree (rev items)) <> render (buildTree items)
  /\ map fst (sortedChildren String.compare (buildTree items))
     = ["docs"; "a.txt"; "b.txt"].
Proof.
  vm_compute. split; [reflexivity|]. split; [discriminate | reflexivity].
Qed.

(** ** [sortedChildren] of [FileTree] *)

Lemma compare_not_Gt a b c :
  String.compare a b <> Gt -> String.compare b c <> Gt -> String.compare a c <> Gt.
Proof.
  intros H1 H2 H3.
  assert (Hlt : forall x y, String.compare x y = Lt -> String_as_OT.lt x y).
  { intros x y. apply String_as_OT.cmp_lt. }
  assert (Hirr : forall x, String.compare x x <> Lt).
  { intros x E. apply Hlt in E. exact (String_as_OT.lt_not_eq _ _ E eq_refl). }
  assert (Hca : String.compare c a = Lt).
  { rewrite String.compare_antisym, H3. reflexivity. }
  destruct (String.compare a b) eqn:E1; [| |congruence];
    destruct (String.compare b c) eqn:E2; try congruence.
  - apply String.compare_eq_iff in E1, E2. subst. exact (Hirr _ Hca).
  - apply String.compare_eq_iff in E1. subst.
    apply Hlt in E2, Hca. exact (Hirr c (proj2 (String_as_OT.cmp_lt c c)
                                           (String_as_OT.lt_trans _ _ _ Hca E2))).
  - apply String.compare_eq_iff in E2. subst.
    apply Hlt in E1, Hca. exact (Hirr c (proj2 (String_as_OT.cmp_lt c c)
                                           (String_as_OT.lt_trans _ _ _ Hca E1))).
  - apply Hlt in E1, E2, Hca.
    exact (Hirr c (proj2 (String_as_OT.cmp_lt c c)
                     (String_as_OT.lt_trans _ _ _ Hca
                        (String_as_OT.lt_trans _ _ _ E1 E2)))).
Qed.

Section SortedChildrenFacts.
Variable localeCompare : string -> string -> comparison.
Hypothesis compare_total :
  forall a b, localeCompare a b = Gt -> localeCompare b a <> Gt.
Hypothesis compare_trans :
  forall a b c, localeCompare a b <> Gt -> localeCompare b c <> Gt ->
                localeCompare a c <> Gt.

Lemma compareEntries_listedBefore a b :
  compareEntries localeCompare a b <> Gt <-> listedBefore localeCompare a b.
Proof.
  unfold compareEntries, listedBefore.
  destruct (type (snd a)), (type (snd b)); cbn [Kind_eqb andb negb]; split;
    try tauto; try congruence; intros [[? ?]|[? ?]]; congruence.
Qed.

Lemma listedBefore_total a b :
  compareEntries localeCompare a b = Gt -> listedBefore localeCompare b a.
Proof.
  unfold compareEntries, listedBefore.
  destruct (type (snd a)), (type (snd b)); cbn [Kind_eqb andb negb];
    try discriminate; auto.
Qed.

Lemma listedBefore_trans a b c :
  listedBefore localeCompare a b -> listedBefore localeCompare b c ->
  listedBefore localeCompare a c.
Proof.
  unfold listedBefore. intros [[A1 A2]|[A1 A2]] [[B1 B2]|[B1 B2]].
  - congruence.
  - left. split; congruence.
  - left. split; congruence.
  - right. split; [congruence|]. eapply compare_trans; eassumption.
Qed.

Lemma insertSorted_Permutation e l :
  Permutation (insertSorted localeCompare e l) (e :: l).
Proof.
  induction l as [|x l IH]; cbn [insertSorted]; [reflexivity|].
  destruct (compareEntries localeCompare e x); try reflexivity.
  rewrite IH. apply perm_swap.
Qed.

Lemma insertSorted_sorted e l :
  StronglySorted (listedBefore localeCompare) l ->
  StronglySorted (listedBefore localeCompare) (insertSorted localeCompare e l).
Proof.
  induction 1 as [|x l Hl IH Hx]; cbn [insertSorted]; [repeat constructor|].
  assert (Hle : compareEntries localeCompare e x <> Gt ->
                StronglySorted (listedBefore localeCompare) (e :: x :: l)).
  { intros Hc. apply compareEntries_listedBefore in Hc.
    constructor; [constructor; assumption|]. constructor; [exact Hc|].
    eapply Forall_impl; [exact Hx|]. intros y Hy. exact (listedBefore_trans _ _ _ Hc Hy). }
  destruct (compareEntries localeCompare e x) eqn:E; try (apply Hle; discriminate).
  constructor; [exact IH|].
  rewrite (insertSorted_Permutation e l). constructor; [|exact Hx].
  apply listedBefore_total. exact E.
Qed.

(** X7. When [localeCompare] is a total preorder, [sortedChildren] lists the
    children of a node, each once, directories before files and the entries of
    one kind by name. *)
Theorem sortedChildren_sorted node :
  Permutation (sortedChildren localeCompare node) (children node)
  /\ StronglySorted (listedBefore localeCompare) (sortedChildren localeCompare node).
Proof.
  unfold sortedChildren. induction (children node) as [|e l [IHp IHs]]; cbn [fold_right].
  - split; constructor.
  - split.
    + rewrite insertSorted_Permutation, IHp. reflexivity.
    + apply insertSorted_sorted. exact IHs.
Qed.
End SortedChildrenFacts.

Lemma sortedChildren_sorted_witness :
  map fst (sortedChildren String.compare
             (buildTree [file "b.txt"; file "a.txt"; file "docs/x.md"]))
  = ["docs"; "a.txt"; "b.txt"]
  /\ StronglySorted (listedBefore String.compare)
       (sortedChildren String.compare
          (buildTree [file "b.txt"; file "a.txt"; file "docs/x.md"])).
Proof.
  split; [reflexivity|].
  apply (sortedChildren_sorted String.compare).
  - intros a b H. rewrite String.compare_antisym, H. discriminate.
  - exact compare_not_Gt.
Defined.

(** ** StructureRenderer: the root *)

(** X6. The structure text is the renderings of the children of the root, one
    after the other: the root itself is no line. The test is on the name, so
    a directory named root is no line either, and its entries are rendered
    without indentation. *)
Theorem render_skips_root :
  (forall p ty sh ur cs,
     render (mkNode "root" p ty sh ur cs) = renderAll cs EmptyString)
  /\ (forall items, name (buildTree items) = "root")
  /\ render (buildTree [file "root/a.txt"; file "b.txt"])
     = "└── a.txt" +:+ newline +:+ "└── b.txt" +:+ newline.
Proof.
  split; [reflexivity|]. split; [|reflexivity].
  intros items. pose proof (buildTree_root items) as H. unfold fields in H.
  simpl in H. congruence.
Qed.

(** ** ContentFetcher: classification by extension *)

Lemma extensionOf_afterLast p :
  extensionOf p = Str.toLowerCase (afterLast "." p).
Proof. unfold extensionOf. rewrite pop_split. reflexivity. Qed.

Lemma has_In table ext : has table ext = true <-> In ext table.
Proof.
  unfold has. rewrite existsb_exists. split.
  - intros (x & Hx & E). apply String.eqb_eq in E. subst. exact Hx.
  - intros H. exists ext. split; [exact H | apply String.eqb_refl].
Qed.

(** C10. A path is handled as binary exactly when the lowercased substring
    after its last '.' is one of png, jpg, jpeg, gif, webp, ico; a path
    without '.' is its own extension, so the file named png is binary; a path
    that ends in '.' has the empty extension and is text. *)
Theorem image_classification :
  IMAGE_EXTENSIONS = ["png"; "jpg"; "jpeg"; "gif"; "webp"; "ico"]
  /\ (forall p, isImage p = true <->
                In (Str.toLowerCase (afterLast "." p)) IMAGE_EXTENSIONS)
  /\ (forall p, Str.contains "." p = false ->
                extensionOf p = Str.toLowerCase p)
  /\ isImage "png" = true
  /\ (forall p, extensionOf (p +:+ ".") = EmptyString
                /\ isImage (p +:+ ".") = false).
Proof.
  split; [reflexivity|]. split; [|split; [|split]].
  - intros p. unfold isImage. rewrite has_In, extensionOf_afterLast. reflexivity.
  - intros p H. rewrite extensionOf_afterLast, (afterLast_no_sep _ _ H). reflexivity.
  - reflexivity.
  - intros p. unfold isImage. rewrite extensionOf_afterLast.
    change "."%string with (String "." EmptyString). rewrite afterLast_app_sep.
    split; reflexivity.
Qed.

Lemma image_classification_witness :
  extensionOf "Makefile" = "makefile" /\ isImage "assets/Logo.PNG" = true.
Proof.
  split.
  - apply (proj1 (proj2 (proj2 image_classification)) "Makefile"). reflexivity.
  - apply (proj1 (proj2 image_classification) "assets/Logo.PNG").
    vm_compute. tauto.
Defined.

(** ** ContentFetcher: failures *)

(** C5 at a failing input: the request of the second file of a window fails
    on the network; the [await] of the window throws, no record is returned,
    not even that of the first file, and [generateOutput] reports the
    failure instead of a bundle. *)
Theorem network_error_aborts_batch :
  let a := mkFileRef "a.txt" "https://h/a" in
  let b := mkFileRef "b.txt" "https://h/b" in
  let fetch := fun f => if String.eqb (file_path f) "b.txt"
                        then NetworkError "Failed to fetch"
                        else Response true "alpha" "text/plain" "data:" in
  fetchFileContents fetch id [a; b]
  = Some (Rejected "Failed to fetch", [Issued a; Issued b; Done a; Done b])
  /\ recordOf fetch a = Some (TextContent a "alpha").
Proof. split; reflexivity. Qed.

(** ** ContentFetcher: windows *)

Lemma slice_take_drop {A : Type} (i n : nat) (l : list A) :
  slice i (i + n) l = take n (drop i l).
Proof. unfold slice. replace (i + n - i)%nat with n by lia. reflexivity. Qed.

Lemma windowsFrom_concat limit files :
  (1 <= limit)%nat ->
  forall fuel i, (length files - i <= fuel)%nat ->
    concat (windowsFrom fuel limit files i) = drop i files.
Proof.
  intros Hl fuel. induction fuel as [|fuel IH]; intros i Hf; simpl.
  - destruct (Nat.leb_spec (length files) i) as [H|H]; simpl.
    + symmetry. apply drop_ge. exact H.
    + lia.
  - destruct (Nat.leb_spec (length files) i) as [H|H]; simpl.
    + symmetry. apply drop_ge. exact H.
    + rewrite IH by lia. rewrite slice_take_drop.
      rewrite <- (take_drop limit (drop i files)) at 2.
      rewrite drop_drop. reflexivity.
Qed.





Section Windows.
Variable settleOrder : list FileRef -> list FileRef.
Hypothesis settles_all : forall w, Permutation (settleOrder w) w.





Variable fetch : FileRef -> FetchOutcome.

Lemma fetchLoop_events limit files :
  (1 <= limit)%nat ->
  forall fuel i results events, (length files - i <= fuel)%nat ->
    exists result k,
      fetchLoop fetch settleOrder fuel limit files i results events
      = Some (result,
              events ++ concat (map (windowEvents settleOrder)
                                  (take k (windowsFrom fuel limit files i))))
      /\ match result with
         | Fulfilled _ => k = length (windowsFrom fuel limit files i)
         | Rejected _ => (k <= length (windowsFrom fuel limit files i))%nat
         end.
Proof.
  intros Hl fuel. induction fuel as [|fuel IH]; intros i results events Hf; simpl.
  - destruct (Nat.leb_spec (length files) i) as [H|H]; [|lia].
    exists (Fulfilled results), 0%nat. simpl. rewrite app_nil_r. split; reflexivity.
  - destruct (Nat.leb_spec (length files) i) as [H|H].
    + exists (Fulfilled results), 0%nat. simpl. rewrite app_nil_r. split; reflexivity.
    + destruct (promiseAll fetch settleOrder (slice i (i + limit) files))
        as [values|reason].
      * destruct (IH (i + limit)%nat (results ++ filterBoolean values)
                    (events ++ windowEvents settleOrder (slice i (i + limit) files)))
          as (result & k & E & Hk); [lia|].
        exists result, (S k). rewrite E. simpl. rewrite <- app_assoc.
        split; [reflexivity|]. destruct result; simpl; lia.
      * exists (Rejected reason), 1%nat. simpl. rewrite app_nil_r.
        split; [reflexivity | lia].
Qed.

End Windows.

(** The loop of [fetchFileContents] ends for every list of files. *)
Lemma fetchFileContents_returns fetch settleOrder files :
  exists result events,
    fetchFileContents fetch settleOrder files = Some (result, events).
Proof.
  unfold fetchFileContents, fetchAll.
  destruct (fetchLoop_events settleOrder fetch CONCURRENCY_LIMIT files
              ltac:(unfold CONCURRENCY_LIMIT; lia) (length files) 0%nat [] [])
    as (result & k & E & _); [lia|].
  eauto.
Qed.

(** ** ContentFetcher: responses that are not ok *)

Lemma allFulfilled_responds fetch chunk :
  Forall (fun f => responds fetch f = true) chunk ->
  allFulfilled (map (fetchOne fetch) chunk) = Some (map (recordOf fetch) chunk).
Proof.
  induction 1 as [|f chunk Hf _ IH]; [reflexivity|].
  cbn [map allFulfilled]. unfold recordOf at 1. unfold responds in Hf.
  unfold fetchOne at 1 3. destruct (fetch f) as [|ok text ty du]; [discriminate|].
  destruct (negb ok); [|destruct (isImage (file_path f))]; rewrite IH; reflexivity.
Qed.

Lemma filterBoolean_map {A B : Type} (f : A -> option B) (l : list A) :
  filterBoolean (map f l) = omap f l.
Proof.
  unfold filterBoolean. induction l as [|x l IH]; [reflexivity|].
  simpl. destruct (f x); simpl; [f_equal|]; exact IH.
Qed.

Lemma fetchLoop_responds fetch settleOrder limit files :
  (1 <= limit)%nat ->
  Forall (fun f => responds fetch f = true) files ->
  forall fuel i results events, (length files - i <= fuel)%nat ->
    exists events',
      fetchLoop fetch settleOrder fuel limit files i results events
      = Some (Fulfilled (results ++ omap (recordOf fetch) (drop i files)), events').
Proof.
  intros Hl Hall fuel. induction fuel as [|fuel IH]; intros i results events Hf;
    cbn [fetchLoop].
  - destruct (Nat.leb_spec (length files) i) as [H|H]; [|lia].
    rewrite drop_ge by exact H. rewrite app_nil_r. eauto.
  - destruct (Nat.leb_spec (length files) i) as [H|H].
    + rewrite drop_ge by exact H. rewrite app_nil_r. eauto.
    + unfold promiseAll. rewrite slice_take_drop.
      rewrite allFulfilled_responds by (apply Forall_take, Forall_drop, Hall).
      destruct (IH (i + limit)%nat
                  (results ++ filterBoolean (map (recordOf fetch) (take limit (drop i files))))
                  (events ++ windowEvents settleOrder (take limit (drop i files))))
        as [events' E]; [lia|].
      exists events'. rewrite E. rewrite filterBoolean_map, <- app_assoc, <- omap_app.
      rewrite <- drop_drop, take_drop. reflexivity.
Qed.

(** X1, the part of C5 that the code keeps: when every request of the batch gets
    a response, the result holds, in the order of the input, the records of
    exactly the files whose response is ok; a response that is not ok costs
    its own record and nothing else. *)
Theorem status_failures_are_dropped fetch settleOrder files :
  Forall (fun f => responds fetch f = true) files ->
  exists events,
    fetchFileContents fetch settleOrder files
    = Some (Fulfilled (omap (recordOf fetch) files), events)
    /\ forall f ok text ty du,
         fetch f = Response ok text ty du ->
         recordOf fetch f
         = if ok
           then Some (if isImage (file_path f) then ImageContent f du ty
                      else TextContent f text)
           else None.
Proof.
  intros Hall.
  destruct (fetchLoop_responds fetch settleOrder CONCURRENCY_LIMIT files
              ltac:(unfold CONCURRENCY_LIMIT; lia) Hall (length files) 0%nat [] [])
    as [events E]; [lia|].
  exists events. split; [exact E|].
  intros f ok text ty du Hf. unfold recordOf, fetchOne. rewrite Hf.
  destruct ok; [destruct (isImage (file_path f))|]; reflexivity.
Qed.

Lemma status_failures_are_dropped_witness :
  let a := mkFileRef "a.txt" "https://h/a" in
  let b := mkFileRef "gone.txt" "https://h/gone" in
  let c := mkFileRef "logo.png" "https://h/logo" in
  let fetch := fun f => if String.eqb (file_path f) "gone.txt"
                        then Response false "Not Found" "" ""
                        else Response true "alpha" "image/png" "data:image/png;base64,AA" in
  exists events,
    fetchFileContents fetch id [a; b; c]
    = Some (Fulfilled [TextContent a "alpha";
                       ImageContent c "data:image/png;base64,AA" "image/png"], events).
Proof.
  intros a b c fetch.
  destruct (status_failures_are_dropped fetch id [a; b; c]) as (events & E & _).
  - repeat constructor.
  - exists events. exact E.
Defined.

(** ** BundleAssembler *)

(** C7 at a failing input: the section of a text record whose text is empty
    shows the placeholder of a binary record, with [undefined] for the MIME
    type. *)
Theorem assemble_empty_text_section :
  sectionBody (TextContent (mkFileRef "pkg/__init__.py" "u") "")
  = "[Binary/Image Data: undefined]"
  /\ assemble (Some (mkRepo "o" "r")) "S"
       [TextContent (mkFileRef "pkg/__init__.py" "u") ""]
     = "REPOSITORY: o/r" +:+ newline +:+ "STRUCTURE:" +:+ newline +:+ "S"
       +:+ newline +:+ newline +:+ newline +:+ boundary +:+ newline
       +:+ "FILE: pkg/__init__.py" +:+ newline +:+ boundary +:+ newline
       +:+ newline +:+ "[Binary/Image Data: undefined]" +:+ newline.
Proof. split; reflexivity. Qed.

(** ** BundleAssembler: the format *)

Lemma fold_sections contents :
  forall start,
    fold_left (fun formatted c => formatted +:+ fileSection c) contents start
    = start +:+ String.concat EmptyString (map fileSection contents).
Proof.
  induction contents as [|c contents IH]; intros start; cbn [fold_left map].
  - simpl. rewrite str_app_nil_r. reflexivity.
  - rewrite IH, concat_cons, str_app_assoc. reflexivity.
Qed.

(** X2, the part of C7 that the code keeps: the bundle is the header line
    [REPOSITORY: owner/repo], the line [STRUCTURE:], the structure text and
    then one section per record in the order of the records; a section is
    the 80-character boundary, the line [FILE: path], the boundary again and
    the body; the body of an image record is the placeholder with its MIME
    type and the body of a text record whose text is not empty is the text. *)
Theorem assemble_format details structure contents :
  assemble details structure contents
  = ("REPOSITORY: " +:+ interpolate (owner <$> details) +:+ "/"
     +:+ interpolate (repo <$> details) +:+ newline +:+ "STRUCTURE:" +:+ newline
     +:+ structure +:+ newline +:+ newline)
    +:+ String.concat EmptyString (map fileSection contents)
  /\ (forall c,
        fileSection c
        = newline +:+ boundary +:+ newline +:+ "FILE: " +:+ file_path (content_file c)
          +:+ newline +:+ boundary +:+ newline +:+ newline +:+ sectionBody c +:+ newline)
  /\ String.length boundary = 80%nat
  /\ (forall f dataUrl mimeType,
        sectionBody (ImageContent f dataUrl mimeType)
        = "[Binary/Image Data: " +:+ mimeType +:+ "]")
  /\ (forall f c text,
        sectionBody (TextContent f (String c text)) = String c text).
Proof.
  split; [apply fold_sections|]. repeat split.
Qed.

(** ** [generateOutput] *)

Lemma traverse_nodes sel n :
  forall acc,
    traverse sel n acc
    = acc ++ map refOf (List.filter (fun m => isBlob m && selected sel (path m)) (nodes n)).
Proof.
  induction n as [n IH] using TreeNode_children_ind.
  destruct n as [nm p ty sh ur cs]. simpl in IH.
  assert (Hall : forall acc,
    traverseEach sel cs acc
    = acc ++ map refOf (List.filter (fun m => isBlob m && selected sel (path m))
                          (flat_map (fun kc => nodes (snd kc)) cs))).
  { induction IH as [|kc rest Hkc _ IHrest]; intros acc; simpl.
    - rewrite app_nil_r. reflexivity.
    - rewrite IHrest, Hkc, List.filter_app, map_app, app_assoc. reflexivity. }
  intros acc. change (traverse sel (mkNode nm p ty sh ur cs) acc)
    with (traverseEach sel cs
            match ty with
            | blob => if selected sel p
                      then acc ++ [{| file_path := p; file_url := ur |}] else acc
            | tree => acc
            end).
  rewrite Hall. cbn [nodes List.filter]. unfold isBlob at 1. cbn [type path].
  destruct ty; cbn [Kind_eqb andb].
  - destruct (selected sel p); cbn [map]; [|reflexivity].
    rewrite <- app_assoc. reflexivity.
  - reflexivity.
Qed.

(** [generateOutput] always settles. *)
Lemma generateOutput_returns fetch settleOrder s :
  exists s' events, generateOutput fetch settleOrder s = Some (s', events).
Proof.
  unfold generateOutput. destruct (treeData s) as [root|]; [|eauto].
  destruct (length (traverse (selection s) root []) =? 0)%nat; [eauto|].
  destruct (fetchFileContents_returns fetch settleOrder (traverse (selection s) root []))
    as (result & events & E).
  rewrite E. destruct result; eauto.
Qed.

(** C8. With a tree loaded and no selected blob in it, [generateOutput] ends
    with the error "No files selected", leaves [output] as it was, and no
    request has left. *)
Theorem generateOutput_empty_selection fetch settleOrder s root :
  treeData s = Some root ->
  selectedLeaves (selection s) root = [] ->
  exists s',
    generateOutput fetch settleOrder s = Some (s', [])
    /\ error s' = Some "No files selected"
    /\ output s' = output s
    /\ isGenerating s' = false.
Proof.
  intros Ht Hsel. unfold generateOutput. rewrite Ht, traverse_nodes.
  unfold selectedLeaves in Hsel. rewrite Hsel. simpl.
  eexists. split; [reflexivity|]. repeat split.
Qed.

Lemma generateOutput_empty_selection_witness :
  exists s',
    generateOutput (fun _ => NetworkError "offline") id
      (mkState (Some (buildTree [file "a.txt"; file "src/b.ts"]))
               {[ "a.txt" := false ]} None "earlier bundle" None false)
    = Some (s', [])
    /\ error s' = Some "No files selected"
    /\ output s' = "earlier bundle"
    /\ isGenerating s' = false.
Proof.
  apply (generateOutput_empty_selection (fun _ => NetworkError "offline") id
           (mkState (Some (buildTree [file "a.txt"; file "src/b.ts"]))
                    {[ "a.txt" := false ]} None "earlier bundle" None false)
           (buildTree [file "a.txt"; file "src/b.ts"])).
  - reflexivity.
  - vm_compute. reflexivity.
Defined.

(** ** The initial selection and [bulkAction] *)

Lemma In_blobs n b : In b (blobs n) <-> In b (nodes n) /\ type b = blob.
Proof.
  unfold blobs, isBlob. rewrite filter_In. split; intros [H1 H2]; split; try exact H1.
  - destruct (type b); [reflexivity | discriminate].
  - rewrite H2. reflexivity.
Qed.

Lemma blobs_unfold nm p k sh ur cs :
  blobs (mkNode nm p k sh ur cs)
  = match k with blob => [mkNode nm p k sh ur cs] | tree => [] end
    ++ flat_map (fun kc => blobs (snd kc)) cs.
Proof.
  unfold blobs. cbn [nodes List.filter isBlob type].
  assert (H : List.filter isBlob (flat_map (fun kc => nodes (snd kc)) cs)
              = flat_map (fun kc => List.filter isBlob (nodes (snd kc))) cs).
  { induction cs as [|kc cs IH]; [reflexivity|].
    cbn [flat_map]. rewrite List.filter_app, IH. reflexivity. }
  rewrite H. destruct k; reflexivity.
Qed.

Lemma bulkTraverse_unfold ty nm p k sh ur cs m :
  bulkTraverse ty (mkNode nm p k sh ur cs) m
  = bulkEach ty cs
      match k with
      | blob => <[p := bulkValue ty (mkNode nm p k sh ur cs)]> m
      | tree => m
      end.
Proof. destruct ty, k; reflexivity. Qed.

(** The writes of [bulkAction]'s traversal: a key that is not the path of a
    blob keeps its value, and the path of a blob maps to the value of a blob
    with that path. *)
Lemma bulkTraverse_writes ty n :
  forall m,
    (forall q, ~ In q (map path (blobs n)) -> bulkTraverse ty n m !! q = m !! q)
    /\ (forall q, In q (map path (blobs n)) ->
         exists b, In b (blobs n) /\ path b = q
                   /\ bulkTraverse ty n m !! q = Some (bulkValue ty b)).
Proof.
  induction n as [n IH] using TreeNode_children_ind.
  destruct n as [nm p k sh ur cs]. simpl in IH. intros m.
  rewrite bulkTraverse_unfold, blobs_unfold.
  set (self := match k with blob => [mkNode nm p k sh ur cs] | tree => [] end).
  set (m1 := match k with
             | blob => <[p := bulkValue ty (mkNode nm p k sh ur cs)]> m
             | tree => m
             end).
  assert (Hself : (forall q, ~ In q (map path self) -> m1 !! q = m !! q)
                  /\ (forall q, In q (map path self) ->
                       exists b, In b self /\ path b = q
                                 /\ m1 !! q = Some (bulkValue ty b))).
  { subst self m1. destruct k; cbn [map path In].
    - split.
      + intros q Hq. apply lookup_insert_ne. tauto.
      + intros q [<-|[]]. eexists. split; [left; reflexivity|].
        split; [reflexivity | apply lookup_insert_eq].
    - split; [reflexivity | intros q []]. }
  clearbody self m1. revert self m1 Hself.
  induction IH as [|kc rest Hkc _ IHrest]; intros self m1 [S1 S2].
  - cbn [flat_map bulkEach]. rewrite app_nil_r. split; assumption.
  - cbn [flat_map bulkEach].
    specialize (IHrest (self ++ blobs (snd kc)) (bulkTraverse ty (snd kc) m1)).
    rewrite <- app_assoc in IHrest. apply IHrest. clear IHrest.
    destruct (Hkc m1) as [K1 K2]. split.
    + intros q Hq. rewrite map_app, in_app_iff in Hq.
      rewrite K1, S1; tauto.
    + intros q Hq. rewrite map_app, in_app_iff in Hq.
      destruct (in_dec string_dec q (map path (blobs (snd kc)))) as [Hin|Hout].
      * destruct (K2 q Hin) as (b & Hb & Hp & Hl). exists b.
        split; [apply in_app_iff; right; exact Hb | tauto].
      * destruct Hq as [Hq|Hq]; [|tauto].
        destruct (S2 q Hq) as (b & Hb & Hp & Hl). exists b.
        split; [apply in_app_iff; left; exact Hb|]. split; [exact Hp|].
        rewrite K1 by exact Hout. exact Hl.
Qed.

Lemma assign_lookup k v (o : gmap string bool) p :
  assign k v o !! p
  = if String.eqb k p && negb (String.eqb p "__proto__") then Some v else o !! p.
Proof.
  unfold assign. destruct (String.eqb_spec k "__proto__") as [->|Hk].
  - destruct (String.eqb_spec "__proto__" p) as [<-|]; reflexivity.
  - destruct (String.eqb_spec k p) as [->|Hne].
    + destruct (String.eqb_spec p "__proto__"); [congruence|]. apply lookup_insert_eq.
    + apply lookup_insert_ne. exact Hne.
Qed.

Lemma initialSelection_lookup items p :
  initialSelection items !! p
  = if negb (String.eqb p "__proto__")
       && existsb (fun i => Kind_eqb (item_type i) blob && String.eqb (item_path i) p) items
    then Some (isCode p) else None.
Proof.
  unfold initialSelection.
  assert (H : forall sel : gmap string bool,
    fold_left
      (fun sel item =>
         match item_type item with
         | blob => assign (item_path item) (isCode (item_path item)) sel
         | tree => sel
         end) items sel !! p
    = if negb (String.eqb p "__proto__")
         && existsb (fun i => Kind_eqb (item_type i) blob && String.eqb (item_path i) p)
              items
      then Some (isCode p) else sel !! p).
  { induction items as [|item items IH]; intros sel.
    - cbn [fold_left existsb]. rewrite andb_false_r. reflexivity.
    - cbn [fold_left existsb]. rewrite IH.
      destruct (negb (String.eqb p "__proto__")) eqn:Hp; cbn [andb].
      + destruct (existsb _ items); [rewrite orb_true_r; reflexivity|].
        rewrite orb_false_r.
        destruct (item_type item); cbn [Kind_eqb andb]; [|reflexivity].
        rewrite assign_lookup, Hp, andb_true_r.
        destruct (String.eqb_spec (item_path item) p) as [->|]; reflexivity.
      + destruct (item_type item); [|reflexivity].
        rewrite assign_lookup, Hp, andb_false_r. reflexivity. }
  rewrite H. rewrite lookup_empty. destruct (_ && _); reflexivity.
Qed.

Lemma initialSelection_blob items item :
  In item items -> item_type item = blob -> item_path item <> "__proto__" ->
  initialSelection items !! item_path item = Some (isCode (item_path item)).
Proof.
  intros Hin Hb Hne. rewrite initialSelection_lookup.
  replace (existsb _ items) with true.
  - destruct (String.eqb_spec (item_path item) "__proto__"); [congruence | reflexivity].
  - symmetry. apply existsb_exists. exists item. split; [exact Hin|].
    rewrite Hb, String.eqb_refl. reflexivity.
Qed.

(** A record with ordinary parts is not the record of the path
    '__proto__'. *)
Lemma ordinary_path_not_proto items item :
  ordinarySegments items = true -> In item items -> item_path item <> "__proto__".
Proof.
  intros Hord Hin E. pose proof (ordinarySegments_Forall items Hord) as HF.
  rewrite List.Forall_forall in HF. specialize (HF item Hin).
  unfold partsOf in HF. rewrite E in HF. apply Forall_cons in HF as [H _].
  vm_compute in H. discriminate.
Qed.

(** A blob of the tree built from [items] comes from a blob record with its
    path. *)
Lemma blob_node_record items :
  ordinarySegments items = true ->
  forall n, In n (nodes (buildTree items)) -> type n = blob ->
    In n (descendants (buildTree items))
    /\ exists item, In item items /\ item_type item = blob
                    /\ item_path item = path n.
Proof.
  intros Hord n Hn Hty.
  assert (Hd : In n (descendants (buildTree items))).
  { pose proof (buildTree_root items) as Hr. unfold fields in Hr.
    unfold descendants. destruct (buildTree items) as [nm p k sh ur cs].
    cbn [nodes In children] in Hn |- *. destruct Hn as [<-|Hn]; [|exact Hn].
    simpl in Hr, Hty. congruence. }
  split; [exact Hd|].
  rewrite <- locatedBelow_descendants in Hd.
  apply in_map_iff in Hd as ([segs n'] & E & Hin). cbn [snd] in E. subst n'.
  destruct (walk_info items Hord _ _ Hin)
    as (item & _ & Hitem & Hpre & Hne & _ & Hp & Ht & _).
  destruct (Nat.eqb_spec (length segs) (length (partsOf item))) as [Hlen|Hlen];
    [|congruence].
  exists item. split; [exact Hitem|]. split; [congruence|].
  rewrite Hp, (isPrefix_same_length _ _ Hpre Hlen). symmetry. apply join_partsOf.
Qed.

(** X8. The initial selection of [handleFetch] has a key exactly for the
    paths of the blob records other than '__proto__', for which the
    assignment makes no key, each with the value [CODE_EXTS.has] of the
    lowercased text after the last '.' of the whole path; on the tree built
    from the same records, when no part of a path is the name of a property
    of [Object.prototype], the selected blobs are therefore the blobs whose
    path has a code extension. *)
Theorem initialSelection_spec items :
  (forall p v,
     initialSelection items !! p = Some v ->
     v = isCode p /\ p <> "__proto__"
     /\ exists item, In item items /\ item_type item = blob /\ item_path item = p)
  /\ (forall item,
        In item items -> item_type item = blob -> item_path item <> "__proto__" ->
        initialSelection items !! item_path item = Some (isCode (item_path item)))
  /\ initialSelection items !! "__proto__" = None
  /\ (ordinarySegments items = true ->
      selectedLeaves (initialSelection items) (buildTree items)
      = List.filter (fun n => isBlob n && isCode (path n)) (nodes (buildTree items))).
Proof.
  split; [|split; [|split]].
  - intros p v H. rewrite initialSelection_lookup in H.
    destruct (String.eqb_spec p "__proto__") as [|Hne]; [discriminate|]. cbn [negb andb] in H.
    destruct (existsb _ items) eqn:E; [|discriminate]. injection H as <-.
    split; [reflexivity|]. split; [exact Hne|].
    apply existsb_exists in E as (item & Hin & Hb).
    apply andb_true_iff in Hb as [Hk Hp]. apply String.eqb_eq in Hp.
    exists item. repeat split; try assumption.
    destruct (item_type item); [reflexivity | discriminate].
  - apply initialSelection_blob.
  - rewrite initialSelection_lookup. reflexivity.
  - intros Hord. unfold selectedLeaves. apply filter_ext_in. intros n Hn.
    unfold isBlob. destruct (type n) eqn:Hty; cbn [Kind_eqb andb]; [|reflexivity].
    destruct (blob_node_record items Hord n Hn Hty) as [_ (item & Hin & Hb & Hp)].
    unfold selected. rewrite <- Hp.
    rewrite (initialSelection_blob items item Hin Hb
               (ordinary_path_not_proto items item Hord Hin)).
    reflexivity.
Qed.

Lemma initialSelection_spec_witness :
  selectedLeaves (initialSelection [dir "src"; file "src/a.ts"; file "logo.png"])
    (buildTree [dir "src"; file "src/a.ts"; file "logo.png"])
  = [mkNode "a.ts" "src/a.ts" blob "sha:src/a.ts"
       "https://api.github.com/blobs/src/a.ts" []].
Proof.
  rewrite (proj2 (proj2 (proj2 (initialSelection_spec
                                  [dir "src"; file "src/a.ts"; file "logo.png"]))) eq_refl).
  reflexivity.
Defined.

Lemma selectedLeaves_const sel root (v : bool) :
  (forall b, In b (blobs root) -> selected sel (path b) = v) ->
  selectedLeaves sel root = if v then blobs root else [].
Proof.
  intros H. unfold selectedLeaves, blobs in *.
  induction (nodes root) as [|n l IH]; [destruct v; reflexivity|].
  cbn [List.filter] in *. destruct (isBlob n) eqn:Hb; cbn [andb].
  - rewrite (H n (or_introl eq_refl)). rewrite IH by (intros b Hb'; apply H; right; exact Hb').
    destruct v; reflexivity.
  - apply IH. exact H.
Qed.

Lemma bulkAction_const root ty b :
  In b (blobs root) -> ty <> bulk_code ->
  bulkAction ty (Some root) !! path b
  = Some match ty with bulk_all => true | _ => false end.
Proof.
  intros Hb Hty. cbn [bulkAction].
  destruct (proj2 (bulkTraverse_writes ty root ∅) (path b) (in_map path _ _ Hb))
    as (b' & _ & _ & Hl).
  rewrite Hl. destruct ty; [reflexivity | reflexivity | congruence].
Qed.

Lemma selectedLeaves_bulk_none root :
  selectedLeaves (bulkAction bulk_none (Some root)) root = [].
Proof.
  rewrite (selectedLeaves_const _ root false); [reflexivity|].
  intros b Hb. unfold selected.
  rewrite (bulkAction_const root bulk_none b Hb); [reflexivity | discriminate].
Qed.

(** X9. [bulkAction] builds a fresh selection whose keys are exactly the
    paths of the blobs of the tree: 'all' maps each of them to true and
    'none' to false, so that afterwards the selected blobs are all the blobs,
    respectively none; 'code' maps the path of a blob to [CODE_EXTS.has] of
    the extension of its name when blob paths are pairwise distinct. *)
Theorem bulkAction_spec (root : TreeNode) :
  (forall ty q, ~ In q (map path (blobs root)) ->
                bulkAction ty (Some root) !! q = None)
  /\ (forall b, In b (blobs root) ->
        bulkAction bulk_all (Some root) !! path b = Some true
        /\ bulkAction bulk_none (Some root) !! path b = Some false)
  /\ (NoDup (map path (blobs root)) ->
      forall b, In b (blobs root) ->
        bulkAction bulk_code (Some root) !! path b = Some (isCode (name b)))
  /\ selectedLeaves (bulkAction bulk_all (Some root)) root = blobs root
  /\ selectedLeaves (bulkAction bulk_none (Some root)) root = [].
Proof.
  split; [|split; [|split; [|split]]].
  - intros ty q Hq. cbn [bulkAction].
    rewrite (proj1 (bulkTraverse_writes ty root ∅) q Hq). apply lookup_empty.
  - intros b Hb. split;
      [apply (bulkAction_const root bulk_all b Hb) | apply (bulkAction_const root bulk_none b Hb)];
      discriminate.
  - intros Hnd b Hb. cbn [bulkAction].
    destruct (proj2 (bulkTraverse_writes bulk_code root ∅) (path b) (in_map path _ _ Hb))
      as (b' & Hb' & Hp & Hl).
    rewrite Hl. rewrite (NoDup_same path _ _ _ Hnd Hb' Hb Hp). reflexivity.
  - rewrite (selectedLeaves_const _ root true); [reflexivity|].
    intros b Hb. unfold selected.
    rewrite (bulkAction_const root bulk_all b Hb); [reflexivity | discriminate].
  - apply selectedLeaves_bulk_none.
Qed.

Lemma bulkAction_spec_witness :
  bulkAction bulk_code (Some (buildTree [file "src/a.ts"; file "LICENSE"])) !! "src/a.ts"
  = Some true.
Proof.
  apply (proj1 (proj2 (proj2 (bulkAction_spec (buildTree [file "src/a.ts"; file "LICENSE"]))))
           ltac:(apply (bool_decide_unpack _); vm_compute; exact I)
           (mkNode "a.ts" "src/a.ts" blob "sha:src/a.ts"
              "https://api.github.com/blobs/src/a.ts" [])).
  vm_compute. left. reflexivity.
Defined.

(** X10. Deselecting everything and then generating: whatever the state and
    the network, [generateOutput] after [bulkAction('none')] sends no request
    and leaves [output] as it was; with a tree loaded it ends with the error
    "No files selected". *)
Theorem generate_after_deselect fetch settleOrder s :
  exists s',
    generateOutput fetch settleOrder
      (setSelection (bulkAction bulk_none (treeData s)) s) = Some (s', [])
    /\ output s' = output s
    /\ (treeData s <> None -> error s' = Some "No files selected").
Proof.
  unfold generateOutput. cbn [treeData selection setSelection].
  destruct (treeData s) as [root|] eqn:Ht.
  - rewrite traverse_nodes.
    change (List.filter _ (nodes root))
      with (selectedLeaves (bulkAction bulk_none (Some root)) root).
    rewrite selectedLeaves_bulk_none.
    cbn. eexists. split; [reflexivity|]. split; [reflexivity|]. reflexivity.
  - eexists. split; [reflexivity|]. split; [reflexivity|]. congruence.
Qed.

(** ** The extension of a path and the extension of a name *)

Lemma contains_app c a b :
  Str.contains c (a +:+ b) = Str.contains c a || Str.contains c b.
Proof.
  induction a as [|d a IH]; [reflexivity|].
  change (String d a +:+ b) with (String d (a +:+ b)). cbn [Str.contains].
  rewrite IH. apply orb_assoc.
Qed.

Lemma afterLast_app_contains c a b :
  Str.contains c b = true -> afterLast c (a +:+ b) = afterLast c b.
Proof.
  intros Hb. induction a as [|d a IH]; [reflexivity|].
  change (String d a +:+ b) with (String d (a +:+ b)). cbn [afterLast].
  rewrite contains_app, Hb, orb_true_r. exact IH.
Qed.

Lemma afterLast_app_suffix c a b :
  Str.contains c b = false -> exists a', afterLast c (a +:+ b) = a' +:+ b.
Proof.
  intros Hb. induction a as [|d a [a' IH]].
  - exists EmptyString. apply afterLast_no_sep. exact Hb.
  - change (String d a +:+ b) with (String d (a +:+ b)). cbn [afterLast].
    destruct (Str.contains c (a +:+ b)).
    + exists a'. exact IH.
    + destruct (Ascii.eqb d c); [exists a | exists (String d a)]; reflexivity.
Qed.

Lemma join_last segs :
  segs <> [] ->
  Str.join "/" segs = default EmptyString (last segs)
  \/ exists pre, Str.join "/" segs = pre +:+ String "/" (default EmptyString (last segs)).
Proof.
  induction segs as [|p [|q rest] IH]; [congruence | left; reflexivity |].
  intros _. right. rewrite join_cons_cons.
  replace (default EmptyString (last (p :: q :: rest)))
    with (default EmptyString (last (q :: rest))) by reflexivity.
  destruct IH as [IH | [pre IH]]; [discriminate | |]; rewrite IH.
  - exists p. reflexivity.
  - exists (p +:+ String "/" pre). rewrite str_app_assoc. reflexivity.
Qed.

Lemma toLowerCase_keeps_slash s :
  Str.contains "/" s = true -> Str.contains "/" (Str.toLowerCase s) = true.
Proof.
  induction s as [|c s IH]; [discriminate|]. cbn [Str.contains Str.toLowerCase].
  intros H. apply orb_true_iff in H as [H|H]; apply orb_true_iff.
  - left. apply Ascii.eqb_eq in H. subst c. reflexivity.
  - right. exact (IH H).
Qed.

Lemma CODE_EXTS_no_slash x : has CODE_EXTS x = true -> Str.contains "/" x = false.
Proof.
  rewrite has_In. unfold CODE_EXTS. cbn [In].
  intros H. repeat (destruct H as [<-|H]; [reflexivity|]). destruct H.
Qed.

(** A node below the root of a built tree is named by the last part of the
    names that lead to it. *)
Lemma walk_name items :
  ordinarySegments items = true ->
  forall segs n,
    In (segs, n) (locatedBelow (buildTree items)) ->
    segs <> [] /\ name n = default EmptyString (last segs)
    /\ path n = Str.join "/" segs.
Proof.
  intros Hord segs n Hin.
  apply (walk_node items Hord) in Hin as [Hne (item & Hc & Hat & Hf)].
  destruct (creator_Some _ _ _ Hc) as [Hitem Hpre].
  rewrite (createdFields_eq _ _ Hne Hpre) in Hf. unfold fields in Hf.
  injection Hf as Hn Hp _ _ _. auto.
Qed.

(** The extension of a path against the extension of its last part. *)
Lemma extension_path_name p nm :
  (p = nm \/ exists pre, p = pre +:+ String "/" nm) ->
  (Str.contains "." nm = true \/ p = nm -> extensionOf p = extensionOf nm)
  /\ (Str.contains "." nm = false -> p <> nm ->
      Str.contains "/" (extensionOf p) = true
      /\ extensionOf nm = Str.toLowerCase nm).
Proof.
  intros Hp. rewrite !extensionOf_afterLast. split.
  - intros [Hdot | ->]; [|reflexivity].
    destruct Hp as [-> | [pre ->]]; [reflexivity|].
    rewrite afterLast_app_contains.
    + cbn [afterLast]. rewrite Hdot. reflexivity.
    + cbn [Str.contains]. rewrite Hdot. apply orb_true_r.
  - intros Hdot Hne. destruct Hp as [-> | [pre ->]]; [congruence|].
    rewrite (afterLast_no_sep _ nm Hdot). split; [|reflexivity].
    destruct (afterLast_app_suffix "." pre (String "/" nm)) as [a' ->].
    { cbn [Str.contains]. rewrite Hdot. reflexivity. }
    apply toLowerCase_keeps_slash.
    rewrite contains_app. cbn [Str.contains]. rewrite Ascii.eqb_refl. apply orb_true_r.
Qed.

Lemma isCode_path_name p nm :
  (p = nm \/ exists pre, p = pre +:+ String "/" nm) ->
  (Str.contains "." nm = true \/ p = nm -> isCode p = isCode nm)
  /\ (Str.contains "." nm = false -> p <> nm ->
      isCode p = false /\ isCode nm = has CODE_EXTS (Str.toLowerCase nm)).
Proof.
  intros Hp. destruct (extension_path_name p nm Hp) as [H1 H2]. unfold isCode. split.
  - intros H. rewrite (H1 H). reflexivity.
  - intros Hdot Hne. destruct (H2 Hdot Hne) as [Hs ->]. split; [|reflexivity].
    destruct (has CODE_EXTS _) eqn:E; [|reflexivity].
    apply CODE_EXTS_no_slash in E. congruence.
Qed.

(** The path of a node of a built tree ends with its name. *)
Lemma node_path_name items :
  ordinarySegments items = true ->
  forall n, In n (descendants (buildTree items)) ->
    path n = name n \/ exists pre, path n = pre +:+ String "/" (name n).
Proof.
  intros Hord n Hd. rewrite <- locatedBelow_descendants in Hd.
  apply in_map_iff in Hd as ([segs n'] & E & Hloc). cbn [snd] in E. subst n'.
  destruct (walk_name items Hord _ _ Hloc) as (Hne & -> & ->).
  apply join_last. exact Hne.
Qed.

(** X11. The two rules for "code file" on a tree built from ordinary
    records: [bulkAction('code')] decides by the extension of the node's
    name, the initial selection of [handleFetch] by the extension of the
    whole path.  They give a blob the same value when its name contains a
    '.' or the blob lies at the top level; for a nested blob whose name has
    no '.', the initial selection is false while [bulkAction('code')] looks
    the lowercased name up in [CODE_EXTS]. *)
Theorem bulk_code_vs_initialSelection items :
  ordinarySegments items = true ->
  forall n, In n (nodes (buildTree items)) -> type n = blob ->
    bulkAction bulk_code (Some (buildTree items)) !! path n = Some (isCode (name n))
    /\ initialSelection items !! path n = Some (isCode (path n))
    /\ (Str.contains "." (name n) = true \/ path n = name n ->
        isCode (path n) = isCode (name n))
    /\ (Str.contains "." (name n) = false -> path n <> name n ->
        isCode (path n) = false
        /\ isCode (name n) = has CODE_EXTS (Str.toLowerCase (name n))).
Proof.
  intros Hord n Hn Hty.
  destruct (blob_node_record items Hord n Hn Hty) as [Hd (item & Hin & Hb & Hp)].
  split; [|split].
  - cbn [bulkAction].
    assert (Hbl : In n (blobs (buildTree items))) by (apply In_blobs; auto).
    destruct (proj2 (bulkTraverse_writes bulk_code (buildTree items) ∅) (path n)
                (in_map path _ _ Hbl)) as (b & Hb' & Hpb & Hl).
    rewrite Hl. apply In_blobs in Hb' as [Hbn Hbt].
    destruct (blob_node_record items Hord b Hbn Hbt) as [Hbd _].
    rewrite (NoDup_same path _ _ _ (walk_NoDup items Hord) Hbd Hd Hpb). reflexivity.
  - rewrite <- Hp.
    apply (initialSelection_blob items item Hin Hb
             (ordinary_path_not_proto items item Hord Hin)).
  - apply isCode_path_name. apply (node_path_name items Hord n Hd).
Qed.

Lemma bulk_code_vs_initialSelection_witness :
  bulkAction bulk_code (Some (buildTree [file "cmd/go"])) !! "cmd/go" = Some true
  /\ initialSelection [file "cmd/go"] !! "cmd/go" = Some false.
Proof.
  pose proof (bulk_code_vs_initialSelection [file "cmd/go"] eq_refl
                (mkNode "go" "cmd/go" blob "sha:cmd/go"
                   "https://api.github.com/blobs/cmd/go" [])
                ltac:(vm_compute; right; right; left; reflexivity) eq_refl) as H.
  exact (conj (proj1 H) (proj1 (proj2 H))).
Defined.

(** ** What a toggle leaves alone, and toggling twice *)

(** [setRecursive] is the traversal of [bulkAction] with a constant value. *)
Lemma setRecursive_bulkTraverse v n :
  forall m, setRecursive v n m = bulkTraverse (if v then bulk_all else bulk_none) n m.
Proof.
  induction n as [n IH] using TreeNode_children_ind.
  destruct n as [nm p k sh ur cs]. simpl in IH. intros m.
  rewrite setRecursive_unfold, bulkTraverse_unfold.
  replace (bulkValue (if v then bulk_all else bulk_none) (mkNode nm p k sh ur cs))
    with v by (destruct v; reflexivity).
  generalize (match k with blob => <[p := v]> m | tree => m end).
  induction IH as [|kc rest Hkc _ IHrest]; intros m0; [reflexivity|].
  cbn [setEach bulkEach]. rewrite Hkc. apply IHrest.
Qed.

Lemma setRecursive_frame v n (m : gmap string bool) q :
  ~ In q (map path (blobs n)) -> setRecursive v n m !! q = m !! q.
Proof.
  intros Hq. rewrite setRecursive_bulkTraverse.
  apply (proj1 (bulkTraverse_writes _ n m) q Hq).
Qed.

Lemma findAndSet_frame target v n :
  forall (m : gmap string bool) q,
    (forall d, In d (nodes n) -> path d = target -> ~ In q (map path (blobs d))) ->
    snd (findAndSet target v n m) !! q = m !! q.
Proof.
  induction n as [n IH] using TreeNode_children_ind.
  destruct n as [nm p k sh ur cs]. simpl in IH. intros m q Hq.
  rewrite findAndSet_unfold.
  destruct (String.eqb_spec p target) as [E|Hne].
  - cbn [snd]. apply setRecursive_frame. apply Hq; [apply nodes_self | exact E].
  - assert (Hcs : forall d, In d (flat_map (fun kc => nodes (snd kc)) cs) ->
                    path d = target -> ~ In q (map path (blobs d))).
    { intros d Hd. apply Hq. right. exact Hd. }
    clear Hq Hne. revert m.
    induction IH as [|kc rest Hkc _ IHrest]; intros m; [reflexivity|].
    cbn [findSome]. cbn [flat_map] in Hcs.
    assert (H1 : snd (findAndSet target v (snd kc) m) !! q = m !! q).
    { apply Hkc. intros d Hd. apply Hcs. apply in_app_iff. left. exact Hd. }
    destruct (findAndSet target v (snd kc) m) as [[|] m1]; cbn [snd] in H1 |- *.
    + exact H1.
    + rewrite IHrest; [exact H1|].
      intros d Hd. apply Hcs. apply in_app_iff. right. exact Hd.
Qed.

(** X12. What [handleToggle] leaves alone.  A directory toggle, whatever the
    status map, changes no key other than the paths of the blobs at or below
    a node whose path is the one toggled, and changes nothing at all when no
    node has that path; toggling a file twice brings the truthiness of every
    entry back to what it was. *)
Theorem handleToggle_frame (root : TreeNode)
    (statusMap : gmap string SelectionStatus) (prev : gmap string bool) (p : string) :
  (forall q,
     (forall d, In d (nodes root) -> path d = p -> ~ In q (map path (blobs d))) ->
     handleToggle (Some root) statusMap p false prev !! q = prev !! q)
  /\ (~ In p (map path (nodes root)) ->
      handleToggle (Some root) statusMap p false prev = prev)
  /\ (forall statusMap' q,
        selected (handleToggle (Some root) statusMap' p true
                    (handleToggle (Some root) statusMap p true prev)) q
        = selected prev q).
Proof.
  split; [|split].
  - intros q Hq. unfold handleToggle. apply findAndSet_frame. exact Hq.
  - intros Hp. unfold handleToggle. rewrite findAndSet_absent by exact Hp. reflexivity.
  - intros sm' q. unfold handleToggle, selected.
    destruct (String.eqb_spec p q) as [->|Hne].
    + rewrite !lookup_insert_eq. cbn [default]. apply negb_involutive.
    + rewrite !lookup_insert_ne by exact Hne. reflexivity.
Qed.

Lemma handleToggle_frame_witness :
  let root := buildTree [file "src/a.ts"; file "README.md"] in
  handleToggle (Some root) ∅ "src" false {[ "README.md" := true ]} !! "README.md"
  = ({[ "README.md" := true ]} : gmap string bool) !! "README.md"
  /\ handleToggle (Some root) ∅ "lib" false {[ "README.md" := true ]}
     = {[ "README.md" := true ]}.
Proof.
  intros root. split.
  - apply (proj1 (handleToggle_frame root ∅ {[ "README.md" := true ]} "src") "README.md").
    intros d Hd Hp. vm_compute in Hd.
    destruct Hd as [<-|[<-|[<-|[<-|[]]]]]; try discriminate Hp.
    vm_compute. intros [H|[]]. discriminate H.
  - apply (proj1 (proj2 (handleToggle_frame root ∅ {[ "README.md" := true ]} "lib"))).
    vm_compute. intros [H|[H|[H|[H|[]]]]]; discriminate H.
Defined.

(** The status map has the status of every node that [compute] reaches. *)
Lemma statusMap_lookup root sel d :
  NoDup (map path (nodes root)) -> In d (visited root) ->
  selectionStatusMap (Some root) sel !! path d = Some (status sel d).
Proof.
  intros Hnd Hd. cbn [selectionStatusMap].
  apply (proj2 (compute_writes sel root ∅) (visited_NoDup root Hnd) d Hd).
Qed.

Lemma toggle_directory root sel d :
  NoDup (map path (nodes root)) -> In d (visited root) ->
  handleToggle (Some root) (selectionStatusMap (Some root) sel) (path d) false sel
  = setRecursive (match status sel d with checked => false | _ => true end) d sel.
Proof.
  intros Hnd Hd. unfold handleToggle.
  rewrite (statusMap_lookup root sel d Hnd Hd).
  rewrite (findAndSet_found _ _ Hnd d sel (visited_incl _ _ Hd)). reflexivity.
Qed.

Lemma leaves_set v d (m : gmap string bool) :
  forall l, In l (leaves d) -> selected (setRecursive v d m) (path l) = v.
Proof.
  intros l Hl. unfold leaves in Hl. apply filter_In in Hl as [Hl Hb].
  unfold selected. rewrite (setRecursive_sets v d m l (visited_incl _ _ Hl)); [reflexivity|].
  unfold isBlob in Hb. destruct (type l); [reflexivity | discriminate].
Qed.

(** X13. Toggling the same directory twice, each time with the status map
    of the selection at hand, in a tree with pairwise distinct paths; the
    directory is one that the computation of the status map reaches.  From
    checked the first toggle clears every blob below it, the directory
    becomes unchecked and the second toggle selects them all.  From another
    status the first toggle selects every blob below it; the directory is
    then checked exactly when no directory reached from it is without
    children, where the computation does not look below a blob, so that a
    directory without children below a blob does not count.  In that case
    the second toggle clears them all again, while otherwise the second
    toggle changes nothing: a directory from which a directory without
    children is reached cannot be cleared by toggling it. *)
Theorem toggle_directory_twice (root : TreeNode) (sel : gmap string bool) (d : TreeNode) :
  NoDup (map path (nodes root)) -> In d (visited root) -> type d = tree ->
  let sm := selectionStatusMap (Some root) sel in
  let sel1 := handleToggle (Some root) sm (path d) false sel in
  let sm1 := selectionStatusMap (Some root) sel1 in
  let sel2 := handleToggle (Some root) sm1 (path d) false sel1 in
  let full := forall d', In d' (visited d) -> type d' = tree -> children d' <> [] in
  (sm !! path d = Some checked ->
   sm1 !! path d = Some unchecked
   /\ forall b, In b (nodes d) -> type b = blob ->
        sel1 !! path b = Some false /\ sel2 !! path b = Some true)
  /\ (sm !! path d <> Some checked ->
      (forall b, In b (nodes d) -> type b = blob -> sel1 !! path b = Some true)
      /\ (sm1 !! path d = Some checked <-> full)
      /\ (full -> forall b, In b (nodes d) -> type b = blob -> sel2 !! path b = Some false)
      /\ (~ full -> sel2 = sel1)).
Proof.
  intros Hnd Hd Hty sm sel1 sm1 sel2 full.
  assert (Hsm : sm !! path d = Some (status sel d)) by (apply statusMap_lookup; assumption).
  assert (Hsm1 : sm1 !! path d = Some (status sel1 d)) by (apply statusMap_lookup; assumption).
  assert (H1 : sel1 = setRecursive (match status sel d with checked => false | _ => true end)
                        d sel) by (apply toggle_directory; assumption).
  assert (H2 : sel2 = setRecursive (match status sel1 d with checked => false | _ => true end)
                        d sel1) by (apply toggle_directory; assumption).
  split.
  - intros Hc. rewrite Hsm in Hc. injection Hc as Hc. rewrite Hc in H1.
    assert (Hu : status sel1 d = unchecked).
    { apply status_unchecked. intros l Hl. rewrite H1. apply leaves_set. exact Hl. }
    rewrite Hu in H2. split; [rewrite Hsm1, Hu; reflexivity|].
    intros b Hb Hbt. split.
    + rewrite H1. apply setRecursive_sets; assumption.
    + rewrite H2. apply setRecursive_sets; assumption.
  - intros Hc. rewrite Hsm in Hc.
    assert (Hv : match status sel d with checked => false | _ => true end = true).
    { destruct (status sel d); [congruence | reflexivity | reflexivity]. }
    rewrite Hv in H1.
    assert (Hfull : status sel1 d = checked <-> full).
    { rewrite status_checked. split; [tauto|]. intros Hf. split; [exact Hf|].
      intros l Hl. rewrite H1. apply leaves_set. exact Hl. }
    split; [|split; [|split]].
    + intros b Hb Hbt. rewrite H1. apply setRecursive_sets; assumption.
    + rewrite Hsm1, <- Hfull. split; congruence.
    + intros Hf b Hb Hbt. apply Hfull in Hf. rewrite Hf in H2.
      rewrite H2. apply setRecursive_sets; assumption.
    + intros Hnf.
      assert (Hv1 : match status sel1 d with checked => false | _ => true end = true).
      { destruct (status sel1 d) eqn:E; [exfalso; apply Hnf, Hfull; reflexivity | |];
          reflexivity. }
      rewrite Hv1 in H2. rewrite H2. apply map_eq. intros q.
      destruct (in_dec string_dec q (map path (blobs d))) as [Hin|Hout].
      * apply in_map_iff in Hin as (b & <- & Hb). apply In_blobs in Hb as [Hb Hbt].
        rewrite (setRecursive_sets true d sel1 b Hb Hbt).
        rewrite H1. symmetry. apply setRecursive_sets; assumption.
      * apply setRecursive_frame. exact Hout.
Qed.

Lemma toggle_directory_twice_witness :
  let root := buildTree [file "src/a.ts"; file "src/b.ts"; dir "src/empty"] in
  let sel : gmap string bool := {[ "src/a.ts" := true ]} in
  let sel1 := handleToggle (Some root) (selectionStatusMap (Some root) sel) "src" false sel in
  handleToggle (Some root) (selectionStatusMap (Some root) sel1) "src" false sel1 = sel1.
Proof.
  intros root sel sel1.
  apply (proj2 (proj2 (proj2 (proj2 (toggle_directory_twice root sel
                  (snd (hd ("", rootNode) (children root)))
                  ltac:(apply (bool_decide_unpack _); vm_compute; exact I)
                  ltac:(vm_compute; right; left; reflexivity)
                  eq_refl)
           ltac:(vm_compute; discriminate))))).
  intros Hfull.
  apply (Hfull (mkNode "empty" "src/empty" tree "sha:src/empty"
                  "https://api.github.com/trees/src/empty" [])).
  - vm_compute. right. right. right. left. reflexivity.
  - reflexivity.
  - reflexivity.
Defined.

(** ** ContentFetcher: the window in which a request fails *)

Lemma allFulfilled_fails fetch chunk :
  Exists (fun f => responds fetch f = false) chunk ->
  allFulfilled (map (fetchOne fetch) chunk) = None.
Proof.
  induction 1 as [f chunk Hf | f chunk _ IH]; cbn [map allFulfilled].
  - unfold responds in Hf. unfold fetchOne.
    destruct (fetch f); [reflexivity | discriminate].
  - destruct (fetchOne fetch f); [rewrite IH|]; reflexivity.
Qed.

Lemma firstRejection_split fetch l :
  Exists (fun f => responds fetch f = false) l ->
  exists before f after reason,
    l = before ++ f :: after
    /\ Forall (fun f => responds fetch f = true) before
    /\ fetch f = NetworkError reason
    /\ firstRejection (map (fetchOne fetch) l) = Some reason.
Proof.
  induction l as [|g l IH]; intros H; [inversion H|].
  destruct (responds fetch g) eqn:Hg.
  - assert (Hl : Exists (fun f => responds fetch f = false) l).
    { inversion H; subst; [congruence | assumption]. }
    destruct (IH Hl) as (before & f & after & reason & -> & Hb & Hf & Hr).
    exists (g :: before), f, after, reason.
    split; [reflexivity|]. split; [constructor; assumption|]. split; [exact Hf|].
    cbn [map firstRejection]. unfold responds in Hg. unfold fetchOne at 1.
    destruct (fetch g) as [|ok text ty du]; [discriminate|].
    destruct (negb ok); [|destruct (isImage (file_path g))]; exact Hr.
  - unfold responds in Hg. destruct (fetch g) as [reason|] eqn:Eg; [|discriminate].
    exists [], g, l, reason. split; [reflexivity|]. split; [constructor|].
    split; [exact Eg|]. cbn [map firstRejection]. unfold fetchOne. rewrite Eg. reflexivity.
Qed.

Lemma windows_split fetch (ws : list (list FileRef)) :
  Exists (fun f => responds fetch f = false) (concat ws) ->
  exists pre w post,
    ws = pre ++ w :: post
    /\ Forall (Forall (fun f => responds fetch f = true)) pre
    /\ Exists (fun f => responds fetch f = false) w.
Proof.
  induction ws as [|w ws IH]; intros H; [inversion H|].
  destruct (forallb (responds fetch) w) eqn:Hw.
  - cbn [concat] in H. apply Exists_app in H as [H|H].
    + exfalso. apply List.Exists_exists in H as (f & Hf & Hr).
      rewrite forallb_forall in Hw. rewrite (Hw f Hf) in Hr. discriminate.
    + destruct (IH H) as (pre & w' & post & -> & Hpre & Hw').
      exists (w :: pre), w', post. split; [reflexivity|]. split; [|exact Hw'].
      constructor; [|exact Hpre]. apply List.Forall_forall.
      rewrite forallb_forall in Hw. exact Hw.
  - exists [], w, ws. split; [reflexivity|]. split; [constructor|].
    apply List.Exists_exists.
    destruct (List.existsb (fun f => negb (responds fetch f)) w) eqn:E.
    + apply List.existsb_exists in E as (f & Hf & Hn). exists f. split; [exact Hf|].
      destruct (responds fetch f); [discriminate | reflexivity].
    + exfalso. assert (forallb (responds fetch) w = true); [|congruence].
      apply forallb_forall. intros f Hf.
      destruct (responds fetch f) eqn:Hr; [reflexivity|].
      assert (List.existsb (fun f => negb (responds fetch f)) w = true); [|congruence].
      apply List.existsb_exists. exists f. rewrite Hr. auto.
Qed.

Lemma fetchLoop_rejects fetch settleOrder limit files :
  forall fuel i results events pre w post,
    windowsFrom fuel limit files i = pre ++ w :: post ->
    Forall (Forall (fun f => responds fetch f = true)) pre ->
    Exists (fun f => responds fetch f = false) w ->
    fetchLoop fetch settleOrder fuel limit files i results events
    = Some (Rejected (default EmptyString
                        (firstRejection (map (fetchOne fetch) (settleOrder w)))),
            events ++ concat (map (windowEvents settleOrder) (pre ++ [w]))).
Proof.
  induction fuel as [|fuel IH]; intros i results events pre w post Hws Hpre Hw.
  - cbn [windowsFrom] in Hws. destruct (length files <=? i)%nat, pre; discriminate.
  - cbn [windowsFrom fetchLoop] in Hws |- *.
    destruct (length files <=? i)%nat; [destruct pre; discriminate|].
    destruct pre as [|w0 pre].
    + cbn [app] in Hws. injection Hws as Hw0 _. rewrite Hw0.
      unfold promiseAll. rewrite (allFulfilled_fails fetch w Hw).
      cbn [app map concat]. rewrite app_nil_r.
      destruct (firstRejection _); reflexivity.
    + cbn [app] in Hws. injection Hws as Hw0 Hrest. rewrite Hw0.
      apply Forall_cons in Hpre as [H0 Hpre].
      unfold promiseAll. rewrite (allFulfilled_responds fetch w0 H0).
      rewrite (IH _ _ _ pre w post Hrest Hpre Hw).
      cbn [app map concat]. rewrite <- app_assoc. reflexivity.
Qed.


(** ** ContentFetcher: the windows of a call *)



(** X14. The general form of a failing batch.  Let the windows of
    [fetchFileContents] be [pre], then [w], then [post], where every request
    of [pre] gets a response and some request of [w] fails on the network.
    Then the call rejects; the reason is the message of the first operation
    of [w] to fail in the order of settlement; the requests on the wire are
    those of [pre] and [w] and none of [post]; and the records of [pre] are
    not returned. *)
Theorem network_failure_ends_the_batch fetch settleOrder limit files pre w post :
  (forall chunk, Permutation (settleOrder chunk) chunk) ->
  windows limit files = pre ++ w :: post ->
  Forall (Forall (fun f => responds fetch f = true)) pre ->
  Exists (fun f => responds fetch f = false) w ->
  exists before f after reason,
    fetchAll fetch settleOrder limit files
    = Some (Rejected reason,
            concat (map (windowEvents settleOrder) (pre ++ [w])))
    /\ settleOrder w = before ++ f :: after
    /\ Forall (fun f => responds fetch f = true) before
    /\ fetch f = NetworkError reason
    /\ In f w.
Proof.
  intros Hperm Hws Hpre Hw.
  assert (Hs : Exists (fun f => responds fetch f = false) (settleOrder w)).
  { apply List.Exists_exists in Hw as (f & Hf & Hr). apply List.Exists_exists.
    exists f. split; [|exact Hr].
    apply (Permutation_in f (Permutation_sym (Hperm w))). exact Hf. }
  destruct (firstRejection_split fetch _ Hs) as (before & f & after & reason & E & Hb & Hf & Hr).
  exists before, f, after, reason.
  unfold fetchAll. unfold windows in Hws.
  rewrite (fetchLoop_rejects fetch settleOrder limit files _ _ _ _ pre w post Hws Hpre Hw).
  rewrite Hr. cbn [default app]. repeat split; try assumption.
  apply (Permutation_in f (Hperm w)). rewrite E. apply in_app_iff. right. left. reflexivity.
Qed.

Lemma network_failure_ends_the_batch_witness :
  let a := mkFileRef "a.ts" "u/a" in
  let b := mkFileRef "b.ts" "u/b" in
  let c := mkFileRef "c.ts" "u/c" in
  let fetch := fun f => if String.eqb (file_path f) "b.ts"
                        then NetworkError "Failed to fetch"
                        else Response true "text" "text/plain" "data:" in
  exists reason,
    fetchAll fetch id 1 [a; b; c]
    = Some (Rejected reason, [Issued a; Done a; Issued b; Done b]).
Proof.
  intros a b c fetch.
  destruct (network_failure_ends_the_batch fetch id 1 [a; b; c] [[a]] [b] [[c]]
              (fun chunk => Permutation_refl chunk) eq_refl
              ltac:(repeat constructor)
              ltac:(repeat constructor))
    as (before & f & after & reason & E & _).
  exists reason. exact E.
Defined.

(** ** [generateOutput] with a selection *)

(** X15. [generateOutput] with a tree loaded and at least one selected blob
    always settles, with [isGenerating] off and the tree and the selection
    as they were.  When every request gets a response, [output] is the
    bundle of the records of the selected blobs whose response is ok, in
    tree order, under the structure of the whole tree, and [error] is left
    as it was, so an earlier error message stays; when a request fails on
    the network, [output] is left as it was and [error] is the message of a
    failed request. *)
Theorem generateOutput_spec fetch settleOrder s root :
  (forall chunk, Permutation (settleOrder chunk) chunk) ->
  treeData s = Some root ->
  selectedLeaves (selection s) root <> [] ->
  exists s' events,
    generateOutput fetch settleOrder s = Some (s', events)
    /\ treeData s' = treeData s /\ selection s' = selection s
    /\ isGenerating s' = false
    /\ (Forall (fun f => responds fetch f = true)
          (map refOf (selectedLeaves (selection s) root)) ->
        output s'
        = assemble (activeRepoDetails s) (render root)
            (omap (recordOf fetch) (map refOf (selectedLeaves (selection s) root)))
        /\ error s' = error s)
    /\ (Exists (fun f => responds fetch f = false)
          (map refOf (selectedLeaves (selection s) root)) ->
        output s' = output s
        /\ exists f reason,
             In f (map refOf (selectedLeaves (selection s) root))
             /\ fetch f = NetworkError reason /\ error s' = Some reason).
Proof.
  intros Hperm Ht Hsel. unfold generateOutput. rewrite Ht, traverse_nodes.
  cbn [app]. fold (selectedLeaves (selection s) root).
  set (files := map refOf (selectedLeaves (selection s) root)).
  assert (Hlen : (length files =? 0)%nat = false).
  { subst files. destruct (selectedLeaves (selection s) root); [congruence | reflexivity]. }
  rewrite Hlen.
  assert (Hlim : (1 <= CONCURRENCY_LIMIT)%nat) by (unfold CONCURRENCY_LIMIT; lia).
  destruct (forallb (responds fetch) files) eqn:Hall.
  - assert (HF : Forall (fun f => responds fetch f = true) files).
    { apply List.Forall_forall. rewrite forallb_forall in Hall. exact Hall. }
    destruct (fetchLoop_responds fetch settleOrder CONCURRENCY_LIMIT files Hlim HF
                (length files) 0%nat [] []) as [events E]; [lia|].
    unfold fetchFileContents, fetchAll. rewrite E. cbn [app drop].
    eexists _, events. split; [reflexivity|].
    split; [exact Ht|]. split; [reflexivity|]. split; [reflexivity|]. split.
    + intros _. split; reflexivity.
    + intros HE. exfalso. apply List.Exists_exists in HE as (f & Hf & Hr).
      rewrite forallb_forall in Hall. rewrite (Hall f Hf) in Hr. discriminate.
  - assert (HE : Exists (fun f => responds fetch f = false) files).
    { apply List.Exists_exists.
      destruct (List.existsb (fun f => negb (responds fetch f)) files) eqn:E.
      - apply List.existsb_exists in E as (f & Hf & Hn). exists f. split; [exact Hf|].
        destruct (responds fetch f); [discriminate | reflexivity].
      - exfalso. assert (forallb (responds fetch) files = true); [|congruence].
        apply forallb_forall. intros f Hf.
        destruct (responds fetch f) eqn:Hr; [reflexivity|].
        assert (List.existsb (fun f => negb (responds fetch f)) files = true); [|congruence].
        apply List.existsb_exists. exists f. rewrite Hr. auto. }
    pose proof (windowsFrom_concat CONCURRENCY_LIMIT files Hlim (length files) 0%nat
                  ltac:(lia)) as Hcat.
    rewrite drop_0 in Hcat. fold (windows CONCURRENCY_LIMIT files) in Hcat.
    assert (HE' := HE). rewrite <- Hcat in HE'.
    destruct (windows_split fetch _ HE') as (pre & w & post & Hws & Hpre & Hw).
    assert (Hs : Exists (fun f => responds fetch f = false) (settleOrder w)).
    { apply List.Exists_exists in Hw as (f & Hf & Hr). apply List.Exists_exists.
      exists f. split; [|exact Hr].
      apply (Permutation_in f (Permutation_sym (Hperm w))). exact Hf. }
    destruct (firstRejection_split fetch _ Hs)
      as (before & f & after & reason & E & Hb & Hf & Hr).
    unfold fetchFileContents, fetchAll.
    rewrite (fetchLoop_rejects fetch settleOrder CONCURRENCY_LIMIT files _ _ _ _
               pre w post Hws Hpre Hw).
    rewrite Hr. cbn [default app].
    eexists _, _. split; [reflexivity|].
    split; [exact Ht|]. split; [reflexivity|]. split; [reflexivity|]. split.
    + intros HF. exfalso. apply List.Exists_exists in HE as (g & Hg & Hgr).
      rewrite List.Forall_forall in HF. rewrite (HF g Hg) in Hgr. discriminate.
    + intros _. split; [reflexivity|].
      exists f, reason. split; [|split; [exact Hf | reflexivity]].
      rewrite <- Hcat, Hws. apply in_concat. exists w. split.
      * apply in_app_iff. right. left. reflexivity.
      * apply (Permutation_in f (Hperm w)). rewrite E.
        apply in_app_iff. right. left. reflexivity.
Qed.

Lemma generateOutput_spec_witness :
  let root := buildTree [file "a.ts"] in
  let fetch := fun _ : FileRef => Response true "alpha" "text/plain" "data:" in
  let s := mkState (Some root) {[ "a.ts" := true ]} None "" (Some "earlier") false in
  exists s' events,
    generateOutput fetch id s = Some (s', events) /\ error s' = Some "earlier".
Proof.
  intros root fetch s.
  assert (Hsel : selectedLeaves (selection s) root <> []).
  { vm_compute. intros H. discriminate H. }
  destruct (generateOutput_spec fetch id s root
              (fun chunk => Permutation_refl chunk) eq_refl Hsel)
    as (s' & events & E & _ & _ & _ & Hok & _).
  exists s', events. split; [exact E|].
  apply Hok. vm_compute. repeat constructor.
Defined.

(** ** PathTreeBuilder: records that find their node *)

Lemma replace_same {V : Type} k (v : V) o :
  Obj.own k o = Some v -> Obj.replace k v o = o.
Proof.
  induction o as [|[k' v'] o IH]; [reflexivity|]. cbn [Obj.own Obj.replace].
  destruct (String.eqb k k'); [congruence|]. intros H. rewrite (IH H). reflexivity.
Qed.

Lemma withChildren_same n : withChildren n (children n) = n.
Proof. destruct n. reflexivity. Qed.

(** A record whose whole path is already in the tree leaves the tree as it
    is. *)
Lemma descend_existing pol item parts todo :
  forall index current n,
    nodeAt todo current = Some n ->
    descend pol item parts index todo current = current.
Proof.
  induction todo as [|part rest IH]; intros index current n H; [reflexivity|].
  cbn [nodeAt descend] in H |- *.
  destruct (Obj.own part (children current)) as [child|] eqn:E; [|discriminate].
  rewrite (IH (S index) child n H), (replace_same _ _ _ E). apply withChildren_same.
Qed.

(** X16. Records that find their node change nothing.  After records with
    ordinary path parts, a record whose path is the path of an earlier
    record, or runs along the beginning of one (the record of a directory
    that comes after a file inside it, or a repeated record), leaves the
    tree exactly as it was, whatever its type, sha and url. *)
Theorem buildTree_absorbs items extra more :
  ordinarySegments items = true ->
  (forall item, In item extra ->
     exists earlier, In earlier items
                     /\ isPrefix (partsOf item) (partsOf earlier) = true) ->
  buildTree (items ++ extra ++ more) = buildTree (items ++ more).
Proof.
  intros Hord Hex. unfold buildTree. rewrite !fold_left_app. f_equal. f_equal.
  pose proof (ordinarySegments_Forall items Hord) as HF.
  assert (Hst : fold_left addItem items (rootNode, false) = (buildTree items, false)).
  { unfold buildTree. destruct (fold_addItem_nodeAt items HF rootNode [EmptyString])
      as [Hp _]; [discriminate|].
    destruct (fold_left addItem items (rootNode, false)) as [t pol].
    cbn [snd] in Hp. subst pol. reflexivity. }
  rewrite Hst. clear Hst.
  induction extra as [|item extra IH]; [reflexivity|].
  cbn [fold_left].
  destruct (Hex item (or_introl eq_refl)) as (earlier & Hin & Hpre).
  assert (Hparts : Forall (fun s => ordinary s = true) (partsOf item)).
  { apply (isPrefix_Forall _ _ _ Hpre).
    rewrite List.Forall_forall in HF. exact (HF earlier Hin). }
  rewrite (addItem_ordinary _ _ Hparts).
  destruct (walk_exists items Hord earlier (partsOf item) Hin (partsOf_nonempty item) Hpre)
    as (first & n & _ & Hloc & _).
  apply (below_nodeAt _ _ _ (buildTree_keysUnique items)) in Hloc as [_ Hat].
  rewrite (descend_existing false item (partsOf item) (partsOf item) 0 _ n Hat).
  apply IH. intros i Hi. apply Hex. right. exact Hi.
Qed.

Lemma buildTree_absorbs_witness :
  buildTree ([file "a/b.txt"] ++ [dir "a"; file "a/b.txt"] ++ [file "c.txt"])
  = buildTree ([file "a/b.txt"] ++ [file "c.txt"]).
Proof.
  apply (buildTree_absorbs [file "a/b.txt"] [dir "a"; file "a/b.txt"] [file "c.txt"] eq_refl).
  intros item [<-|[<-|[]]]; exists (file "a/b.txt"); split;
    try (left; reflexivity); reflexivity.
Defined.

(** ** The icon of a file and the way it is fetched *)

Lemma IMAGE_EXTENSIONS_no_slash x :
  has IMAGE_EXTENSIONS x = true -> Str.contains "/" x = false.
Proof.
  rewrite has_In. unfold IMAGE_EXTENSIONS. cbn [In].
  intros H. repeat (destruct H as [<-|H]; [reflexivity|]). destruct H.
Qed.

Lemma icon_table x :
  has FileTree.IMAGE_EXTENSIONS x = has IMAGE_EXTENSIONS x || String.eqb x "svg".
Proof.
  unfold has, FileTree.IMAGE_EXTENSIONS, IMAGE_EXTENSIONS. cbn [existsb].
  rewrite !orb_false_r, !orb_assoc. reflexivity.
Qed.

(** X17. The explorer and the fetcher classify a file by two different
    rules: the icon goes by the extension of the node's name and a table
    that has 'svg', [fetchFileContents] by the extension of the whole path
    and a table without it.  On a tree built from ordinary records, every
    blob fetched as an image shows the image icon; a blob shows the image
    icon and is fetched as text exactly when the extension of its name is
    'svg', or it is nested, its name has no '.' and the lowercased name is an
    image extension. *)
Theorem icon_vs_fetch items :
  ordinarySegments items = true ->
  forall n, In n (nodes (buildTree items)) -> type n = blob ->
    (isImage (path n) = true -> FileTree.icon n = FileTree.ImageIcon)
    /\ (FileTree.icon n = FileTree.ImageIcon /\ isImage (path n) = false
        <-> extensionOf (name n) = "svg"
            \/ (Str.contains "." (name n) = false /\ path n <> name n
                /\ has IMAGE_EXTENSIONS (Str.toLowerCase (name n)) = true)).
Proof.
  intros Hord n Hn Hty.
  destruct (blob_node_record items Hord n Hn Hty) as [Hd _].
  destruct (extension_path_name (path n) (name n) (node_path_name items Hord n Hd))
    as [Hsame Hdiff].
  unfold FileTree.icon, FileTree.getFileIcon. rewrite Hty.
  rewrite icon_table. unfold isImage.
  assert (Hnested : Str.contains "." (name n) = false -> path n <> name n ->
                    has IMAGE_EXTENSIONS (extensionOf (path n)) = false
                    /\ extensionOf (name n) = Str.toLowerCase (name n)).
  { intros Hdot Hne. destruct (Hdiff Hdot Hne) as [Hs He]. split; [|exact He].
    destruct (has IMAGE_EXTENSIONS (extensionOf (path n))) eqn:E; [|reflexivity].
    apply IMAGE_EXTENSIONS_no_slash in E. congruence. }
  assert (Hcases : (Str.contains "." (name n) = true \/ path n = name n)
                   \/ (Str.contains "." (name n) = false /\ path n <> name n)).
  { destruct (Str.contains "." (name n)); [left; left; reflexivity|].
    destruct (string_dec (path n) (name n)); [left; right; assumption | right; auto]. }
  split.
  - intros Himg. destruct Hcases as [Hc | [Hdot Hne]].
    + rewrite <- (Hsame Hc), Himg. reflexivity.
    + destruct (Hnested Hdot Hne) as [Hf _]. congruence.
  - split.
    + intros [Hicon Hnot].
      destruct (String.eqb_spec (extensionOf (name n)) "svg") as [Esvg|Nsvg];
        [left; exact Esvg|].
      rewrite orb_false_r in Hicon.
      destruct (has IMAGE_EXTENSIONS (extensionOf (name n))) eqn:Hname; [|discriminate].
      right. destruct Hcases as [Hc | [Hdot Hne]].
      * rewrite (Hsame Hc) in Hnot. congruence.
      * destruct (Hnested Hdot Hne) as [_ He]. rewrite He in Hname. auto.
    + intros [Esvg | (Hdot & Hne & Hlow)].
      * rewrite Esvg. cbn [String.eqb]. rewrite orb_true_r. split; [reflexivity|].
        destruct Hcases as [Hc | [Hdot Hne]].
        -- rewrite (Hsame Hc), Esvg. reflexivity.
        -- exact (proj1 (Hnested Hdot Hne)).
      * destruct (Hnested Hdot Hne) as [Hf He]. rewrite He, Hlow. split; [reflexivity | exact Hf].
Qed.

Lemma icon_vs_fetch_witness :
  let n := mkNode "logo.svg" "img/logo.svg" blob "sha:img/logo.svg"
             "https://api.github.com/blobs/img/logo.svg" [] in
  FileTree.icon n = FileTree.ImageIcon /\ isImage (path n) = false.
Proof.
  intros n.
  apply (proj2 (icon_vs_fetch [file "img/logo.svg"] eq_refl n
                  ltac:(vm_compute; right; right; left; reflexivity) eq_refl)).
  left. reflexivity.
Defined.

(** ** [handleDownload]: the pages of the PDF *)

Lemma drawLines_placed lines :
  forall (j page : nat), (j <= 53)%nat ->
    placed page (drawLines lines (20 + 5 * Z.of_nat j))
    = imap (fun i line =>
              (page + (i + j) / 53, line, 15%Z,
               (20 + 5 * Z.of_nat ((i + j) mod 53))%Z)%nat) lines.
Proof.
  induction lines as [|line rest IH]; intros j page Hj; [reflexivity|].
  cbn [drawLines imap]. destruct (Z.ltb_spec 280 (20 + 5 * Z.of_nat j)) as [Hy|Hy].
  - assert (j = 53%nat) as -> by lia.
    cbn [app placed]. change (20 + 5)%Z with (20 + 5 * Z.of_nat 1)%Z.
    rewrite (IH 1%nat (S page)) by lia. f_equal.
    + change ((0 + 53) / 53)%nat with 1%nat. change ((0 + 53) mod 53)%nat with 0%nat.
      replace (page + 1)%nat with (S page) by lia. reflexivity.
    + apply imap_ext. intros i x _. cbn [compose].
      replace (S i + 53)%nat with (i + 1 + 1 * 53)%nat by lia.
      rewrite Nat.div_add, Nat.Div0.mod_add by lia.
      replace (S page + (i + 1) / 53)%nat with (page + ((i + 1) / 53 + 1))%nat by lia.
      reflexivity.
  - assert (Hlt : (j < 53)%nat) by lia.
    cbn [app placed]. rewrite (Nat.div_small (0 + j)), (Nat.mod_small (0 + j)) by lia.
    replace (20 + 5 * Z.of_nat j + 5)%Z with (20 + 5 * Z.of_nat (S j))%Z by lia.
    rewrite (IH (S j) page) by lia. f_equal.
    + repeat f_equal; lia.
    + apply imap_ext. intros i x _. cbn [compose].
      replace (S i + j)%nat with (i + S j)%nat by lia. reflexivity.
Qed.

(** X18. The layout of the PDF download: whatever the lines into which the
    library splits the output, line number [i] (from 0) is drawn on page
    [i / 53] at x = 15 and y = 20 + 5 * (i mod 53), so every page holds 53
    lines between y = 20 and y = 280; the other two formats save the output
    unchanged as 'text/plain' and differ in the file name only. *)
Theorem handleDownload_layout splitTextToSize output details :
  (exists ops,
     handleDownload splitTextToSize pdf output details
     = SavePdf (interpolate (repo <$> details) +:+ "-context.pdf") ops
     /\ placed 0 ops
        = imap (fun i line =>
                  ((i / 53)%nat, line, 15%Z, (20 + 5 * Z.of_nat (i mod 53))%Z))
            (splitTextToSize output)
     /\ Forall (fun t => (20 <= snd t <= 280)%Z) (placed 0 ops))
  /\ (forall f, f <> pdf ->
        handleDownload splitTextToSize f output details
        = SaveBlob (interpolate (repo <$> details) +:+ "-context." +:+ formatName f)
            "text/plain" output).
Proof.
  split.
  - eexists. split; [reflexivity|].
    assert (E : placed 0 (SetFont "courier" "normal" :: SetFontSize 10
                          :: drawLines (splitTextToSize output) 20)
                = imap (fun i line =>
                          ((i / 53)%nat, line, 15%Z, (20 + 5 * Z.of_nat (i mod 53))%Z))
                    (splitTextToSize output)).
    { cbn [placed]. change 20%Z with (20 + 5 * Z.of_nat 0)%Z at 1.
      rewrite (drawLines_placed _ 0 0) by lia.
      apply imap_ext. intros i x _. rewrite Nat.add_0_r. reflexivity. }
    split; [exact E|]. rewrite E.
    apply List.Forall_forall. intros t Ht. rewrite <- list_elem_of_In in Ht.
    apply elem_of_lookup_imap in Ht as (i & x & -> & _). cbn [snd].
    pose proof (Nat.mod_upper_bound i 53). lia.
  - intros f Hf. destruct f; [reflexivity | reflexivity | congruence].
Qed.

(** ** [parseRepoUrl] *)

Lemma stripPrefix_app p s : Re.stripPrefix p (p +:+ s) = Some s.
Proof.
  induction p as [|c p IH]; [reflexivity|].
  change (String c p +:+ s) with (String c (p +:+ s)). cbn [Re.stripPrefix].
  rewrite Ascii.eqb_refl. exact IH.
Qed.

Lemma stripPrefix_Some p : forall s s', Re.stripPrefix p s = Some s' -> s = p +:+ s'.
Proof.
  induction p as [|c p IH]; intros s s' H.
  - cbn in H. injection H as <-. reflexivity.
  - destruct s as [|d s]; [discriminate|]. cbn [Re.stripPrefix] in H.
    destruct (Ascii.eqb_spec c d) as [->|]; [|discriminate].
    rewrite (IH _ _ H). reflexivity.
Qed.

Lemma many1_reject {A : Type} cls s (k : string -> option A) :
  Re.accepts cls s = false -> Re.many1 cls s k = None.
Proof.
  destruct s as [|c s]; [reflexivity|]. intros H. cbn [Re.many1]. rewrite H. reflexivity.
Qed.

Lemma many1_Some {A : Type} cls (k : string -> option A) r :
  forall s, Re.many1 cls s k = Some r ->
    exists pre post,
      s = pre +:+ post /\ pre <> EmptyString /\ accepted cls pre post = true
      /\ k post = Some r.
Proof.
  induction s as [|c s IH]; [discriminate|]. cbn [Re.many1].
  destruct (Re.accepts cls (String c s)) eqn:Hc; [|discriminate].
  destruct (Re.many1 cls s k) as [r'|] eqn:Hm.
  - intros [= <-]. destruct (IH eq_refl) as (pre & post & -> & Hne & Hacc & Hk).
    exists (String c pre), post. split; [reflexivity|]. split; [discriminate|].
    split; [|exact Hk]. cbn [accepted].
    change (String c pre +:+ post) with (String c (pre +:+ post)). rewrite Hc. exact Hacc.
  - intros Hk. exists (String c EmptyString), s. split; [reflexivity|].
    split; [discriminate|]. split; [|exact Hk]. cbn [accepted].
    change (String c EmptyString +:+ s) with (String c s). rewrite Hc. reflexivity.
Qed.

(** The longest run is tried first. *)
Lemma many1_greedy {A : Type} cls (k : string -> option A) r pre post :
  pre <> EmptyString -> accepted cls pre post = true ->
  Re.accepts cls post = false -> k post = Some r ->
  Re.many1 cls (pre +:+ post) k = Some r.
Proof.
  intros Hne Hacc Hpost Hk. induction pre as [|c pre IH]; [congruence|].
  cbn [accepted] in Hacc. apply andb_true_iff in Hacc as [Hc Hacc].
  change (String c pre +:+ post) with (String c (pre +:+ post)) in Hc |- *.
  cbn [Re.many1]. rewrite Hc. destruct pre as [|d pre].
  - change (EmptyString +:+ post) with post. rewrite (many1_reject cls post k Hpost).
    exact Hk.
  - rewrite IH; [reflexivity | discriminate | exact Hacc].
Qed.

Lemma length_app_str pre post :
  String.length (pre +:+ post) = (String.length pre + String.length post)%nat.
Proof.
  induction pre as [|c pre IH]; [reflexivity|].
  change (String c pre +:+ post) with (String c (pre +:+ post)).
  cbn [String.length]. rewrite IH. reflexivity.
Qed.

Lemma consumed_app pre post : Re.consumed (pre +:+ post) post = pre.
Proof.
  unfold Re.consumed. rewrite length_app_str.
  replace (String.length pre + String.length post - String.length post)%nat
    with (String.length pre) by lia.
  induction pre as [|c pre IH]; [destruct post; reflexivity|].
  change (String c pre +:+ post) with (String c (pre +:+ post)).
  cbn [String.length String.substring]. rewrite IH. reflexivity.
Qed.

Lemma accepted_NotSlash pre post :
  accepted Re.NotSlash pre post = negb (Str.contains "/" pre).
Proof.
  induction pre as [|c pre IH]; [reflexivity|].
  cbn [accepted]. change (String c pre +:+ post) with (String c (pre +:+ post)).
  cbn [Re.accepts Str.contains]. rewrite IH, negb_orb. reflexivity.
Qed.

Lemma accepted_Dot pre : accepted Re.Dot pre EmptyString = dotAll pre.
Proof.
  induction pre as [|c pre IH]; [reflexivity|].
  cbn [accepted dotAll]. rewrite str_app_nil_r, IH. reflexivity.
Qed.

Lemma cleanUrl_app_slash s : cleanUrl (s +:+ "/") = s.
Proof.
  induction s as [|c s IH]; [reflexivity|].
  change (String c s +:+ "/") with (String c (s +:+ "/")). cbn [cleanUrl].
  rewrite IH. destruct s; cbn [Str.isEmpty append]; rewrite andb_false_r; reflexivity.
Qed.

Lemma cleanUrl_cases s : s = cleanUrl s \/ s = cleanUrl s +:+ "/".
Proof.
  induction s as [|c s IH]; [left; reflexivity|]. cbn [cleanUrl].
  destruct s as [|d s'].
  - cbn [Str.isEmpty cleanUrl]. rewrite andb_true_r.
    destruct (Ascii.eqb_spec c "/") as [->|Hc]; [right | left]; reflexivity.
  - cbn [Str.isEmpty]. rewrite andb_false_r.
    destruct IH as [IH|IH]; [left | right].
    + rewrite <- IH. reflexivity.
    + change (String c (cleanUrl (String d s')) +:+ "/")
        with (String c (cleanUrl (String d s') +:+ "/")).
      rewrite <- IH. reflexivity.
Qed.

Lemma cleanUrl_app a b : b <> EmptyString -> cleanUrl (a +:+ b) = a +:+ cleanUrl b.
Proof.
  intros Hb. induction a as [|c a IH]; [reflexivity|].
  change (String c a +:+ b) with (String c (a +:+ b)). cbn [cleanUrl]. rewrite IH.
  replace (Str.isEmpty (a +:+ b)) with false; [rewrite andb_false_r; reflexivity|].
  destruct a; [destruct b; [congruence|] |]; reflexivity.
Qed.

Lemma cleanUrl_no_slash s : Str.contains "/" s = false -> cleanUrl s = s.
Proof.
  induction s as [|c s IH]; [reflexivity|]. cbn [Str.contains cleanUrl].
  intros H. apply orb_false_iff in H as [Hc Hs]. rewrite Hc, (IH Hs). reflexivity.
Qed.

Lemma isSegment_spec s :
  isSegment s = true -> s <> EmptyString /\ Str.contains "/" s = false.
Proof.
  unfold isSegment. intros H. apply andb_true_iff in H as [H1 H2].
  split.
  - intros ->. discriminate.
  - destruct (Str.contains "/" s); [discriminate | reflexivity].
Qed.

Lemma many1_segment (k : string -> option Re.Captures) r seg post :
  isSegment seg = true -> Re.accepts Re.NotSlash post = false ->
  k post = Some r ->
  Re.many1 Re.NotSlash (seg +:+ post) k = Some r.
Proof.
  intros Hs Hp Hk. destruct (isSegment_spec seg Hs) as [Hne Hc].
  apply many1_greedy; try assumption.
  rewrite accepted_NotSlash, Hc. reflexivity.
Qed.

Lemma consumed_all s : Re.consumed s EmptyString = s.
Proof. rewrite <- (str_app_nil_r s) at 1. apply consumed_app. Qed.

Lemma orElse_Some {A : Type} (x : option A) (y : option A) r :
  x = Some r -> match x with Some c => Some c | None => y end = Some r.
Proof. intros ->. reflexivity. Qed.

Lemma exec_print l :
  wellFormed l = true ->
  exists m,
    Re.exec urlPattern (printUrl l) = Some m
    /\ m !! 1%nat = Some (loc_owner l) /\ m !! 2%nat = Some (loc_repo l)
    /\ m !! 4%nat = loc_ref l /\ m !! 6%nat = loc_path l.
Proof.
  destruct l as [o r rf p]. unfold wellFormed, printUrl.
  cbn [loc_owner loc_repo loc_ref loc_path].
  intros H. apply andb_true_iff in H as [H Hrest]. apply andb_true_iff in H as [Ho Hr].
  unfold Re.exec, urlPattern. cbn [Re.run].
  rewrite stripPrefix_app.
  destruct rf as [rf|]; [destruct p as [p|] | destruct p as [p|]; [discriminate|]].
  - apply andb_true_iff in Hrest as [Hrf Hp]. apply andb_true_iff in Hp as [Hne Hdot].
    eexists. split.
    + apply many1_segment; [exact Ho | reflexivity |].
      rewrite stripPrefix_app, consumed_app.
      apply many1_segment; [exact Hr | reflexivity |].
      rewrite stripPrefix_app, consumed_app.
      apply orElse_Some.
      apply many1_segment; [exact Hrf | reflexivity |].
      rewrite stripPrefix_app, !consumed_app.
      apply orElse_Some.
      rewrite <- (str_app_nil_r p) at 1.
      apply many1_greedy.
      * destruct p; [discriminate | discriminate].
      * rewrite accepted_Dot. exact Hdot.
      * reflexivity.
      * cbn [Str.isEmpty]. reflexivity.
    + rewrite !consumed_all. repeat split; reflexivity.
  - apply andb_true_iff in Hrest as [Hrf _].
    eexists. split.
    + apply many1_segment; [exact Ho | reflexivity |].
      rewrite stripPrefix_app, consumed_app.
      apply many1_segment; [exact Hr | reflexivity |].
      rewrite stripPrefix_app, consumed_app.
      apply orElse_Some.
      apply many1_segment; [exact Hrf | reflexivity |].
      cbn [Re.stripPrefix Str.isEmpty]. reflexivity.
    + rewrite !consumed_app. repeat split; reflexivity.
  - eexists. split.
    + apply many1_segment; [exact Ho | reflexivity |].
      rewrite stripPrefix_app, consumed_app.
      apply many1_segment; [exact Hr | reflexivity |].
      cbn [Re.stripPrefix Str.isEmpty]. reflexivity.
    + rewrite !consumed_app. repeat split; reflexivity.
Qed.

Lemma accepted_segment pre post :
  pre <> EmptyString -> accepted Re.NotSlash pre post = true -> isSegment pre = true.
Proof.
  intros Hne H. rewrite accepted_NotSlash in H. unfold isSegment. rewrite H.
  destruct pre; [congruence | reflexivity].
Qed.

Lemma isEmpty_true s : Str.isEmpty s = true -> s = EmptyString.
Proof. destruct s; [reflexivity | discriminate]. Qed.

Lemma exec_sound s m :
  Re.exec urlPattern s = Some m ->
  exists l,
    wellFormed l = true /\ s = printUrl l
    /\ m !! 1%nat = Some (loc_owner l) /\ m !! 2%nat = Some (loc_repo l)
    /\ m !! 4%nat = loc_ref l /\ m !! 6%nat = loc_path l.
Proof.
  unfold Re.exec, urlPattern. cbn [Re.run]. intros H.
  destruct (Re.stripPrefix "https://github.com/" s) as [s1|] eqn:E1; [|discriminate].
  apply stripPrefix_Some in E1. subst s.
  apply many1_Some in H as (o & s2 & -> & Ho & Hoa & H).
  pose proof (accepted_segment _ _ Ho Hoa) as Hoseg. clear Ho Hoa.
  destruct (Re.stripPrefix "/" s2) as [s3|] eqn:E2; [|discriminate].
  apply stripPrefix_Some in E2. subst s2. rewrite consumed_app in H.
  apply many1_Some in H as (r & s4 & -> & Hr & Hra & H).
  pose proof (accepted_segment _ _ Hr Hra) as Hrseg. clear Hr Hra.
  rewrite consumed_app in H.
  match type of H with
  | match ?X with Some c => Some c | None => _ end = _ => destruct X as [c|] eqn:E3
  end.
  - injection H as ->.
    destruct (Re.stripPrefix "/tree/" s4) as [s5|] eqn:E4; [|discriminate].
    apply stripPrefix_Some in E4. subst s4.
    apply many1_Some in E3 as (rf & s6 & -> & Hf & Hfa & H).
    pose proof (accepted_segment _ _ Hf Hfa) as Hfseg. clear Hf Hfa.
    rewrite consumed_app in H.
    match type of H with
    | match ?X with Some c => Some c | None => _ end = _ => destruct X as [c|] eqn:E5
    end.
    + injection H as ->.
      destruct (Re.stripPrefix "/" s6) as [s7|] eqn:E6; [|discriminate].
      apply stripPrefix_Some in E6. subst s6.
      apply many1_Some in E5 as (p & s8 & -> & Hp & Hpa & H).
      destruct (Str.isEmpty s8) eqn:E8; [|discriminate].
      apply isEmpty_true in E8. subst s8. injection H as <-.
      rewrite accepted_Dot in Hpa.
      exists (mkLocation o r (Some rf) (Some p)).
      unfold wellFormed, printUrl. cbn [loc_owner loc_repo loc_ref loc_path].
      rewrite Hoseg, Hrseg, Hfseg, Hpa, ?consumed_app, ?consumed_all, ?str_app_nil_r.
      split; [destruct p; [congruence | reflexivity]|].
      repeat split; reflexivity.
    + destruct (Str.isEmpty s6) eqn:E6; [|discriminate].
      apply isEmpty_true in E6. subst s6. injection H as <-.
      exists (mkLocation o r (Some rf) None).
      unfold wellFormed, printUrl. cbn [loc_owner loc_repo loc_ref loc_path].
      rewrite Hoseg, Hrseg, Hfseg, ?consumed_app, ?consumed_all, ?str_app_nil_r.
      repeat split; reflexivity.
  - destruct (Str.isEmpty s4) eqn:E4; [|discriminate].
    apply isEmpty_true in E4. subst s4. injection H as <-.
    exists (mkLocation o r None None).
    unfold wellFormed, printUrl. cbn [loc_owner loc_repo loc_ref loc_path].
    rewrite Hoseg, Hrseg, ?consumed_app, ?consumed_all, ?str_app_nil_r.
    repeat split; reflexivity.
Qed.

Lemma endsWithSlash_false s : endsWithSlash s = false <-> cleanUrl s = s.
Proof.
  unfold endsWithSlash. destruct (String.eqb_spec (cleanUrl s) s); cbn [negb];
    split; congruence.
Qed.

Lemma str_app_nonempty a b : a <> EmptyString -> a +:+ b <> EmptyString.
Proof. destruct a; [congruence | discriminate]. Qed.

(** The URL of a well-formed location ends with a slash only if its path
    does. *)
Lemma printUrl_clean l :
  wellFormed l = true ->
  (forall p, loc_path l = Some p -> endsWithSlash p = false) ->
  cleanUrl (printUrl l) = printUrl l.
Proof.
  destruct l as [o r rf p]. unfold wellFormed, printUrl.
  cbn [loc_owner loc_repo loc_ref loc_path].
  intros H Hp. apply andb_true_iff in H as [H Hrest]. apply andb_true_iff in H as [Ho Hr].
  destruct (isSegment_spec r Hr) as [Hrne Hrs].
  rewrite (cleanUrl_app "https://github.com/") by (apply str_app_nonempty, (isSegment_spec o Ho)).
  rewrite (cleanUrl_app o) by discriminate.
  rewrite (cleanUrl_app "/") by (apply str_app_nonempty, Hrne).
  destruct rf as [rf|].
  - apply andb_true_iff in Hrest as [Hrf Hpath].
    destruct (isSegment_spec rf Hrf) as [Hfne Hfs].
    rewrite (cleanUrl_app r) by discriminate.
    rewrite (cleanUrl_app "/tree/") by (apply str_app_nonempty, Hfne).
    destruct p as [p|].
    + apply andb_true_iff in Hpath as [Hpne _].
      rewrite (cleanUrl_app rf) by discriminate.
      rewrite (cleanUrl_app "/") by (destruct p; [discriminate Hpne | discriminate]).
      rewrite (proj1 (endsWithSlash_false p) (Hp p eq_refl)). reflexivity.
    + rewrite str_app_nil_r, (cleanUrl_no_slash rf Hfs). reflexivity.
  - rewrite str_app_nil_r, (cleanUrl_no_slash r Hrs). reflexivity.
Qed.

Lemma parse_of_exec url l :
  wellFormed l = true -> cleanUrl url = printUrl l -> parseRepoUrl url = inr l.
Proof.
  intros Hwf E. unfold parseRepoUrl. rewrite E.
  destruct (exec_print l Hwf) as (m & -> & H1 & H2 & H4 & H6).
  rewrite H1, H2, H4, H6. destruct l. reflexivity.
Qed.

Lemma parse_inr url l :
  parseRepoUrl url = inr l -> wellFormed l = true /\ cleanUrl url = printUrl l.
Proof.
  unfold parseRepoUrl. destruct (Re.exec urlPattern (cleanUrl url)) as [m|] eqn:E;
    [|discriminate].
  destruct (exec_sound _ _ E) as (l' & Hwf & Hs & H1 & H2 & H4 & H6).
  rewrite H1, H2, H4, H6. intros [= <-]. destruct l'. auto.
Qed.

(** X19. [parseRepoUrl] accepts exactly the URLs of well-formed locations,
    with or without one slash at the end: it returns [l] if and only if the
    input without one final slash is 'https://github.com/owner/repo',
    followed, when there is a ref, by '/tree/ref' and, when there is a path,
    by '/path', where owner, repo and ref are non-empty without '/', and the
    path is non-empty without a line terminator; a path comes with a ref
    only.  Every other input throws 'Invalid GitHub repository URL.'. *)
Theorem parseRepoUrl_spec url :
  (forall l, parseRepoUrl url = inr l
             <-> wellFormed l = true /\ cleanUrl url = printUrl l)
  /\ (forall message, parseRepoUrl url = inl message ->
        message = "Invalid GitHub repository URL.")
  /\ (url = cleanUrl url \/ url = cleanUrl url +:+ "/").
Proof.
  split; [|split].
  - intros l. split.
    + apply parse_inr.
    + intros [Hwf E]. apply parse_of_exec; assumption.
  - unfold parseRepoUrl. intros message.
    destruct (Re.exec urlPattern (cleanUrl url)); [discriminate | congruence].
  - apply cleanUrl_cases.
Qed.

(** X20. Printing and parsing: the URL of a well-formed location whose path
    does not end with a slash parses to that location, with and without a
    slash added at the end. *)
Theorem parseRepoUrl_round_trip l :
  wellFormed l = true ->
  (forall p, loc_path l = Some p -> endsWithSlash p = false) ->
  parseRepoUrl (printUrl l) = inr l
  /\ parseRepoUrl (printUrl l +:+ "/") = inr l.
Proof.
  intros Hwf Hp. split.
  - apply parse_of_exec; [exact Hwf|]. apply printUrl_clean; assumption.
  - apply parse_of_exec; [exact Hwf|]. apply cleanUrl_app_slash.
Qed.

Lemma parseRepoUrl_round_trip_witness :
  parseRepoUrl "https://github.com/rocq-prover/rocq/tree/master/theories/Init"
  = inr (mkLocation "rocq-prover" "rocq" (Some "master") (Some "theories/Init"))
  /\ parseRepoUrl "https://github.com/rocq-prover/rocq/tree/master/theories/Init/"
     = inr (mkLocation "rocq-prover" "rocq" (Some "master") (Some "theories/Init")).
Proof.
  apply (parseRepoUrl_round_trip
           (mkLocation "rocq-prover" "rocq" (Some "master") (Some "theories/Init"))
           eq_refl).
  intros p [= <-]. reflexivity.
Defined.

(** ** [handleFetch] *)

Lemma caught_state message s :
  isLoading (caught message s) = false
  /\ (exists m, error (core (caught message s)) = Some m /\ m <> EmptyString)
  /\ treeData (core (caught message s)) = treeData (core s)
  /\ output (core (caught message s)) = output (core s)
  /\ selection (core (caught message s)) = selection (core s)
  /\ isGenerating (core (caught message s)) = isGenerating (core s)
  /\ activeRepoDetails (core (caught message s)) = activeRepoDetails (core s)
  /\ expandedPaths (caught message s) = expandedPaths s
  /\ polluted (caught message s) = polluted s.
Proof.
  split; [reflexivity|]. split; [|repeat split].
  eexists. split; [reflexivity|]. destruct message; discriminate.
Qed.

Lemma prefix_app_str a b : String.prefix a (a +:+ b) = true.
Proof.
  induction a as [|c a IH]; [destruct b; reflexivity|].
  change (String c a +:+ b) with (String c (a +:+ b)). cbn [String.prefix].
  destruct (ascii_dec c c); [exact IH | congruence].
Qed.

Lemma headers_authorization token :
  Obj.own "Authorization" (getHeaders token)
  = (if Str.isEmpty token then None else Some ("token " +:+ token))
  /\ Obj.own "Authorization"
       (Obj.replace "Accept" "application/vnd.github.object+json" (getHeaders token))
     = (if Str.isEmpty token then None else Some ("token " +:+ token)).
Proof. unfold getHeaders. destruct (Str.isEmpty token); split; reflexivity. Qed.

(** The three calls return a value exactly when the request is answered by
    a response that is ok, and the value is read off its body. *)
Lemma fetchRepoInfo_cases http o r token :
  match fetchRepoInfo http o r token with
  | inr info => answersOk http (infoRequest o r token) info
  | inl _ => ~ exists body, answersOk http (infoRequest o r token) body
  end.
Proof.
  unfold fetchRepoInfo, answersOk.
  destruct (http (infoRequest o r token)) as [m|[|] st body] eqn:E.
  - intros (b & st & H). discriminate.
  - exists st. reflexivity.
  - intros (b & st' & H). discriminate.
Qed.

Lemma fetchRepoSha_cases http o r ref path token :
  match fetchRepoSha http o r ref path token with
  | inr sha => exists body, answersOk http (shaRequest o r ref path token) body
                            /\ sha = body_sha body
  | inl _ => ~ exists body, answersOk http (shaRequest o r ref path token) body
  end.
Proof.
  unfold fetchRepoSha, answersOk.
  destruct (http (shaRequest o r ref path token)) as [m|[|] st body] eqn:E.
  - intros (b & st & H). discriminate.
  - exists body. split; [exists st|]; reflexivity.
  - intros (b & st' & H). discriminate.
Qed.

Lemma fetchRepoTree_cases http o r sha token :
  match fetchRepoTree http o r sha token with
  | inr items => exists body, answersOk http (treeRequest o r sha token) body
                              /\ items = body_tree body
  | inl _ => ~ exists body, answersOk http (treeRequest o r sha token) body
  end.
Proof.
  unfold fetchRepoTree, answersOk.
  destruct (http (treeRequest o r sha token)) as [m|[|] st body] eqn:E.
  - intros (b & st & H). discriminate.
  - exists body. split; [exists st|]; reflexivity.
  - intros (b & st' & H). discriminate.
Qed.

(** X21. What [handleFetch] leaves behind.  With a non-empty URL the call
    ends with [isLoading] off and an empty [output], and in exactly one of
    two states.  Either no error is set: the URL parsed, the three requests
    were sent and each was answered by a response that is ok, the second
    asking for the branch that the URL or the first answer names and the
    third for the sha of the second answer; the tree is the one that
    [buildTree] makes of the listing in the third answer, in the page as the
    earlier fetches left [Object.prototype], so that it is [buildTree] of
    that listing when [Object.prototype.children] had not been assigned; and
    the selection and the expanded paths are those of that listing.  Or an
    error with a non-empty message is set, the tree is cleared, and the
    selection and the expanded paths are still those of the repository
    loaded before; no request was sent if and only if the URL did not parse,
    and then [activeRepoDetails] is unchanged too; otherwise the last
    request sent was not answered by a response that is ok. *)
Theorem handleFetch_outcome http repoUrl token s :
  Str.isEmpty repoUrl = false ->
  exists s' requests,
    handleFetch http repoUrl token s = (s', requests)
    /\ isLoading s' = false
    /\ output (core s') = EmptyString
    /\ isGenerating (core s') = isGenerating (core s)
    /\ ((error (core s') = None
         /\ exists details info shaBody treeBody,
              parseRepoUrl repoUrl = inr details
              /\ answersOk http
                   (infoRequest (loc_owner details) (loc_repo details) token) info
              /\ answersOk http
                   (shaRequest (loc_owner details) (loc_repo details)
                      (branchOf details info) (pathOf details) token) shaBody
              /\ answersOk http
                   (treeRequest (loc_owner details) (loc_repo details)
                      (body_sha shaBody) token) treeBody
              /\ requests
                 = [infoRequest (loc_owner details) (loc_repo details) token;
                    shaRequest (loc_owner details) (loc_repo details)
                      (branchOf details info) (pathOf details) token;
                    treeRequest (loc_owner details) (loc_repo details)
                      (body_sha shaBody) token]
              /\ treeData (core s')
                 = Some (fst (buildTreeFrom (polluted s) (body_tree treeBody)))
              /\ polluted s' = snd (buildTreeFrom (polluted s) (body_tree treeBody))
              /\ (polluted s = false ->
                  treeData (core s') = Some (buildTree (body_tree treeBody)))
              /\ selection (core s') = initialSelection (body_tree treeBody)
              /\ expandedPaths s' = initialExpanded (body_tree treeBody)
              /\ activeRepoDetails (core s') = Some (detailsOf details))
        \/ (exists message,
              error (core s') = Some message /\ message <> EmptyString
              /\ treeData (core s') = None
              /\ selection (core s') = selection (core s)
              /\ expandedPaths s' = expandedPaths s
              /\ polluted s' = polluted s
              /\ (length requests <= 3)%nat
              /\ (requests = [] <-> exists m, parseRepoUrl repoUrl = inl m)
              /\ (requests = [] ->
                  activeRepoDetails (core s') = activeRepoDetails (core s))
              /\ (forall rq, last requests = Some rq ->
                    ~ exists body, answersOk http rq body))).
Proof.
  intros Hne. unfold handleFetch. rewrite Hne.
  set (s0 := onApp (setOutput EmptyString)
               (onApp (setTreeData None) (onApp (setError None) (setIsLoading true s)))).
  assert (Hfail : forall message s1 (requests : list Request),
            treeData (core s1) = None -> output (core s1) = EmptyString ->
            selection (core s1) = selection (core s) ->
            isGenerating (core s1) = isGenerating (core s) ->
            expandedPaths s1 = expandedPaths s ->
            polluted s1 = polluted s ->
            (length requests <= 3)%nat ->
            (requests = [] <-> exists m, parseRepoUrl repoUrl = inl m) ->
            (requests = [] ->
             activeRepoDetails (core s1) = activeRepoDetails (core s)) ->
            (forall rq, last requests = Some rq ->
               ~ exists body, answersOk http rq body) ->
            let s' := caught message s1 in
            isLoading s' = false
            /\ output (core s') = EmptyString
            /\ isGenerating (core s') = isGenerating (core s)
            /\ exists m,
                 error (core s') = Some m /\ m <> EmptyString
                 /\ treeData (core s') = None
                 /\ selection (core s') = selection (core s)
                 /\ expandedPaths s' = expandedPaths s
                 /\ polluted s' = polluted s
                 /\ (length requests <= 3)%nat
                 /\ (requests = [] <-> exists m, parseRepoUrl repoUrl = inl m)
                 /\ (requests = [] ->
                     activeRepoDetails (core s') = activeRepoDetails (core s))
                 /\ (forall rq, last requests = Some rq ->
                       ~ exists body, answersOk http rq body)).
  { intros message s1 requests Ht Ho Hs Hg He Hp Hl Hr Ha Hlast s'.
    destruct (caught_state message s1)
      as (C1 & (m & C2 & C2') & C3 & C4 & C5 & C6 & C7 & C8 & C9).
    split; [exact C1|]. split; [unfold s'; congruence|]. split; [unfold s'; congruence|].
    exists m. unfold s'. split; [exact C2|]. split; [exact C2'|].
    split; [congruence|]. split; [congruence|]. split; [congruence|].
    split; [congruence|]. split; [exact Hl|]. split; [exact Hr|].
    split; [|exact Hlast]. intros E. rewrite C7. exact (Ha E). }
  destruct (parseRepoUrl repoUrl) as [message|details] eqn:Hparse.
  - eexists _, _. split; [reflexivity|].
    destruct (Hfail message s0 []) as (F1 & F2 & F3 & F4);
      try reflexivity; try (cbn; lia).
    + split; [eauto | reflexivity].
    + intros rq H. discriminate H.
    + split; [exact F1|]. split; [exact F2|]. split; [exact F3|]. right. exact F4.
  - assert (Hno : forall (x : Request) l,
              x :: l = [] <-> exists m : string, @inr string _ details = inl m).
    { intros x l. split; [discriminate | intros [m Hm]; discriminate]. }
    cbn zeta.
    set (o := loc_owner details). set (r := loc_repo details).
    set (s1 := onApp (setActiveRepoDetails (Some (detailsOf details))) s0).
    pose proof (fetchRepoInfo_cases http o r token) as H1.
    destruct (fetchRepoInfo http o r token) as [message|info].
    { eexists _, _. split; [reflexivity|].
      destruct (Hfail message s1 [infoRequest o r token]) as (F1 & F2 & F3 & F4);
        try reflexivity; try (cbn; lia); try apply Hno; try discriminate.
      - intros rq [= <-]. exact H1.
      - split; [exact F1|]. split; [exact F2|]. split; [exact F3|]. right. exact F4. }
    pose proof (fetchRepoSha_cases http o r (branchOf details info) (pathOf details) token)
      as H2.
    destruct (fetchRepoSha http o r (branchOf details info) (pathOf details) token)
      as [message|targetSha].
    { eexists _, _. split; [reflexivity|].
      destruct (Hfail message s1
                  [infoRequest o r token;
                   shaRequest o r (branchOf details info) (pathOf details) token])
        as (F1 & F2 & F3 & F4);
        try reflexivity; try (cbn; lia); try apply Hno; try discriminate.
      - intros rq [= <-]. exact H2.
      - split; [exact F1|]. split; [exact F2|]. split; [exact F3|]. right. exact F4. }
    destruct H2 as (shaBody & H2 & ->).
    pose proof (fetchRepoTree_cases http o r (body_sha shaBody) token) as H3.
    destruct (fetchRepoTree http o r (body_sha shaBody) token) as [message|items].
    { eexists _, _. split; [reflexivity|].
      destruct (Hfail message s1
                  [infoRequest o r token;
                   shaRequest o r (branchOf details info) (pathOf details) token;
                   treeRequest o r (body_sha shaBody) token])
        as (F1 & F2 & F3 & F4);
        try reflexivity; try (cbn; lia); try apply Hno; try discriminate.
      - intros rq [= <-]. exact H3.
      - split; [exact F1|]. split; [exact F2|]. split; [exact F3|]. right. exact F4. }
    destruct H3 as (treeBody & H3 & ->).
    eexists _, _. split; [reflexivity|]. split; [reflexivity|].
    split; [reflexivity|]. split; [reflexivity|].
    left. split; [reflexivity|]. exists details, info, shaBody, treeBody.
    split; [reflexivity|]. split; [exact H1|]. split; [exact H2|]. split; [exact H3|].
    split; [reflexivity|]. split; [reflexivity|]. split; [reflexivity|].
    split; [|repeat split].
    intros Hp. cbn [polluted core treeData onApp setTreeData setPolluted setIsLoading
                    setExpandedPaths] in *.
    unfold buildTree, buildTreeFrom. cbn in Hp |- *. rewrite Hp. reflexivity.
Qed.

Lemma handleFetch_outcome_witness :
  let http := fun _ : Request => HttpResponse false 404 (mkBody None None []) in
  let s := mkPage (mkState (Some rootNode) {[ "a.ts" := true ]} None "bundle" None false)
             false {[ EmptyString ]} false in
  exists s' requests,
    handleFetch http "https://github.com/o/r" "" s = (s', requests)
    /\ treeData (core s') = None /\ output (core s') = EmptyString
    /\ selection (core s') = selection (core s).
Proof.
  intros http s.
  destruct (handleFetch_outcome http "https://github.com/o/r" "" s eq_refl)
    as (s' & requests & E & _ & Ho & _ & [[He _] | (m & _ & _ & Ht & Hs & _)]).
  - exfalso. vm_compute in E. injection E as <- _. discriminate He.
  - exists s', requests. auto.
Defined.

(** X22. The requests of [handleFetch] for a URL that parses.  The first is
    the request for the repository info, sent even when the URL names a ref,
    and it is the only one unless it is answered by a response that is ok.
    The second then asks for the contents of the path of the URL at the ref
    of the URL or, when the URL names none, at the default branch of the
    first answer; it is the last one unless it is answered by a response that
    is ok, and then the third asks for the recursive tree of the sha in that
    answer.  Every request goes to 'https://api.github.com/repos/owner/repo'
    with the owner and the repository of the URL, and carries an
    Authorization header exactly when the token is not empty. *)
Theorem handleFetch_requests http repoUrl token s details :
  Str.isEmpty repoUrl = false ->
  parseRepoUrl repoUrl = inr details ->
  let o := loc_owner details in
  let r := loc_repo details in
  let requests := snd (handleFetch http repoUrl token s) in
  let contents := fun info : Body =>
                    shaRequest o r
                      match loc_ref details with
                      | Some b => Some b
                      | None => default_branch info
                      end
                      (default EmptyString (loc_path details)) token in
  ((~ exists info, answersOk http (infoRequest o r token) info) ->
   requests = [infoRequest o r token])
  /\ (forall info,
        answersOk http (infoRequest o r token) info ->
        ((~ exists shaBody, answersOk http (contents info) shaBody) ->
         requests = [infoRequest o r token; contents info])
        /\ (forall shaBody,
              answersOk http (contents info) shaBody ->
              requests = [infoRequest o r token; contents info;
                          treeRequest o r (body_sha shaBody) token]))
  /\ (forall rq, In rq requests ->
        String.prefix (apiRepo o r) (req_url rq) = true
        /\ Obj.own "Authorization" (req_headers rq)
           = if Str.isEmpty token then None else Some ("token " +:+ token)).
Proof.
  intros Hne Hparse o r requests contents.
  destruct (parse_inr _ _ Hparse) as [Hwf _].
  assert (Hpath : pathOf details = default EmptyString (loc_path details)).
  { unfold pathOf. destruct (loc_path details) as [p|]; [|reflexivity]. cbn [truthy].
    destruct p; reflexivity. }
  assert (Hbranch : forall info,
            branchOf details info
            = match loc_ref details with
              | Some b => Some b
              | None => default_branch info
              end).
  { intros info. unfold branchOf. unfold wellFormed in Hwf.
    destruct (loc_ref details) as [b|]; [|reflexivity].
    apply andb_true_iff in Hwf as [_ Hwf]. apply andb_true_iff in Hwf as [Hseg _].
    destruct (isSegment_spec b Hseg) as [Hbne _]. cbn [truthy].
    destruct b; [congruence | reflexivity]. }
  assert (Hcontents : forall info,
            shaRequest o r (branchOf details info) (pathOf details) token = contents info).
  { intros info. unfold contents. rewrite Hbranch, Hpath. reflexivity. }
  assert (Hrq : forall branch path sha rq,
            In rq [infoRequest o r token; shaRequest o r branch path token;
                   treeRequest o r sha token] ->
            String.prefix (apiRepo o r) (req_url rq) = true
            /\ Obj.own "Authorization" (req_headers rq)
               = if Str.isEmpty token then None else Some ("token " +:+ token)).
  { intros branch path sha rq [<-|[<-|[<-|[]]]]; cbn [req_url req_headers infoRequest
                                                       shaRequest treeRequest].
    - split; [|apply headers_authorization].
      rewrite <- (str_app_nil_r (apiRepo o r)) at 2. apply prefix_app_str.
    - split; [apply prefix_app_str | apply headers_authorization].
    - split; [apply prefix_app_str | apply headers_authorization]. }
  assert (Hfun : forall rq b1 b2, answersOk http rq b1 -> answersOk http rq b2 -> b1 = b2).
  { intros rq b1 b2 [st1 E1] [st2 E2]. congruence. }
  unfold requests, handleFetch. rewrite Hne, Hparse. cbn zeta. fold o r.
  pose proof (fetchRepoInfo_cases http o r token) as H1.
  destruct (fetchRepoInfo http o r token) as [message|info]; cbn [snd].
  { split; [reflexivity|]. split.
    - intros info' Hinfo. exfalso. apply H1. exists info'. exact Hinfo.
    - intros rq Hin. apply (Hrq None EmptyString None). cbn [In] in *. tauto. }
  pose proof (fetchRepoSha_cases http o r (branchOf details info) (pathOf details) token)
    as H2.
  rewrite Hcontents in H2 |- *.
  destruct (fetchRepoSha http o r (branchOf details info) (pathOf details) token)
    as [message|targetSha]; cbn [snd].
  { split; [intros Hno; exfalso; apply Hno; exists info; exact H1|]. split.
    - intros info' Hinfo. rewrite <- (Hfun _ _ _ H1 Hinfo).
      split; [reflexivity|]. intros shaBody Hsha. exfalso. apply H2. eauto.
    - intros rq Hin. rewrite <- Hcontents in Hin.
      apply (Hrq (branchOf details info) (pathOf details) None). cbn [In] in *. tauto. }
  destruct H2 as (shaBody & H2 & ->).
  assert (Hreq : snd (let requests0 :=
                        [infoRequest o r token; contents info;
                         treeRequest o r (body_sha shaBody) token] in
                      match fetchRepoTree http o r (body_sha shaBody) token with
                      | inl message =>
                          (caught message
                             (onApp (setActiveRepoDetails (Some (detailsOf details)))
                                (onApp (setOutput EmptyString)
                                   (onApp (setTreeData None)
                                      (onApp (setError None) (setIsLoading true s))))),
                           requests0)
                      | inr items =>
                          let built :=
                            buildTreeFrom
                              (polluted
                                 (onApp (setActiveRepoDetails (Some (detailsOf details)))
                                    (onApp (setOutput EmptyString)
                                       (onApp (setTreeData None)
                                          (onApp (setError None)
                                             (setIsLoading true s)))))) items in
                          (setIsLoading false
                             (setExpandedPaths (initialExpanded items)
                                (onApp (setSelection (initialSelection items))
                                   (onApp (setTreeData (Some (fst built)))
                                      (setPolluted (snd built)
                                         (onApp (setActiveRepoDetails
                                                   (Some (detailsOf details)))
                                            (onApp (setOutput EmptyString)
                                               (onApp (setTreeData None)
                                                  (onApp (setError None)
                                                     (setIsLoading true s))))))))),
                           requests0)
                      end)
                 = [infoRequest o r token; contents info;
                    treeRequest o r (body_sha shaBody) token]).
  { cbn zeta. destruct (fetchRepoTree http o r (body_sha shaBody) token); reflexivity. }
  cbn zeta in Hreq |- *. rewrite Hreq.
  split; [intros Hno; exfalso; apply Hno; exists info; exact H1|]. split.
  - intros info' Hinfo. rewrite <- (Hfun _ _ _ H1 Hinfo). split.
    + intros Hno. exfalso. apply Hno. exists shaBody. exact H2.
    + intros shaBody' Hsha. rewrite <- (Hfun _ _ _ H2 Hsha). reflexivity.
  - intros rq Hin. rewrite <- Hcontents in Hin.
    apply (Hrq (branchOf details info) (pathOf details) (body_sha shaBody)). exact Hin.
Qed.

Lemma handleFetch_requests_witness :
  let http := fun _ : Request =>
                HttpResponse true 200 (mkBody (Some "main") (Some "abc") []) in
  map req_url
    (snd (handleFetch http "https://github.com/o/r/tree/dev/src" "t"
            (mkPage (mkState None ∅ None "" None false) false ∅ false)))
  = ["https://api.github.com/repos/o/r";
     "https://api.github.com/repos/o/r/contents/src?ref=dev";
     "https://api.github.com/repos/o/r/git/trees/abc?recursive=1"].
Proof.
  intros http.
  rewrite (proj2 (proj1 (proj2
             (handleFetch_requests http "https://github.com/o/r/tree/dev/src" "t"
                (mkPage (mkState None ∅ None "" None false) false ∅ false)
                (mkLocation "o" "r" (Some "dev") (Some "src")) eq_refl eq_refl))
             (mkBody (Some "main") (Some "abc") [])
             (ex_intro _ 200%nat eq_refl))
           (mkBody (Some "main") (Some "abc") [])
           (ex_intro _ 200%nat eq_refl)).
  reflexivity.
Defined.

(** Two fetches in one page.  The listing of the first holds a path below
    '__proto__', so [Object.prototype.children] is assigned when its tree is
    built; the tree of the second fetch then has no node for the directory
    'children' of its listing, which a fresh page would show. *)
Example handleFetch_twice :
  let first := fun _ : Request =>
                 HttpResponse true 200
                   (mkBody (Some "main") (Some "abc") [file "__proto__/y"]) in
  let second := fun _ : Request =>
                  HttpResponse true 200
                    (mkBody (Some "main") (Some "abc") [file "children/x"]) in
  let fresh := mkPage (mkState None ∅ None "" None false) false ∅ false in
  let s1 := fst (handleFetch first "https://github.com/o/r" "" fresh) in
  let s2 := fst (handleFetch second "https://github.com/o/r" "" s1) in
  polluted s1 = true
  /\ option_map (fun t => map fst (children t)) (treeData (core s2)) = Some []
  /\ option_map (fun t => map fst (children t))
       (treeData (core (fst (handleFetch second "https://github.com/o/r" "" fresh))))
     = Some ["children"].
Proof. intros first second fresh s1 s2. repeat split. Qed.

(** ** [sortTreeItems] *)

Lemma join_app_parts a extra :
  a <> [] -> extra <> [] ->
  Str.join "/" (a ++ extra) = Str.join "/" a +:+ "/" +:+ Str.join "/" extra.
Proof.
  intros Ha He. induction a as [|x [|y a] IH]; [congruence | |].
  - destruct extra as [|e extra]; [congruence|]. reflexivity.
  - change ((x :: y :: a) ++ extra) with (x :: (y :: a) ++ extra).
    change ((y :: a) ++ extra) with (y :: a ++ extra) at 1.
    rewrite join_cons_cons.
    change (y :: a ++ extra) with ((y :: a) ++ extra). rewrite IH by discriminate.
    rewrite join_cons_cons, !str_app_assoc. reflexivity.
Qed.

Lemma ascii_compare_refl c : Ascii.compare c c = Eq.
Proof.
  pose proof (Ascii.compare_antisym c c) as H.
  destruct (Ascii.compare c c); [reflexivity | discriminate | discriminate].
Qed.

Lemma compare_app_Gt p s : s <> EmptyString -> String.compare (p +:+ s) p = Gt.
Proof.
  intros Hs. induction p as [|c p IH].
  - destruct s; [congruence | reflexivity].
  - change (String c p +:+ s) with (String c (p +:+ s)). cbn [String.compare].
    rewrite ascii_compare_refl. exact IH.
Qed.

(** In the order of [String.compare] a path comes after the paths of the
    directories above it. *)
Lemma compare_descendant p q :
  isProperPrefix (Str.split "/" p) (Str.split "/" q) = true ->
  String.compare q p = Gt.
Proof.
  unfold isProperPrefix. intros H. apply andb_true_iff in H as [Hpre Hlen].
  apply Nat.ltb_lt in Hlen.
  pose proof (isPrefix_take _ _ Hpre) as Htake.
  rewrite <- (join_split q), <- (join_split p) at 1.
  rewrite <- (take_drop (length (Str.split "/" p)) (Str.split "/" q)), Htake.
  rewrite join_app_parts.
  - rewrite join_split. apply compare_app_Gt. discriminate.
  - apply split_nonempty.
  - intros E. apply (f_equal (@length string)) in E. rewrite length_drop in E.
    cbn [length] in E. lia.
Qed.

Section SortTreeItemsFacts.
Variable localeCompare : string -> string -> comparison.
Hypothesis compare_total :
  forall a b, localeCompare a b = Gt -> localeCompare b a <> Gt.
Hypothesis compare_trans :
  forall a b c, localeCompare a b <> Gt -> localeCompare b c <> Gt ->
                localeCompare a c <> Gt.
Hypothesis descendants_after :
  forall p q, isProperPrefix (Str.split "/" p) (Str.split "/" q) = true ->
              localeCompare q p = Gt.

Lemma insertItem_Permutation e l :
  Permutation (insertItem localeCompare e l) (e :: l).
Proof.
  induction l as [|x l IH]; cbn [insertItem]; [reflexivity|].
  destruct (localeCompare (item_path e) (item_path x)); try reflexivity.
  rewrite IH. apply perm_swap.
Qed.

Lemma insertItem_sorted e l :
  StronglySorted (pathBefore localeCompare) l ->
  StronglySorted (pathBefore localeCompare) (insertItem localeCompare e l).
Proof.
  induction 1 as [|x l Hl IH Hx]; cbn [insertItem]; [repeat constructor|].
  assert (Hle : localeCompare (item_path e) (item_path x) <> Gt ->
                StronglySorted (pathBefore localeCompare) (e :: x :: l)).
  { intros Hc. constructor; [constructor; assumption|]. constructor; [exact Hc|].
    eapply Forall_impl; [exact Hx|]. intros y Hy. exact (compare_trans _ _ _ Hc Hy). }
  destruct (localeCompare (item_path e) (item_path x)) eqn:E;
    try (apply Hle; discriminate).
  constructor; [exact IH|].
  rewrite (insertItem_Permutation e l). constructor; [|exact Hx].
  apply compare_total. exact E.
Qed.

Lemma sorted_parentsFirst l :
  StronglySorted (pathBefore localeCompare) l -> parentsFirst l = true.
Proof.
  induction 1 as [|x l Hl IH Hx]; [reflexivity|]. cbn [parentsFirst].
  rewrite IH, andb_true_r. apply forallb_forall. intros later Hin.
  rewrite List.Forall_forall in Hx. specialize (Hx later Hin).
  destruct (isProperPrefix (partsOf later) (partsOf x)) eqn:E; [|reflexivity].
  exfalso. apply Hx. apply descendants_after. exact E.
Qed.

(** X23. [sortTreeItems] and [buildTree].  When [localeCompare] is a total
    preorder in which a path comes after the paths of the directories above
    it, [sortTreeItems] returns the records, each once, in that order, with
    every directory before what it contains; so the tree built from the
    sorted list of records with ordinary parts and pairwise distinct paths
    has for every record a node with its path, type, sha and url. *)
Theorem sortTreeItems_spec items :
  Permutation (sortTreeItems localeCompare items) items
  /\ StronglySorted (pathBefore localeCompare) (sortTreeItems localeCompare items)
  /\ parentsFirst (sortTreeItems localeCompare items) = true
  /\ (ordinarySegments items = true -> NoDup (map item_path items) ->
      forall item, In item items ->
        exists n,
          In n (descendants (buildTree (sortTreeItems localeCompare items)))
          /\ path n = item_path item /\ type n = item_type item
          /\ sha n = item_sha item /\ url n = item_url item).
Proof.
  assert (Hperm : Permutation (sortTreeItems localeCompare items) items).
  { unfold sortTreeItems. induction items as [|e l IH]; cbn [fold_right]; [reflexivity|].
    rewrite insertItem_Permutation, IH. reflexivity. }
  assert (Hsorted : StronglySorted (pathBefore localeCompare)
                      (sortTreeItems localeCompare items)).
  { clear Hperm. unfold sortTreeItems.
    induction items as [|e l IH]; cbn [fold_right]; [constructor|].
    apply insertItem_sorted. exact IH. }
  pose proof (sorted_parentsFirst _ Hsorted) as Hpf.
  split; [exact Hperm|]. split; [exact Hsorted|]. split; [exact Hpf|].
  intros Hord Hnd item Hin.
  apply (walk_records (sortTreeItems localeCompare items)).
  - unfold ordinarySegments in *. rewrite forallb_forall in Hord |- *.
    intros x Hx. apply Hord. apply (Permutation_in x Hperm Hx).
  - rewrite (Permutation_map item_path Hperm). exact Hnd.
  - exact Hpf.
  - apply (Permutation_in item (Permutation_sym Hperm) Hin).
Qed.
End SortTreeItemsFacts.

Lemma sortTreeItems_spec_witness :
  map item_path (sortTreeItems String.compare [file "a/b.txt"; dir "a"; file "README.md"])
  = ["README.md"; "a"; "a/b.txt"]
  /\ exists n,
       In n (descendants
               (buildTree (sortTreeItems String.compare
                             [file "a/b.txt"; dir "a"; file "README.md"])))
       /\ path n = "a" /\ sha n = "sha:a".
Proof.
  split; [reflexivity|].
  destruct (proj2 (proj2 (proj2
              (sortTreeItems_spec String.compare
                 (fun a b H => ltac:(rewrite String.compare_antisym, H; discriminate))
                 compare_not_Gt compare_descendant
                 [file "a/b.txt"; dir "a"; file "README.md"])))
              eq_refl
              ltac:(apply (bool_decide_unpack _); vm_compute; exact I)
              (dir "a") ltac:(right; left; reflexivity))
    as (n & Hn & Hp & _ & Hs & _).
  exists n. auto.
Defined.

(** ** The rows of the explorer *)

Lemma sortedChildren_perm localeCompare node :
  Permutation (sortedChildren localeCompare node) (children node).
Proof.
  unfold sortedChildren. induction (children node) as [|e l IH]; cbn [fold_right];
    [reflexivity|].
  rewrite insertSorted_Permutation, IH. reflexivity.
Qed.

Lemma height_child n kc : In kc (children n) -> (height (snd kc) < height n)%nat.
Proof.
  destruct n as [nm p k sh ur cs]. cbn [children height].
  induction cs as [|c cs IH]; intros Hin; [destruct Hin|].
  destruct Hin as [->|Hin]; [lia|]. specialize (IH Hin). lia.
Qed.

(** Fuel beyond the height of the node changes nothing. *)
Lemma fileTree_fuel localeCompare statusMap expanded :
  forall f f' node st,
    (height node <= S f)%nat -> (height node <= S f')%nat ->
    fileTree localeCompare statusMap expanded f node st
    = fileTree localeCompare statusMap expanded f' node st.
Proof.
  induction f as [|f IH]; intros f' node st Hf Hf'.
  - assert (Hleaf : sortedChildren localeCompare node = []).
    { destruct (sortedChildren localeCompare node) as [|kc l] eqn:E; [reflexivity|].
      exfalso. assert (Hin : In kc (children node)).
      { apply (Permutation_in kc (sortedChildren_perm localeCompare node)).
        rewrite E. left. reflexivity. }
      pose proof (height_child node kc Hin). destruct (snd kc); cbn [height] in *. lia. }
    destruct f'; cbn [fileTree]; [reflexivity|]. rewrite Hleaf.
    destruct (_ && _); reflexivity.
  - destruct f' as [|f'].
    + symmetry. cbn [fileTree].
      assert (Hleaf : sortedChildren localeCompare node = []).
      { destruct (sortedChildren localeCompare node) as [|kc l] eqn:E; [reflexivity|].
        exfalso. assert (Hin : In kc (children node)).
        { apply (Permutation_in kc (sortedChildren_perm localeCompare node)).
          rewrite E. left. reflexivity. }
        pose proof (height_child node kc Hin). destruct (snd kc); cbn [height] in *. lia. }
      rewrite Hleaf. destruct (_ && _); reflexivity.
    + cbn [fileTree]. destruct (_ && _); [|reflexivity]. f_equal.
      rewrite !flat_map_concat_map. f_equal. apply map_ext_in. intros kc Hin.
      apply (Permutation_in kc (sortedChildren_perm localeCompare node)) in Hin.
      pose proof (height_child node kc Hin). apply IH; lia.
Qed.

(** The rows of a [FileTree] are rows of nodes that [compute] reaches, and
    below the first row every row shows [statusProp]. *)
Lemma fileTree_rows localeCompare statusMap expanded :
  forall f node st n s,
    In (n, s) (fileTree localeCompare statusMap expanded f node st) ->
    In n (visited node)
    /\ ((n = node /\ s = st) \/ s = statusProp statusMap n).
Proof.
  induction f as [|f IH]; intros node st n s Hin; cbn [fileTree] in Hin.
  - destruct Hin as [[= <- <-]|[]]. split; [apply visited_self | left; auto].
  - destruct Hin as [[= <- <-]|Hin]; [split; [apply visited_self | left; auto]|].
    destruct (Kind_eqb (type node) tree) eqn:Hty; cbn [andb] in Hin; [|destruct Hin].
    destruct (bool_decide (path node ∈ expanded)); [|destruct Hin].
    apply in_flat_map in Hin as (kc & Hkc & Hin).
    apply (Permutation_in kc (sortedChildren_perm localeCompare node)) in Hkc.
    destruct (IH _ _ _ _ Hin) as [Hv Hs]. split.
    + destruct node as [nm p k sh ur cs]. cbn [type] in Hty.
      destruct k; [discriminate|]. apply visited_tree. right. exists kc. auto.
    + right. destruct Hs as [[-> ->]|Hs]; [reflexivity | exact Hs].
Qed.

(** X24. Every row of the explorer shows the derived status of its node.
    In a tree with pairwise distinct paths whose root is a directory, with
    the status map of the selection, each row belongs to a node that
    [compute] has reached, the map has an entry for its path, and the status
    shown is the status of the node: the fallback to 'unchecked' for a
    missing entry is never taken. *)
Theorem explorer_status localeCompare expanded (root : TreeNode) (sel : gmap string bool) :
  NoDup (map path (nodes root)) -> type root = tree ->
  forall n s,
    In (n, s) (explorer localeCompare (selectionStatusMap (Some root) sel) expanded
                 (Some root)) ->
    In n (visited root)
    /\ selectionStatusMap (Some root) sel !! path n = Some (status sel n)
    /\ s = status sel n.
Proof.
  intros Hnd Hty n s Hin. cbn [explorer] in Hin.
  apply in_flat_map in Hin as (kc & Hkc & Hin).
  destruct (fileTree_rows _ _ _ _ _ _ _ _ Hin) as [Hv Hs].
  assert (Hvis : In n (visited root)).
  { destruct root as [nm p k sh ur cs]. cbn [type] in Hty. subst k.
    apply visited_tree. right. exists kc. auto. }
  pose proof (statusMap_lookup root sel n Hnd Hvis) as Hl.
  split; [exact Hvis|]. split; [exact Hl|].
  assert (Hprop : statusProp (selectionStatusMap (Some root) sel) n = status sel n).
  { unfold statusProp. rewrite Hl. reflexivity. }
  destruct Hs as [[-> ->] | ->]; exact Hprop.
Qed.

Lemma explorer_status_witness :
  let root := buildTree [file "src/a.ts"; file "src/b.ts"; file "README.md"] in
  let sel : gmap string bool := {[ "src/a.ts" := true ]} in
  let src := mkNode "src" "src" tree "" ""
               [("a.ts", mkNode "a.ts" "src/a.ts" blob "sha:src/a.ts"
                           "https://api.github.com/blobs/src/a.ts" []);
                ("b.ts", mkNode "b.ts" "src/b.ts" blob "sha:src/b.ts"
                           "https://api.github.com/blobs/src/b.ts" [])] in
  selectionStatusMap (Some root) sel !! "src" = Some (status sel src)
  /\ indeterminate = status sel src.
Proof.
  intros root sel src.
  apply (explorer_status String.compare {[ "src" ]} root sel
           ltac:(apply (bool_decide_unpack _); vm_compute; exact I) eq_refl
           src indeterminate).
  vm_compute. left. reflexivity.
Defined.

Lemma initialExpanded_In items p :
  p ∈ initialExpanded items
  <-> p = EmptyString
      \/ exists item, In item items /\ item_type item = tree
                      /\ item_path item = p /\ Str.contains "/" p = false.
Proof.
  unfold initialExpanded.
  rewrite elem_of_union, elem_of_singleton, elem_of_list_to_set, list_elem_of_In,
    in_map_iff.
  split; (intros [H|H]; [left; exact H | right]).
  - destruct H as (item & Hp & Hin). apply filter_In in Hin as [Hin Hc].
    apply andb_true_iff in Hc as [Hty Hlen]. exists item.
    split; [exact Hin|]. split; [destruct (item_type item); [discriminate | reflexivity]|].
    split; [exact Hp|]. subst p.
    destruct (Str.contains "/" (item_path item)) eqn:E; [|reflexivity].
    destruct (split_with_sep _ _ E) as (a & b & l & Hs). rewrite Hs in Hlen. discriminate.
  - destruct H as (item & Hin & Hty & Hp & Hc). exists item. split; [exact Hp|].
    apply filter_In. split; [exact Hin|]. rewrite Hty. subst p.
    rewrite (split_no_sep _ _ Hc). reflexivity.
Qed.

(** The path of a node two levels below the root of a built tree has a
    slash. *)
Lemma grandchild_path items kc kc2 :
  ordinarySegments items = true ->
  In kc (children (buildTree items)) -> In kc2 (children (snd kc)) ->
  Str.contains "/" (path (snd kc2)) = true.
Proof.
  intros Hord Hkc Hkc2.
  assert (Hloc : In ([fst kc; fst kc2], snd kc2) (locatedBelow (buildTree items))).
  { apply In_locatedBelow. exists (fst kc), (snd kc), [fst kc2].
    split; [destruct kc; exact Hkc|]. split; [reflexivity|].
    rewrite located_unfold. right. apply In_locatedBelow.
    exists (fst kc2), (snd kc2), []. split; [destruct kc2; exact Hkc2|].
    split; [reflexivity|]. rewrite located_unfold. left. reflexivity. }
  destruct (walk_name items Hord _ _ Hloc) as (_ & _ & ->).
  cbn [Str.join]. rewrite contains_app.
  replace (Str.contains "/" ("/" +:+ fst kc2)) with true by reflexivity.
  apply orb_true_r.
Qed.

Lemma flat_map_single {A B : Type} (f : A -> B) (g : A -> list B) (l : list A) :
  (forall a, In a l -> g a = [f a]) -> flat_map g l = map f l.
Proof.
  induction l as [|a l IH]; intros H; [reflexivity|]. cbn [flat_map map].
  rewrite (H a (or_introl eq_refl)), IH; [reflexivity|].
  intros b Hb. apply H. right. exact Hb.
Qed.

(** X25. The explorer right after [handleFetch].  The expanded paths are
    the empty path and the paths without a slash of the records of type
    tree; so on the tree built from records with ordinary parts the
    explorer shows the children of the root in the order in which the root
    holds them, that of [Object.values], and, under each of them that is a
    directory with an expanded path, its children as [sortedChildren] orders
    them, and nothing deeper. *)
Theorem explorer_initial localeCompare statusMap items :
  ordinarySegments items = true ->
  (forall p, p ∈ initialExpanded items
             <-> p = EmptyString
                 \/ exists item, In item items /\ item_type item = tree
                                 /\ item_path item = p /\ Str.contains "/" p = false)
  /\ explorer localeCompare statusMap (initialExpanded items) (Some (buildTree items))
     = flat_map
         (fun kc =>
            (snd kc, statusProp statusMap (snd kc))
            :: if Kind_eqb (type (snd kc)) tree
                  && bool_decide (path (snd kc) ∈ initialExpanded items)
               then map (fun kc2 => (snd kc2, statusProp statusMap (snd kc2)))
                      (sortedChildren localeCompare (snd kc))
               else [])
         (children (buildTree items)).
Proof.
  intros Hord. split; [apply initialExpanded_In|].
  cbn [explorer]. rewrite !flat_map_concat_map. f_equal. apply map_ext_in.
  intros kc Hkc.
  pose proof (height_child _ _ Hkc) as Hh.
  destruct (height (buildTree items)) as [|[|m]] eqn:Eh;
    [lia | destruct (snd kc); cbn [height] in Hh; lia |].
  cbn [fileTree]. f_equal.
  destruct (Kind_eqb (type (snd kc)) tree && _); [|reflexivity].
  apply flat_map_single. intros kc2 Hkc2.
  apply (Permutation_in kc2 (sortedChildren_perm localeCompare (snd kc))) in Hkc2.
  pose proof (grandchild_path items kc kc2 Hord Hkc Hkc2) as Hslash.
  replace (bool_decide (path (snd kc2) ∈ initialExpanded items)) with false;
    [rewrite andb_false_r; reflexivity|].
  symmetry. apply bool_decide_eq_false. rewrite initialExpanded_In.
  intros [E | (item & _ & _ & _ & Hc)]; [|congruence].
  rewrite E in Hslash. discriminate.
Qed.

Lemma explorer_initial_witness :
  map (fun row => path (fst row))
    (explorer String.compare ∅
       (initialExpanded [dir "src"; file "src/a.ts"; dir "src/lib";
                         file "src/lib/b.ts"; file "README.md"])
       (Some (buildTree [dir "src"; file "src/a.ts"; dir "src/lib";
                         file "src/lib/b.ts"; file "README.md"])))
  = ["src"; "src/lib"; "src/a.ts"; "README.md"].
Proof.
  rewrite (proj2 (explorer_initial String.compare ∅
                    [dir "src"; file "src/a.ts"; dir "src/lib";
                     file "src/lib/b.ts"; file "README.md"] eq_refl)).
  vm_compute. reflexivity.
Defined.

Lemma fileTree_agree localeCompare statusMap (e e' : gset string) :
  forall f node st,
    (forall d, In d (nodes node) -> type d = tree -> (path d ∈ e <-> path d ∈ e')) ->
    fileTree localeCompare statusMap e f node st
    = fileTree localeCompare statusMap e' f node st.
Proof.
  induction f as [|f IH]; intros node st H; [reflexivity|]. cbn [fileTree]. f_equal.
  assert (Hsub : flat_map (fun kc => fileTree localeCompare statusMap e f (snd kc)
                                       (statusProp statusMap (snd kc)))
                   (sortedChildren localeCompare node)
                 = flat_map (fun kc => fileTree localeCompare statusMap e' f (snd kc)
                                         (statusProp statusMap (snd kc)))
                     (sortedChildren localeCompare node)).
  { rewrite !flat_map_concat_map. f_equal. apply map_ext_in. intros kc Hkc.
    apply (Permutation_in kc (sortedChildren_perm localeCompare node)) in Hkc.
    apply IH. intros d Hd. apply H.
    destruct node as [nm p k sh ur cs]. cbn [children] in Hkc. right.
    apply in_flat_map. exists kc. auto. }
  destruct (Kind_eqb (type node) tree) eqn:Hty; cbn [andb]; [|reflexivity].
  assert (Hself : bool_decide (path node ∈ e) = bool_decide (path node ∈ e')).
  { apply bool_decide_ext. apply H; [apply nodes_self|].
    destruct (type node); [discriminate | reflexivity]. }
  rewrite Hself, Hsub. reflexivity.
Qed.

(** X26. [onToggleExpand]: toggling a path twice gives back the set of
    expanded paths, and toggling a path that is the path of no directory
    below the root changes no row of the explorer. *)
Theorem toggleExpand_rows localeCompare statusMap (root : TreeNode)
    (p : string) (e : gset string) :
  toggleExpand p (toggleExpand p e) = e
  /\ ((forall d, In d (descendants root) -> type d = tree -> path d <> p) ->
      explorer localeCompare statusMap (toggleExpand p e) (Some root)
      = explorer localeCompare statusMap e (Some root)).
Proof.
  split.
  - unfold toggleExpand. destruct (bool_decide (p ∈ e)) eqn:E.
    + apply bool_decide_eq_true in E.
      rewrite bool_decide_eq_false_2
        by (rewrite elem_of_difference, elem_of_singleton; tauto).
      apply set_eq. intros q. rewrite elem_of_union, elem_of_difference, elem_of_singleton.
      destruct (decide (q = p)) as [->|]; tauto.
    + apply bool_decide_eq_false in E.
      rewrite bool_decide_eq_true_2
        by (rewrite elem_of_union, elem_of_singleton; tauto).
      apply set_eq. intros q. rewrite elem_of_difference, elem_of_union, elem_of_singleton.
      destruct (decide (q = p)) as [->|]; tauto.
  - intros Hp. cbn [explorer]. rewrite !flat_map_concat_map. f_equal.
    apply map_ext_in. intros kc Hkc. apply fileTree_agree. intros d Hd Hty.
    assert (Hne : path d <> p).
    { apply Hp; [|exact Hty]. unfold descendants. apply in_flat_map. exists kc. auto. }
    unfold toggleExpand. destruct (bool_decide (p ∈ e)).
    + rewrite elem_of_difference, elem_of_singleton. tauto.
    + rewrite elem_of_union, elem_of_singleton. tauto.
Qed.

(** ** ContentFetcher: every file at most once *)

Lemma issued_windows settleOrder ws :
  issued (concat (map (windowEvents settleOrder) ws)) = concat ws
  /\ settled (concat (map (windowEvents settleOrder) ws)) = concat (map settleOrder ws).
Proof.
  assert (HI : forall w, issued (map Issued w) = w /\ settled (map Issued w) = []).
  { unfold issued, settled. induction w as [|f w [IH1 IH2]]; [split; reflexivity|].
    split; cbn; [f_equal; exact IH1 | exact IH2]. }
  assert (HD : forall w, issued (map Done w) = [] /\ settled (map Done w) = w).
  { unfold issued, settled. induction w as [|f w [IH1 IH2]]; [split; reflexivity|].
    split; cbn; [exact IH1 | f_equal; exact IH2]. }
  assert (HIa : forall x y, issued (x ++ y) = issued x ++ issued y)
    by (intros; apply omap_app).
  assert (HSa : forall x y, settled (x ++ y) = settled x ++ settled y)
    by (intros; apply omap_app).
  induction ws as [|w ws [IH1 IH2]]; [split; reflexivity|].
  cbn [map concat]. unfold windowEvents at 1 3.
  rewrite !HIa, !HSa, IH1, IH2.
  rewrite (proj1 (HI w)), (proj2 (HI w)), (proj1 (HD _)), (proj2 (HD _)).
  rewrite app_nil_r. split; reflexivity.
Qed.

(** X27. No file is requested twice.  For a window size of at least one the
    call ends, and the requests that have left are, in order, a beginning of
    the list of files given, the whole list when the call fulfils; when the
    operations of every window settle in some order of the window, the
    operations settled are those issued. *)
Theorem requests_once fetch settleOrder limit files :
  (1 <= limit)%nat ->
  exists result events,
    fetchAll fetch settleOrder limit files = Some (result, events)
    /\ issued events `prefix_of` files
    /\ (forall contents, result = Fulfilled contents -> issued events = files)
    /\ ((forall w, Permutation (settleOrder w) w) ->
        Permutation (settled events) (issued events)).
Proof.
  intros Hl.
  destruct (fetchLoop_events settleOrder fetch limit files Hl (length files) 0%nat [] [])
    as (result & k & E & Hk); [lia|].
  fold (windows limit files) in E, Hk. cbn [app] in E.
  exists result, (concat (map (windowEvents settleOrder) (take k (windows limit files)))).
  split; [exact E|].
  destruct (issued_windows settleOrder (take k (windows limit files))) as [HI HS].
  rewrite HI, HS.
  pose proof (windowsFrom_concat limit files Hl (length files) 0%nat ltac:(lia)) as Hcat.
  rewrite drop_0 in Hcat. fold (windows limit files) in Hcat.
  split; [|split].
  - exists (concat (drop k (windows limit files))).
    rewrite <- concat_app, take_drop. symmetry. exact Hcat.
  - intros contents ->. subst k. rewrite firstn_all. exact Hcat.
  - intros Hperm. clear E HI HS.
    induction (take k (windows limit files)) as [|w ws IH]; [reflexivity|].
    cbn [map concat]. rewrite (Hperm w), IH. reflexivity.
Qed.

Lemma requests_once_witness :
  let a := mkFileRef "a.ts" "u/a" in
  let b := mkFileRef "b.ts" "u/b" in
  let c := mkFileRef "c.ts" "u/c" in
  let fetch := fun f => if String.eqb (file_path f) "b.ts"
                        then NetworkError "Failed to fetch"
                        else Response true "text" "text/plain" "data:" in
  exists result events,
    fetchAll fetch (@rev FileRef) 2 [a; b; c] = Some (result, events)
    /\ issued events `prefix_of` [a; b; c].
Proof.
  intros a b c fetch.
  destruct (requests_once fetch (@rev FileRef) 2 [a; b; c] ltac:(lia))
    as (result & events & E & Hpre & _).
  exists result, events. split; assumption.
Defined.
